(** * Service Status Dashboard: the shared API client and the FIRMS proxy

    A shallow embedding of

    - [scripts/api-client.js] ([readCache], [writeCache],
      [parseCacheControlMaxAge], [sleep], [apiFetch] and its inner
      [attempt]), and
    - [functions/api/firms.js] ([parseCsv], [onRequestGet]),

    followed by the properties of the design document that concern them.

    Conventions of the embedding.

    - A JavaScript string is a [string]: a sequence of code units, each
      below 256.
    - A JavaScript number that the code only ever uses as an integer
      (timestamps, durations, counters, HTTP statuses) is a [Z]; the two
      agree as long as the value stays in the range a double represents
      exactly.
    - [async]/[await] code is sequential for a single caller, so it is
      written in a state-and-exception monad over an explicit [World];
      a rejected promise is an exception raised at its [await]. *)

From Stdlib Require Import ZArith String Ascii List Bool Lia.
From stdpp Require Import base option list gmap strings.

Local Open Scope string_scope.
Local Open Scope Z_scope.
Local Open Scope list_scope.

(** ** JavaScript basics shared by both programs *)

Module Js.

(** Values that [response.json()] can produce, plus [undefined]. *)
#[warnings="-register-all"]
Inductive value : Type :=
| VUndefined
| VNull
| VBool (b : bool)
| VNum (n : Z)
| VStr (s : string)
| VArr (items : list value)
| VObj (fields : list (string * value)).

(** What a [catch (err)] clause reads from the thrown object. *)
Record JsError : Type := mkError { name : string; message : string }.

(** A settled promise. *)
Inductive Settled (A : Type) : Type :=
| Fulfilled (a : A)
| Rejected (e : JsError).
Arguments Fulfilled {A} a.
Arguments Rejected {A} e.

(** How a statement completes. *)
Inductive Completion (A : Type) : Type :=
| Normal (a : A)
| Throw (e : JsError).
Arguments Normal {A} a.
Arguments Throw {A} e.

(** [\d] of a regular expression without the unicode flag; also the digits
    [parseInt] accepts in radix 10. *)
Definition is_digit (c : ascii) : bool :=
  let n := nat_of_ascii c in (48 <=? n)%nat && (n <=? 57)%nat.

Definition digit_value (c : ascii) : Z := Z.of_nat (nat_of_ascii c) - 48.

(** White space as [String.prototype.trim] and [parseInt] skip it, among
    the code units below 256: TAB, LF, VT, FF, CR, SP and NBSP. *)
Definition is_space (c : ascii) : bool :=
  let n := nat_of_ascii c in
  ((9 <=? n)%nat && (n <=? 13)%nat) || (n =? 32)%nat || (n =? 160)%nat.

(** The longest prefix of digits, and what follows it. *)
Fixpoint take_digits (s : string) : string :=
  match s with
  | String c rest => if is_digit c then String c (take_digits rest) else ""
  | EmptyString => ""
  end.

Fixpoint digits_value_from (acc : Z) (s : string) : Z :=
  match s with
  | String c rest => digits_value_from (10 * acc + digit_value c) rest
  | EmptyString => acc
  end.

Fixpoint skip_spaces (s : string) : string :=
  match s with
  | String c rest => if is_space c then skip_spaces rest else s
  | EmptyString => ""
  end.

Fixpoint all_digits (s : string) : bool :=
  match s with
  | String c rest => is_digit c && all_digits rest
  | EmptyString => true
  end.

Definition starts_with_digit (s : string) : bool :=
  match s with
  | String c _ => is_digit c
  | EmptyString => false
  end.

(** [parseInt(s, 10)]: skip leading white space, read an optional sign,
    then the longest run of decimal digits; [None] is [NaN]. *)
Definition parseInt10 (s : string) : option Z :=
  let s1 := skip_spaces s in
  let '(sign, s2) :=
    match s1 with
    | String "-"%char rest => (-1, rest)
    | String "+"%char rest => (1, rest)
    | _ => (1, s1)
    end in
  match take_digits s2 with
  | EmptyString => None
  | ds => Some (sign * digits_value_from 0 ds)
  end.

(** [Number.MAX_SAFE_INTEGER], 2^53 - 1: up to it every integer is a
    double and sums and products of integers are exact in doubles. *)
Definition MAX_SAFE_INTEGER : Z := 9007199254740991.

(** Decimal rendering of an integer, as a template literal does it. *)
Definition digit_char (d : Z) : ascii := ascii_of_nat (Z.to_nat (48 + d)).

Fixpoint nat_digits (fuel : nat) (n : Z) (acc : string) : string :=
  match fuel with
  | O => acc
  | S fuel' =>
      let acc' := String (digit_char (n mod 10)) acc in
      if n / 10 =? 0 then acc' else nat_digits fuel' (n / 10) acc'
  end.

Definition Z_to_string (n : Z) : string :=
  if n <? 0
  then String "-"%char (nat_digits (S (Z.to_nat (Z.log2 (- n)))) (- n) "")
  else nat_digits (S (Z.to_nat (Z.log2 n))) n "".

End Js.

(** ** scripts/api-client.js *)

Module ApiClient.
Import Js.

Definition DEFAULT_TIMEOUT_MS : Z := 10000.
Definition DEFAULT_MAX_RETRIES : Z := 2.
Definition CACHE_PREFIX : string := "dashboard_cache_".

(** The record [writeCache] serialises and [readCache] hands back:
    [{ data: any, cachedAt: number, ttl: number }]. A payload that was
    [undefined] when written is missing from the stored text, and reads
    back as [VUndefined]. *)
Record CacheEntry : Type := mkEntry { data : value; cachedAt : Z; ttl : Z }.

(** The three outcomes of [JSON.parse] that the declared return type of
    [readCache] ([CacheEntry | null]) allows for a stored record: a
    [SyntaxError], the text [null], or an entry. [AnyRecord] below embeds
    [readCache] and [apiFetch] for a store that may hold any text; the
    two embeddings agree where the store holds such records (lemma
    [agrees_on_declared_records]). *)
Inductive Parsed : Type :=
| ParseError (e : JsError)
| ParsedNull
| ParsedEntry (c : CacheEntry).

(** The part of a [Response] that [attempt] reads. [cache_control] is
    [response.headers.get('cache-control')]; [json] and [text] are what
    the promises of [response.json()] and [response.text()] settle to. *)
Record Response : Type := mkResponse {
  ok : bool;
  status : Z;
  statusText : string;
  cache_control : option string;
  json : Settled value;
  text : Settled string
}.

(** What the network does with one call: after [latency] milliseconds
    the promise of [fetch] settles as [settle], unless it is aborted
    before that. *)
Record NetReply : Type := mkReply { latency : Z; settle : Settled Response }.

(** Everything outside the module: the JSON codec, whether storage can be
    read or written, and the replies of the network, one per call issued
    (numbered from 0) and target. *)
Record Platform : Type := mkPlatform {
  JSON_parse : string -> Parsed;
  JSON_stringify : CacheEntry -> string;
  getItem_error : option JsError;
  setItem_error : gmap string string -> string -> string -> option JsError;
  network : nat -> string -> NetReply
}.

Inductive Event : Type :=
| EFetch (url : string)
| ESleep (ms : Z).

(** The mutable state a call can observe or change. [timeline] lists the
    network calls and the waits of [sleep], oldest first. *)
Record World : Type := mkWorld {
  sessionStorage : gmap string string;
  now : Z;
  fetches : nat;
  timeline : list Event;
  console : list string
}.

(** [{ data, error, stale }]; [error = None] is [error: null]. *)
Record FetchResult : Type := mkResult {
  res_data : value;
  res_error : option string;
  res_stale : bool
}.

(** The options of [apiFetch] after destructuring with their defaults.
    [fetchInit] is handed to [fetch] untouched and plays no part here. *)
Record Options : Type := mkOptions {
  ttlMs : Z;
  timeoutMs : Z;
  maxRetries : Z;
  parse : string
}.

Definition default_options : Options :=
  {| ttlMs := 300000; timeoutMs := DEFAULT_TIMEOUT_MS;
     maxRetries := DEFAULT_MAX_RETRIES; parse := "json" |}.

(** *** The monad of statements *)

Definition M (A : Type) : Type := World -> Completion A * World.

Definition ret {A} (a : A) : M A := fun w => (Normal a, w).

Definition throw {A} (e : JsError) : M A := fun w => (Throw e, w).

Definition bind {A B} (m : M A) (k : A -> M B) : M B :=
  fun w =>
    match m w with
    | (Normal a, w') => k a w'
    | (Throw e, w') => (Throw e, w')
    end.

(** [try { body } catch (err) { handler }]. *)
Definition try_catch {A} (body : M A) (handler : JsError -> M A) : M A :=
  fun w =>
    match body w with
    | (Normal a, w') => (Normal a, w')
    | (Throw e, w') => handler e w'
    end.

(** [await p] for a promise that has settled. *)
Definition await {A} (p : Settled A) : M A :=
  match p with
  | Fulfilled a => ret a
  | Rejected e => throw e
  end.

Notation "x <- m ;; k" := (bind m (fun x => k))
  (at level 100, m at next level, right associativity).
Notation "m ;;; k" := (bind m (fun _ => k))
  (at level 100, right associativity).

Section Client.

Variable env : Platform.

(** *** Primitives of the host *)

Definition Date_now : M Z := fun w => (Normal (now w), w).

Definition getItem (k : string) : M (option string) :=
  fun w =>
    match getItem_error env with
    | Some e => (Throw e, w)
    | None => (Normal (sessionStorage w !! k), w)
    end.

Definition setItem (k v : string) : M unit :=
  fun w =>
    match setItem_error env (sessionStorage w) k v with
    | Some e => (Throw e, w)
    | None =>
        (Normal tt,
         {| sessionStorage := <[k := v]> (sessionStorage w);
            now := now w; fetches := fetches w;
            timeline := timeline w; console := console w |})
    end.

Definition console_warn (line : string) : M unit :=
  fun w =>
    (Normal tt,
     {| sessionStorage := sessionStorage w; now := now w;
        fetches := fetches w; timeline := timeline w;
        console := console w ++ [line] |}).

(** [const sleep = (ms) => new Promise((r) => { setTimeout(r, ms); })],
    awaited: the wait is logged and the clock moves on by [ms]. *)
Definition sleep (ms : Z) : M unit :=
  fun w =>
    (Normal tt,
     {| sessionStorage := sessionStorage w; now := now w + ms;
        fetches := fetches w; timeline := timeline w ++ [ESleep ms];
        console := console w |}).

Definition AbortError : JsError :=
  {| name := "AbortError"; message := "The user aborted a request." |}.

(** The three lines
    [const controller = new AbortController();]
    [const timeoutId = setTimeout(() => controller.abort(), timeoutMs);]
    [await fetch(url, { ...fetchInit, signal: controller.signal })]:
    the call is logged; if the timer fires before the network settles
    the promise rejects with an [AbortError], else it settles as the
    network says. A timer set to a negative delay fires at once. *)
Definition fetch_with_deadline (url : string) (deadline : Z) : M Response :=
  fun w =>
    let reply := network env (fetches w) url in
    let elapsed := if deadline <=? latency reply then Z.max 0 deadline
                   else latency reply in
    let w' := {| sessionStorage := sessionStorage w; now := now w + elapsed;
                 fetches := S (fetches w);
                 timeline := timeline w ++ [EFetch url];
                 console := console w |} in
    if deadline <=? latency reply then (Throw AbortError, w')
    else await (settle reply) w'.

(** *** readCache *)

Definition JSON_parse_m (raw : string) : M (option CacheEntry) :=
  match JSON_parse env raw with
  | ParseError e => throw e
  | ParsedNull => ret None
  | ParsedEntry c => ret (Some c)
  end.

Definition readCache (key : string) : M (option CacheEntry) :=
  try_catch
    (raw <- getItem (CACHE_PREFIX +:+ key) ;;
     match raw with
     | None => ret None
     | Some EmptyString => ret None
     | Some s => JSON_parse_m s
     end)
    (fun _ => ret None).

(** *** writeCache *)

Definition writeCache (key : string) (d : value) (ttl_ms : Z) : M unit :=
  try_catch
    (t <- Date_now ;;
     setItem (CACHE_PREFIX +:+ key)
       (JSON_stringify env {| data := d; cachedAt := t; ttl := ttl_ms |}))
    (fun _ => ret tt).

(** *** parseCacheControlMaxAge *)

Fixpoint strip_prefix (p s : string) : option string :=
  match p, s with
  | EmptyString, _ => Some s
  | String a p', String b s' =>
      if Ascii.eqb a b then strip_prefix p' s' else None
  | String _ _, EmptyString => None
  end.

(** [cc.match(/max-age=(\d+)/)]: the capture group of the leftmost match,
    the group itself being greedy. [match_here] tries the pattern at the
    head of the string only. *)
Definition match_here (s : string) : option string :=
  match strip_prefix "max-age=" s with
  | Some tl =>
      match take_digits tl with
      | EmptyString => None
      | ds => Some ds
      end
  | None => None
  end.

Fixpoint match_max_age (cc : string) : option string :=
  match cc with
  | EmptyString => None
  | String _ rest =>
      match match_here cc with
      | Some ds => Some ds
      | None => match_max_age rest
      end
  end.

(** [parseInt] of a run of digits is never [NaN] (lemma
    [parseInt10_digits] below), so the product is always a number. It is
    computed here in [Z]; the source computes it in doubles, which give
    the same number as long as the product does not exceed
    [MAX_SAFE_INTEGER] ([exact_max_age] below), round it beyond that and
    end in [Infinity] for a run of some 309 digits. *)
Definition parseCacheControlMaxAge (response : Response) : option Z :=
  let cc := default "" (cache_control response) in
  match match_max_age cc with
  | Some group => (fun n => n * 1000) <$> parseInt10 group
  | None => None
  end.

(** The response has no [max-age] directive, or one whose number of
    seconds, times 1000, is an integer that doubles represent exactly
    (a [max-age] of up to 9007199254740 seconds). *)
Definition exact_max_age (response : Response) : bool :=
  match parseCacheControlMaxAge response with
  | Some t => t <=? MAX_SAFE_INTEGER
  | None => true
  end.

(** *** apiFetch *)

(** How the body of one pass through [attempt] ends: with the value it
    returns, or with the tail call [return attempt(remaining - 1, err)].
    The tail call is not awaited, so it runs outside the [try]. *)
Inductive Step : Type :=
| Done (r : FetchResult)
| Retry (err : string).

Section Attempt.

Variables (url : string) (opts : Options) (cached : option CacheEntry).

Definition backoff (remaining : Z) : M unit :=
  if 0 <? remaining
  then sleep (500 * 2 ^ (maxRetries opts - remaining))
  else ret tt.

Definition read_body (response : Response) : M value :=
  if String.eqb (parse opts) "json" then await (json response)
  else if String.eqb (parse opts) "text" || String.eqb (parse opts) "csv"
  then s <- await (text response) ;; ret (VStr s)
  else ret VUndefined.

Definition attempt_body (remaining : Z) : M Step :=
  try_catch
    (response <- fetch_with_deadline url (timeoutMs opts) ;;
     if negb (ok response) then
       let err := "HTTP " +:+ Z_to_string (status response) +:+ " "
                  +:+ statusText response in
       backoff remaining ;;;
       ret (Retry err)
     else
       d <- read_body response ;;
       let serverTtl := parseCacheControlMaxAge response in
       writeCache url d (default (ttlMs opts) serverTtl) ;;;
       ret (Done {| res_data := d; res_error := None; res_stale := false |}))
    (fun err =>
       let errMsg := if String.eqb (name err) "AbortError"
                     then "Request timed out" else message err in
       backoff remaining ;;;
       ret (Retry errMsg)).

Definition fall_back (lastError : option string) : M FetchResult :=
  match cached with
  | Some c =>
      console_warn ("[api-client] Using stale cache for " +:+ url +:+ ":") ;;;
      ret {| res_data := data c; res_error := lastError; res_stale := true |}
  | None =>
      ret {| res_data := VNull; res_error := lastError; res_stale := false |}
  end.

(** [attempt], with the number of passes still possible as the
    structurally decreasing argument. *)
Fixpoint attempt_rec (passes : nat) (remaining : Z)
    (lastError : option string) : M FetchResult :=
  if remaining <? 0 then fall_back lastError
  else
    match passes with
    | O => fall_back lastError
    | S passes' =>
        step <- attempt_body remaining ;;
        match step with
        | Done r => ret r
        | Retry err => attempt_rec passes' (remaining - 1) (Some err)
        end
    end.

Definition attempt (remaining : Z) (lastError : option string) : M FetchResult :=
  attempt_rec (Z.to_nat (remaining + 1)) remaining lastError.

End Attempt.

Definition is_fresh (t : Z) (c : CacheEntry) : bool := t - cachedAt c <? ttl c.

Definition apiFetch (url : string) (opts : Options) : M FetchResult :=
  let cacheKey := url in
  cached <- readCache cacheKey ;;
  t <- Date_now ;;
  match cached with
  | Some c =>
      if is_fresh t c
      then ret {| res_data := data c; res_error := None; res_stale := false |}
      else attempt url opts cached (maxRetries opts) None
  | None => attempt url opts cached (maxRetries opts) None
  end.

(** *** Reading the design document's vocabulary off the inputs *)

(** The entry the cache holds for [key], if any: what [readCache]
    returns (lemma [readCache_lookup]). *)
Definition cache_lookup (w : World) (key : string) : option CacheEntry :=
  match getItem_error env with
  | Some _ => None
  | None =>
      match sessionStorage w !! (CACHE_PREFIX +:+ key) with
      | None => None
      | Some EmptyString => None
      | Some raw =>
          match JSON_parse env raw with
          | ParsedEntry c => Some c
          | _ => None
          end
      end
  end.

(** A fresh hit: an entry exists and [now - storedAt < ttl]. *)
Definition fresh_entry (w : World) (key : string) : option CacheEntry :=
  match cache_lookup w key with
  | Some c => if is_fresh (now w) c then Some c else None
  | None => None
  end.

(** The message a caught error is normalised to. *)
Definition error_text (e : JsError) : string :=
  if String.eqb (name e) "AbortError" then "Request timed out" else message e.

Definition http_error (r : Response) : string :=
  "HTTP " +:+ Z_to_string (status r) +:+ " " +:+ statusText r.

(** The body under the configured response format. *)
Definition decode (opts : Options) (r : Response) : Settled value :=
  if String.eqb (parse opts) "json" then json r
  else if String.eqb (parse opts) "text" || String.eqb (parse opts) "csv"
  then match text r with
       | Fulfilled s => Fulfilled (VStr s)
       | Rejected e => Rejected e
       end
  else Fulfilled VUndefined.

(** One attempt either fails with a message or succeeds with a payload.
    It fails when the deadline passes first, when the transport rejects,
    when the status is not a success, and when the body does not decode. *)
Inductive Verdict : Type :=
| Fails (msg : string)
| Succeeds (d : value) (r : Response).

Definition verdict (opts : Options) (reply : NetReply) : Verdict :=
  if timeoutMs opts <=? latency reply then Fails "Request timed out"
  else
    match settle reply with
    | Rejected e => Fails (error_text e)
    | Fulfilled r =>
        if ok r then
          match decode opts r with
          | Fulfilled d => Succeeds d r
          | Rejected e => Fails (error_text e)
          end
        else Fails (http_error r)
    end.

Definition failure_message (v : Verdict) : option string :=
  match v with
  | Fails m => Some m
  | Succeeds _ _ => None
  end.

(** The verdict on the [i]-th attempt of a call that starts in [w]. *)
Definition verdict_at (url : string) (opts : Options) (w : World) (i : nat) : Verdict :=
  verdict opts (network env (fetches w + i) url).

(** No fresh entry stops the call early and every attempt it makes
    fails. *)
Definition exhausted (url : string) (opts : Options) (w : World) : Prop :=
  fresh_entry w url = None /\
  forall i : nat, Z.of_nat i <= maxRetries opts ->
    exists m, verdict_at url opts w i = Fails m.

(** [n] network calls with the back-off waits between them, the first
    call being attempt number [i]. *)
Fixpoint schedule (url : string) (i : Z) (n : nat) : list Event :=
  match n with
  | O => []
  | S n' =>
      EFetch url ::
      match n' with
      | O => []
      | S _ => ESleep (500 * 2 ^ i) :: schedule url (i + 1) n'
      end
  end.

Definition waits (evs : list Event) : list Z :=
  omap (fun e => match e with ESleep ms => Some ms | EFetch _ => None end) evs.

Definition calls (evs : list Event) : list string :=
  omap (fun e => match e with EFetch u => Some u | ESleep _ => None end) evs.

(** The world right after the network call of one attempt, and the
    store after a best-effort write of [entry] under [key]. *)
Definition after_fetch (url : string) (opts : Options) (w : World) : World :=
  let reply := network env (fetches w) url in
  {| sessionStorage := sessionStorage w;
     now := now w + (if timeoutMs opts <=? latency reply
                     then Z.max 0 (timeoutMs opts) else latency reply);
     fetches := S (fetches w);
     timeline := timeline w ++ [EFetch url];
     console := console w |}.

(** The world in which the next pass starts after a failed one. *)
Definition next_start (url : string) (opts : Options) (remaining : Z)
    (w : World) : World :=
  snd (backoff opts remaining (after_fetch url opts w)).

Definition persisted (store : gmap string string) (key : string)
    (entry : CacheEntry) : gmap string string :=
  let k := CACHE_PREFIX +:+ key in
  let v := JSON_stringify env entry in
  match setItem_error env store k v with
  | None => <[k := v]> store
  | Some _ => store
  end.

(** The TTL an entry gets when [r] is the successful response. *)
Definition effective_ttl (opts : Options) (r : Response) : Z :=
  default (ttlMs opts) (parseCacheControlMaxAge r).

Definition fallback_result (cached : option CacheEntry)
    (lastError : option string) : FetchResult :=
  match cached with
  | Some c => {| res_data := data c; res_error := lastError; res_stale := true |}
  | None => {| res_data := VNull; res_error := lastError; res_stale := false |}
  end.

(** The error carried out of [passes] failed attempts that started with
    [last] in hand. *)
Definition final_error (url : string) (opts : Options) (w : World)
    (passes : nat) (last : option string) : option string :=
  match passes with
  | O => last
  | S p => failure_message (verdict_at url opts w p)
  end.

(** The two ways a run of [attempt] with [passes] passes to go can end,
    [i] being the number of its first attempt: every pass fails, or pass
    [k] is the first to succeed. *)
Inductive Run (url : string) (opts : Options) (cached : option CacheEntry)
    (passes : nat) (i : Z) (last : option string)
    (w : World) (r : FetchResult) (w' : World) : Prop :=
| RunExhausted :
    (forall j, (j < passes)%nat -> exists m, verdict_at url opts w j = Fails m) ->
    r = fallback_result cached (final_error url opts w passes last) ->
    sessionStorage w' = sessionStorage w ->
    timeline w' = timeline w ++ schedule url i passes ->
    fetches w' = (fetches w + passes)%nat ->
    Run url opts cached passes i last w r w'
| RunSuccess (k : nat) (d : value) (resp : Response) :
    (k < passes)%nat ->
    (forall j, (j < k)%nat -> exists m, verdict_at url opts w j = Fails m) ->
    verdict_at url opts w k = Succeeds d resp ->
    r = {| res_data := d; res_error := None; res_stale := false |} ->
    sessionStorage w' =
      persisted (sessionStorage w) url
        {| data := d; cachedAt := now w'; ttl := effective_ttl opts resp |} ->
    timeline w' = timeline w ++ schedule url i (S k) ->
    fetches w' = (fetches w + S k)%nat ->
    Run url opts cached passes i last w r w'.

(** The three ways a call of [apiFetch] can end. *)
Inductive Call (url : string) (opts : Options)
    (w : World) (r : FetchResult) (w' : World) : Prop :=
| CallFresh (c : CacheEntry) :
    fresh_entry w url = Some c ->
    r = {| res_data := data c; res_error := None; res_stale := false |} ->
    w' = w ->
    Call url opts w r w'
| CallAttempts :
    fresh_entry w url = None ->
    Run url opts (cache_lookup w url) (Z.to_nat (maxRetries opts + 1)) 0 None w r w' ->
    Call url opts w r w'.

Definition exactly_one (A B C : Prop) : Prop :=
  (A /\ ~ B /\ ~ C) \/ (~ A /\ B /\ ~ C) \/ (~ A /\ ~ B /\ C).

Definition data_absent (r : FetchResult) : Prop :=
  res_data r = VNull \/ res_data r = VUndefined.

Definition data_present (r : FetchResult) : Prop :=
  res_data r <> VNull /\ res_data r <> VUndefined.

End Client.

End ApiClient.

(** ** scripts/api-client.js over a store that may hold anything

    [readCache] hands on whatever [JSON.parse] makes of the stored text:
    nothing checks that it is a record of the declared type. [ApiClient]
    above embeds the module for a store that holds what [writeCache]
    wrote. Here [readCache] and [apiFetch] are embedded for a store that
    may hold any text; [attempt] is the one of [ApiClient]. *)

Module AnyRecord.
Import Js ApiClient.

(** A truthy value that [JSON.parse] returned, by the two things the
    code does with it. It reads the property [data], which is
    [undefined] where the value has none. And it evaluates
    [Date.now() - cached.cachedAt < cached.ttl], which converts
    [cachedAt] and [ttl] to numbers: the outcome, at a given time, is
    [true], [false] (so whenever a side is [NaN]), or a [TypeError],
    thrown for an object that carries a property [toString] of its own,
    which in a value parsed from JSON is never a function. *)
Record Cached : Type := mkCached {
  cached_data : value;
  age_test : Z -> Completion bool
}.

(** What [JSON.parse] makes of a text: it throws, or returns a falsy
    value ([null], [false], [0], the empty string), or a truthy one. *)
Inductive ParsedValue : Type :=
| Unparsable (e : JsError)
| Falsy
| Truthy (v : Cached).

(** A record of the declared type [{ data, cachedAt: number, ttl: number }]
    among the values. *)
Definition declared (c : CacheEntry) : Cached :=
  {| cached_data := data c; age_test := fun t => Normal (is_fresh t c) |}.

Definition of_typed (p : Parsed) : ParsedValue :=
  match p with
  | ParseError e => Unparsable e
  | ParsedNull => Falsy
  | ParsedEntry c => Truthy (declared c)
  end.

(** [attempt] reads of [cached] only whether it is truthy and its
    property [data]; it is handed the value as a record with that
    payload. *)
Definition as_entry (v : Cached) : CacheEntry :=
  {| data := cached_data v; cachedAt := 0; ttl := 0 |}.

Section Client.

Variable env : Platform.
Variable JSON_parse_any : string -> ParsedValue.

(** [readCache]. A falsy value is returned as it is; the caller tells it
    from [null] nowhere, so it is [None] here. *)
Definition readCache (key : string) : M (option Cached) :=
  try_catch
    (raw <- getItem env (CACHE_PREFIX +:+ key) ;;
     match raw with
     | None => ret None
     | Some EmptyString => ret None
     | Some s =>
         match JSON_parse_any s with
         | Unparsable e => throw e
         | Falsy => ret None
         | Truthy v => ret (Some v)
         end
     end)
    (fun _ => ret None).

(** [apiFetch]. The test for a fresh entry stands before the first
    [try]: an error thrown by it leaves the function. *)
Definition apiFetch (url : string) (opts : Options) : M FetchResult :=
  let cacheKey := url in
  cached <- readCache cacheKey ;;
  match cached with
  | Some v =>
      t <- Date_now ;;
      fresh <- (fun w => (age_test v t, w)) ;;
      if (fresh : bool)
      then ret {| res_data := cached_data v; res_error := None; res_stale := false |}
      else attempt env url opts (Some (as_entry v)) (maxRetries opts) None
  | None => attempt env url opts None (maxRetries opts) None
  end.

(** The value the store holds for [key], as [readCache] returns it
    (lemma [readCache_stored]). *)
Definition stored (w : World) (key : string) : option Cached :=
  match getItem_error env with
  | Some _ => None
  | None =>
      match sessionStorage w !! (CACHE_PREFIX +:+ key) with
      | None => None
      | Some EmptyString => None
      | Some raw =>
          match JSON_parse_any raw with
          | Truthy v => Some v
          | _ => None
          end
      end
  end.

End Client.

End AnyRecord.

(** ** functions/api/firms.js *)

Module FirmsProxy.
Import Js.

Definition FIRMS_BASE : string := "https://firms.modaps.eosdis.nasa.gov/api/area/csv".
Definition DEFAULT_SOURCE : string := "VIIRS_SNPP_NRT".
Definition DEFAULT_DAYS : string := "1".

(** [s.split(sep)] for a one-character separator. *)
Fixpoint split_on (sep : ascii) (s : string) : list string :=
  match s with
  | EmptyString => [""]
  | String c rest =>
      if Ascii.eqb c sep then "" :: split_on sep rest
      else match split_on sep rest with
           | cur :: more => String c cur :: more
           | [] => [String c ""]
           end
  end.

Fixpoint string_rev_onto (acc s : string) : string :=
  match s with
  | EmptyString => acc
  | String c rest => string_rev_onto (String c acc) rest
  end.

(** [s.trim()]. *)
Definition trim (s : string) : string :=
  string_rev_onto "" (skip_spaces (string_rev_onto "" (skip_spaces s))).

(** [Object.fromEntries]: properties are set in order, a later pair
    replacing an earlier one with the same key. *)
Definition Object_fromEntries (entries : list (string * string)) : gmap string string :=
  foldl (fun obj kv => <[kv.1 := kv.2]> obj) ∅ entries.

(** Parse CSV string into an array of objects; the first row is the
    header. *)
Definition parseCsv (csv : string) : list (gmap string string) :=
  let lines := split_on "010"%char (trim csv) in
  match lines with
  | [] | [_] => []
  | first :: others =>
      let headers := trim <$> split_on ","%char first in
      (fun line =>
         let values := split_on ","%char line in
         Object_fromEntries
           (imap (fun i h => (h, default "" (trim <$> values !! i))) headers))
      <$> others
  end.

(** What the handler reads from its argument: the secret of the
    environment and three look-ups in the query string
    ([url.searchParams.get], [None] for [null]). *)
Record Request : Type := mkRequest {
  FIRMS_API_KEY : option string;
  query_days : option string;
  query_source : option string;
  query_bbox : option string
}.

(** The upstream answer as far as the handler looks at it. *)
Record Upstream : Type := mkUpstream {
  up_ok : bool;
  up_status : Z;
  up_text : Settled string
}.

(** The value handed to [JSON.stringify] for the body: an object with
    the single field [error], or the array of hotspot records.
    [RelayErrorBody refused] is the object whose [error] is
    ["Proxy error: "] followed by the message of the error that
    [new Response] threw when asked for the status [refused]; the words
    of that message are the engine's. *)
Inductive Body : Type :=
| ErrorBody (error : string)
| ArrayBody (rows : list (gmap string string))
| RelayErrorBody (refused : Z).

(** [new Response(JSON.stringify(body), { status, headers })]. *)
Record Response : Type := mkResponse {
  status : Z;
  headers : list (string * string);
  body : Body
}.

(** The statuses for which a response may not carry a body. *)
Definition null_body_status (s : Z) : bool :=
  (s =? 101) || (s =? 103) || (s =? 204) || (s =? 205) || (s =? 304).

(** Whether [new Response(text, { status: s, ... })] returns: the
    constructor throws a [RangeError] for a status outside 200..599 and a
    [TypeError] for a null-body status, the body being a string here. *)
Definition Response_accepts (s : Z) : bool :=
  (200 <=? s) && (s <=? 599) && negb (null_body_status s).

(** [x || fallback] on the result of a look-up: [null] and the empty
    string are falsy. *)
Definition or_default (x : option string) (fallback : string) : string :=
  match x with
  | None | Some EmptyString => fallback
  | Some s => s
  end.

(** [Math.min(10, Math.max(1, parseInt(days, 10) || 1))]: [NaN] and [0]
    are falsy. *)
Definition daysInt (days : string) : Z :=
  let parsed := match parseInt10 days with
                | None | Some 0 => 1
                | Some n => n
                end in
  Z.min 10 (Z.max 1 parsed).

Definition firmsUrl (apiKey : string) (request : Request) : string :=
  let days := or_default (query_days request) DEFAULT_DAYS in
  let source := or_default (query_source request) DEFAULT_SOURCE in
  let bbox := or_default (query_bbox request) "world" in
  FIRMS_BASE +:+ "/" +:+ apiKey +:+ "/" +:+ source +:+ "/" +:+ bbox
  +:+ "/" +:+ Z_to_string (daysInt days).

Definition error_headers : list (string * string) :=
  [("Content-Type", "application/json"); ("Access-Control-Allow-Origin", "*")].

Definition success_headers : list (string * string) :=
  [("Content-Type", "application/json");
   ("Cache-Control", "public, max-age=1800, s-maxage=1800");
   ("Access-Control-Allow-Origin", "*");
   ("X-Robots-Tag", "noindex")].

Definition proxy_error (err : JsError) : Response :=
  {| status := 500; headers := error_headers;
     body := ErrorBody ("Proxy error: " +:+ message err) |}.

(** [onRequestGet]; [fetch_upstream] is the outcome of
    [await fetch(firmsUrl, { cf: ... })] for each target. The [try]
    block covers the call, the reading of the body and the two responses
    built inside it: when the constructor refuses the upstream's status
    the [catch] answers. The statuses 503, 200 and 500 are accepted. *)
Definition onRequestGet (fetch_upstream : string -> Settled Upstream)
    (request : Request) : Response :=
  match FIRMS_API_KEY request with
  | None | Some EmptyString =>
      {| status := 503; headers := error_headers;
         body := ErrorBody "FIRMS_API_KEY environment variable is not configured." |}
  | Some apiKey =>
      match fetch_upstream (firmsUrl apiKey request) with
      | Rejected err => proxy_error err
      | Fulfilled upstream =>
          if negb (up_ok upstream) then
            if Response_accepts (up_status upstream) then
              {| status := up_status upstream; headers := error_headers;
                 body := ErrorBody ("FIRMS upstream error: HTTP "
                                    +:+ Z_to_string (up_status upstream)) |}
            else
              {| status := 500; headers := error_headers;
                 body := RelayErrorBody (up_status upstream) |}
          else
            match up_text upstream with
            | Rejected err => proxy_error err
            | Fulfilled csv =>
                {| status := 200; headers := success_headers;
                   body := ArrayBody (parseCsv csv) |}
            end
      end
  end.

End FirmsProxy.

(** ** Concrete platforms for the scenarios *)

Module Scenario.
Import Js ApiClient.

(** A small codec standing in for JSON on text payloads: the record
    [{data: s, cachedAt: t, ttl: d}] is stored as [t,d,s]. *)
Fixpoint until_comma (s : string) : option (string * string) :=
  match s with
  | EmptyString => None
  | String c rest =>
      if Ascii.eqb c ","%char then Some ("", rest)
      else match until_comma rest with
           | Some (a, b) => Some (String c a, b)
           | None => None
           end
  end.

Definition SyntaxError (msg : string) : JsError :=
  {| name := "SyntaxError"; message := msg |}.

Definition codec_stringify (c : CacheEntry) : string :=
  Z_to_string (cachedAt c) +:+ "," +:+ Z_to_string (ttl c) +:+ "," +:+
  match data c with VStr s => s | _ => "" end.

Definition codec_parse (raw : string) : Parsed :=
  if String.eqb raw "null" then ParsedNull
  else
    match until_comma raw with
    | Some (a, rest) =>
        match until_comma rest with
        | Some (b, payload) =>
            match parseInt10 a, parseInt10 b with
            | Some t, Some d =>
                ParsedEntry {| data := VStr payload; cachedAt := t; ttl := d |}
            | _, _ => ParseError (SyntaxError "Unexpected token")
            end
        | None => ParseError (SyntaxError "Unexpected end of input")
        end
    | None => ParseError (SyntaxError "Unexpected end of input")
    end.

Definition platform_with (net : nat -> string -> NetReply) : Platform :=
  {| JSON_parse := codec_parse;
     JSON_stringify := codec_stringify;
     getItem_error := None;
     setItem_error := fun _ _ _ => None;
     network := net |}.

Definition empty_world : World :=
  {| sessionStorage := ∅; now := 0; fetches := 0; timeline := []; console := [] |}.

(** A session that already holds [{data: "y=2", cachedAt: 0, ttl: 5000}]
    for identity [B], looked at [at_time] milliseconds later. *)
Definition world_with_B (at_time : Z) : World :=
  {| sessionStorage := {[ "dashboard_cache_B" := "0,5000,y=2" ]};
     now := at_time; fetches := 0; timeline := []; console := [] |}.

Definition ok_response (cc : option string) (body : Settled value) : Response :=
  {| ok := true; status := 200; statusText := "OK"; cache_control := cc;
     json := body;
     text := match body with
             | Fulfilled (VStr s) => Fulfilled s
             | Fulfilled _ => Fulfilled ""
             | Rejected e => Rejected e
             end |}.

Definition http_response (code : Z) (reason : string) : Response :=
  {| ok := (200 <=? code) && (code <=? 299); status := code;
     statusText := reason; cache_control := None;
     json := Fulfilled VNull; text := Fulfilled "" |}.

(** Networks: one that never answers in time, one that is down, one that
    always answers with the same response. *)
Definition net_hanging : nat -> string -> NetReply :=
  fun _ _ => {| latency := 60000; settle := Fulfilled (http_response 200 "OK") |}.

Definition net_down : nat -> string -> NetReply :=
  fun _ _ => {| latency := 20;
                settle := Rejected {| name := "TypeError"; message := "Failed to fetch" |} |}.

Definition net_always (r : Response) : nat -> string -> NetReply :=
  fun _ _ => {| latency := 20; settle := Fulfilled r |}.

(** The scenarios of the design document. *)
Definition stale_B : CacheEntry := {| data := VStr "y=2"; cachedAt := 0; ttl := 5000 |}.

Definition env_down : Platform := platform_with net_down.
Definition env_hanging : Platform := platform_with net_hanging.

(** The upstream answers 200 with a body that is not JSON. *)
Definition env_garbled : Platform :=
  platform_with
    (net_always
       (ok_response None
          (Rejected (SyntaxError "Unexpected token < in JSON at position 0")))).

(** The upstream answers 200 with the JSON text [null]. *)
Definition env_null : Platform :=
  platform_with (net_always (ok_response None (Fulfilled VNull))).

(** The upstream answers 200 with [Cache-Control: public, max-age=900]. *)
Definition resp_900 : Response :=
  ok_response (Some "public, max-age=900") (Fulfilled (VStr "hi")).

Definition env_900 : Platform := platform_with (net_always resp_900).

(** A session whose record for identity [B] was cut short. *)
Definition world_corrupt_B : World :=
  {| sessionStorage := {[ "dashboard_cache_B" := "0,50" ]};
     now := 9000; fetches := 0; timeline := []; console := [] |}.

(** A platform whose storage accepts no write. *)
Definition env_full : Platform :=
  {| JSON_parse := codec_parse;
     JSON_stringify := codec_stringify;
     getItem_error := None;
     setItem_error := fun _ _ _ =>
       Some {| name := "QuotaExceededError"; message := "The quota has been exceeded." |};
     network := net_always resp_900 |}.

End Scenario.

Module ProxyScenario.
Import Js FirmsProxy.

Definition LF : string := String "010"%char "".

Definition request_for (key days : option string) : Request :=
  {| FIRMS_API_KEY := key; query_days := days;
     query_source := None; query_bbox := None |}.

Definition hotspots_csv : string :=
  "latitude,longitude,frp" +:+ LF +:+ "41.9,21.4,12.5" +:+ LF.

Definition upstream_ok : string -> Settled Upstream :=
  fun _ => Fulfilled {| up_ok := true; up_status := 200; up_text := Fulfilled hotspots_csv |}.

Definition upstream_forbidden : string -> Settled Upstream :=
  fun _ => Fulfilled {| up_ok := false; up_status := 403; up_text := Fulfilled "Invalid MAP_KEY." |}.

Definition upstream_unreachable : string -> Settled Upstream :=
  fun _ => Rejected {| name := "TypeError"; message := "Network connection lost." |}.

(** The upstream answers [304 Not Modified], without a body. *)
Definition upstream_not_modified : string -> Settled Upstream :=
  fun _ => Fulfilled {| up_ok := false; up_status := 304; up_text := Fulfilled "" |}.

End ProxyScenario.

(** ** Further scenarios for the API client *)

Module MoreScenarios.
Import Js ApiClient Scenario.

(** The first call is answered with [r]; after that the network is
    down. *)
Definition net_once_then_down (r : Response) : nat -> string -> NetReply :=
  fun n url =>
    match n with
    | O => {| latency := 20; settle := Fulfilled r |}
    | S _ => net_down n url
    end.

Definition env_once_900 : Platform := platform_with (net_once_then_down resp_900).

(** The same options with another response format. *)
Definition with_format (opts : Options) (fmt : string) : Options :=
  {| ttlMs := ttlMs opts; timeoutMs := timeoutMs opts;
     maxRetries := maxRetries opts; parse := fmt |}.

Definition text_options : Options :=
  {| ttlMs := 5000; timeoutMs := 10000; maxRetries := 2; parse := "text" |}.

Definition csv_options : Options :=
  {| ttlMs := 5000; timeoutMs := 10000; maxRetries := 2; parse := "csv" |}.

Definition xml_options : Options :=
  {| ttlMs := 5000; timeoutMs := 10000; maxRetries := 2; parse := "xml" |}.

Definition no_retry_at_all : Options :=
  {| ttlMs := 5000; timeoutMs := 10000; maxRetries := -1; parse := "json" |}.

(** The same session as [w], looked at when the clock shows [t]. *)
Definition later_on (w : World) (t : Z) : World :=
  {| sessionStorage := sessionStorage w; now := t; fetches := fetches w;
     timeline := timeline w; console := console w |}.

(** An upstream whose body cannot be read at all. *)
Definition resp_unreadable : Response :=
  {| ok := true; status := 200; statusText := "OK"; cache_control := None;
     json := Rejected (SyntaxError "Unexpected end of JSON input");
     text := Rejected {| name := "TypeError"; message := "body stream already read" |} |}.

End MoreScenarios.

Module StoreScenario.
Import Js ApiClient AnyRecord Scenario.








End StoreScenario.

(** ** Vocabulary for the CSV decoder *)

Module CsvVocabulary.
Import Js FirmsProxy.

Definition LF : ascii := "010"%char.

Fixpoint count_char (c : ascii) (s : string) : nat :=
  match s with
  | EmptyString => O
  | String a rest => (if Ascii.eqb a c then 1 else 0) + count_char c rest
  end.

(** The header names of a CSV text, and the cells of one of its lines. *)
Definition header_names (first : string) : list string :=
  trim <$> split_on ","%char first.

Definition cells (line : string) : list string := split_on ","%char line.

(** A ragged text: a header with untidy spacing, a short line, a blank
    line and a long line. *)
Definition ragged_csv : string :=
  " lat , frp" +:+ String LF "41.9" +:+ String LF "" +:+ String LF "2, 3 ,4".

End CsvVocabulary.

(** ** blocks/api-health/api-health.js *)

Module ApiHealth.
Import Js ApiClient.

(** [s.toLowerCase()] on code units below 256: the letters A to Z and
    the accented capitals from U+00C0 to U+00DE, the multiplication sign
    U+00D7 apart, move up by 32. *)
Definition lower_char (c : ascii) : ascii :=
  let n := nat_of_ascii c in
  if ((65 <=? n)%nat && (n <=? 90)%nat)
     || ((192 <=? n)%nat && (n <=? 222)%nat && negb (n =? 215)%nat)
  then ascii_of_nat (n + 32) else c.

Fixpoint toLowerCase (s : string) : string :=
  match s with
  | EmptyString => EmptyString
  | String c rest => String (lower_char c) (toLowerCase rest)
  end.

(** [d?.name] for a name that is no built-in property of strings, arrays
    or objects: the field of an object, [undefined] on anything else. *)
Fixpoint field_of (fields : list (string * value)) (name : string) : value :=
  match fields with
  | [] => VUndefined
  | (k, v) :: rest => if String.eqb k name then v else field_of rest name
  end.

Definition get_field (d : value) (name : string) : value :=
  match d with
  | VObj fields => field_of fields name
  | _ => VUndefined
  end.

Definition Array_isArray (v : value) : bool :=
  match v with
  | VArr _ => true
  | _ => false
  end.

(** [v != null]. *)
Definition not_nullish (v : value) : bool :=
  match v with
  | VUndefined | VNull => false
  | _ => true
  end.

Record Api : Type := mkApi {
  api_id : string;
  api_name : string;
  api_type : string;
  api_url : string;
  api_parse : string;
  api_validate : option (value -> bool)
}.

Definition APIS : list Api :=
  [ {| api_id := "usgs"; api_name := "USGS Earthquake Feed"; api_type := "External";
       api_url := "https://earthquake.usgs.gov/earthquakes/feed/v1.0/summary/all_day.geojson";
       api_parse := "json";
       api_validate := Some (fun d => Array_isArray (get_field d "features")) |};
    {| api_id := "eonet"; api_name := "NASA EONET Events"; api_type := "External";
       api_url := "https://eonet.gsfc.nasa.gov/api/v3/events?status=open&limit=1";
       api_parse := "json";
       api_validate := Some (fun d => Array_isArray (get_field d "events")) |};
    {| api_id := "openmeteo"; api_name := "Open-Meteo Weather API"; api_type := "External";
       api_url := "https://api.open-meteo.com/v1/forecast?latitude=52.52&longitude=13.41&current_weather=true";
       api_parse := "json";
       api_validate := Some (fun d => not_nullish (get_field d "current_weather")) |} ].

Definition TIMEOUT_MS : Z := 10000.

Definition S_OK : string := "operational".
Definition S_WARN : string := "degraded".
Definition S_DOWN : string := "down".

(** What [probeApi] returns; [statusCode = None] is [statusCode: null],
    [checkedAt] the clock when the probe started. *)
Record ProbeResult : Type := mkProbe {
  probe_id : string;
  probe_status : string;
  statusCode : option Z;
  latencyMs : Z;
  checkedAt : Z;
  probe_message : string
}.

Section Probe.

Variable env : Platform.

(** [data = api.parse === 'json' ? await res.json() : await res.text()]
    inside its own [try]; [None] is the [catch]. *)
Definition probe_body (api : Api) (res : Response) : M (option value) :=
  try_catch
    (d <- (if String.eqb (api_parse api) "json" then await (json res)
           else s <- await (text res) ;; ret (VStr s)) ;;
     ret (Some d))
    (fun _ => ret None).

Definition probeApi (api : Api) : M ProbeResult :=
  start <- Date_now ;;
  let checked := start in
  try_catch
    (res <- fetch_with_deadline env (api_url api) TIMEOUT_MS ;;
     t <- Date_now ;;
     let latency_ms := t - start in
     if negb (ok res) then
       ret {| probe_id := api_id api; probe_status := S_DOWN;
              statusCode := Some (status res); latencyMs := latency_ms;
              checkedAt := checked;
              probe_message := "HTTP " +:+ Z_to_string (status res) +:+ " "
                               +:+ statusText res |}
     else
       body <- probe_body api res ;;
       match body with
       | None =>
           ret {| probe_id := api_id api; probe_status := S_DOWN;
                  statusCode := Some (status res); latencyMs := latency_ms;
                  checkedAt := checked;
                  probe_message := "Failed to parse response" |}
       | Some d =>
           match api_validate api with
           | Some valid =>
               if negb (valid d) then
                 ret {| probe_id := api_id api; probe_status := S_WARN;
                        statusCode := Some (status res); latencyMs := latency_ms;
                        checkedAt := checked;
                        probe_message := "Unexpected response shape" |}
               else
                 ret {| probe_id := api_id api; probe_status := S_OK;
                        statusCode := Some (status res); latencyMs := latency_ms;
                        checkedAt := checked; probe_message := "Operational" |}
           | None =>
               ret {| probe_id := api_id api; probe_status := S_OK;
                      statusCode := Some (status res); latencyMs := latency_ms;
                      checkedAt := checked; probe_message := "Operational" |}
           end
       end)
    (fun err =>
       t <- Date_now ;;
       ret {| probe_id := api_id api; probe_status := S_DOWN; statusCode := None;
              latencyMs := t - start; checkedAt := checked;
              probe_message := if String.eqb (name err) "AbortError"
                               then "Request timed out" else message err |}).

(** The world in which probe number [i] of a round starts: the probes of
    [Promise.all(APIS.map(probeApi))] are started one after the other
    without waiting, so they all read the same clock and each gets the
    network's answer to its own call. *)
Definition probe_start (w : World) (i : nat) : World :=
  {| sessionStorage := sessionStorage w; now := now w;
     fetches := (fetches w + i)%nat; timeline := timeline w; console := console w |}.

(** The results of one round, in the order of [apis]; a probe that threw
    would make the round fail, which is [None]. *)
Fixpoint probe_all (apis : list Api) (w : World) (i : nat) : option (list ProbeResult) :=
  match apis with
  | [] => Some []
  | api :: rest =>
      match fst (probeApi api (probe_start w i)), probe_all rest w (S i) with
      | Normal r, Some rs => Some (r :: rs)
      | _, _ => None
      end
  end.

End Probe.

(** [counts[r.status] = (counts[r.status] ?? 0) + 1], starting from the
    three statuses at zero. *)
Definition tally (results : list ProbeResult) : gmap string Z :=
  foldl (fun counts r =>
           <[probe_status r := default 0 (counts !! probe_status r) + 1]> counts)
        {[ S_OK := 0; S_WARN := 0; S_DOWN := 0 ]} results.

(** The number a stat card shows: [counts[s] ?? 0]. *)
Definition stat (counts : gmap string Z) (s : string) : Z := default 0 (counts !! s).

(** A service card as the filter sees it: [dataset.type] and
    [dataset.status]. *)
Record Card : Type := mkCard {
  card_id : string;
  card_type : string;
  card_status : option string
}.

(** [buildServiceCard] followed by [updateCard]. *)
Definition card_of (api : Api) (r : ProbeResult) : Card :=
  {| card_id := api_id api; card_type := toLowerCase (api_type api);
     card_status := Some (probe_status r) |}.

(** The labels of the filter buttons. *)
Inductive Filter : Type := All | External | Operational | Degraded | Down.

Definition statusForFilter (f : Filter) : option string :=
  match f with
  | Operational => Some S_OK
  | Degraded => Some S_WARN
  | Down => Some S_DOWN
  | All | External => None
  end.

(** [applyFilter]: whether a card is shown ([!card.hidden]). *)
Definition shown (f : Filter) (card : Card) : bool :=
  match f with
  | External => String.eqb (card_type card) "external"
  | _ =>
      match statusForFilter f with
      | Some s =>
          match card_status card with
          | Some cs => String.eqb cs s
          | None => false
          end
      | None => true
      end
  end.

Definition count_shown (f : Filter) (cards : list Card) : Z :=
  Z.of_nat (length (List.filter (shown f) cards)).

(** The cards after a round: [updateCard(cardMap[r.id], r)] for every
    result, the results coming in the order of the registry. *)
Definition cards_after (apis : list Api) (results : list ProbeResult) : list Card :=
  zip_with card_of apis results.

(** Whether the network's answer to a probe is a response that arrived
    before the deadline. *)
Definition arrived (reply : NetReply) : option Response :=
  if TIMEOUT_MS <=? latency reply then None
  else match settle reply with
       | Fulfilled res => Some res
       | Rejected _ => None
       end.

(** The body of a response as the probe decodes it. *)
Definition probe_decode (api : Api) (res : Response) : option value :=
  if String.eqb (api_parse api) "json"
  then match json res with Fulfilled d => Some d | Rejected _ => None end
  else match text res with Fulfilled s => Some (VStr s) | Rejected _ => None end.

Definition known_status (r : ProbeResult) : Prop :=
  probe_status r = S_OK \/ probe_status r = S_WARN \/ probe_status r = S_DOWN.

Definition has_status (s : string) (r : ProbeResult) : bool :=
  String.eqb (probe_status r) s.

Definition passes_validation (api : Api) (d : value) : bool :=
  match api_validate api with
  | Some valid => valid d
  | None => true
  end.

(** The first entry of the registry, for the scenarios. *)
Definition usgs : Api :=
  {| api_id := "usgs"; api_name := "USGS Earthquake Feed"; api_type := "External";
     api_url := "https://earthquake.usgs.gov/earthquakes/feed/v1.0/summary/all_day.geojson";
     api_parse := "json";
     api_validate := Some (fun d => Array_isArray (get_field d "features")) |}.

End ApiHealth.

(** ** The blocks that report to the dashboard *)

(** Magnitudes are fractions; a finite double is a rational number and
    the comparisons the code makes on them are the rational ones. *)
From Stdlib Require Import QArith.
Close Scope Q_scope.
Local Open Scope string_scope.
Local Open Scope Z_scope.
Local Open Scope list_scope.

(** The names every object inherits from [Object.prototype]: reading one
    of them off an object that has no such field of its own yields a
    function (or, for [__proto__], the prototype), never [undefined]. *)
Module JsObject.

Definition Object_prototype_keys : list string :=
  [ "constructor"; "__defineGetter__"; "__defineSetter__"; "hasOwnProperty";
    "__lookupGetter__"; "__lookupSetter__"; "isPrototypeOf";
    "propertyIsEnumerable"; "toString"; "valueOf"; "__proto__";
    "toLocaleString" ].

Definition inherited (key : string) : bool :=
  bool_decide (key ∈ Object_prototype_keys).

(** [el.classList.remove(token)] and [el.classList.add(token)] on the
    list of class tokens of an element. *)
Definition classList_remove (token : string) (classes : list string) : list string :=
  List.filter (fun c => negb (String.eqb c token)) classes.

Definition classList_add (token : string) (classes : list string) : list string :=
  if existsb (String.eqb token) classes then classes else classes ++ [token].

End JsObject.

(** The detail of a [dashboard:dataReady] event:
    [{ source, counts: { critical, warn, ok } | null, error }]. *)
Module DashboardEvents.

Record Counts : Type := mkCounts { critical : Z; warn : Z; ok : Z }.

Record Detail : Type := mkDetail {
  source : string;
  counts : option Counts;
  error : option string
}.

End DashboardEvents.

(** *** blocks/earthquake-feed/earthquake-feed.js *)

Module EarthquakeFeed.
Import DashboardEvents.

(** A feature of the feed as far as the counts look at it:
    [f.properties.mag], a number or [null]. *)
Record Feature : Type := mkFeature { mag : option Q }.

(** Map magnitude to a severity class. *)
Definition severityClass (m : Q) : string :=
  if Qle_bool 5 m then "critical"
  else if Qle_bool (5 # 2) m then "warn"
  else "ok".

(** [acc[cls] = (acc[cls] || 0) + 1] on the accumulator
    [{ critical, warn, ok }]; any other name would add a field that no
    reader looks at. *)
Definition bump (acc : Counts) (cls : string) : Counts :=
  if String.eqb cls "critical"
  then {| critical := critical acc + 1; warn := warn acc; ok := ok acc |}
  else if String.eqb cls "warn"
  then {| critical := critical acc; warn := warn acc + 1; ok := ok acc |}
  else if String.eqb cls "ok"
  then {| critical := critical acc; warn := warn acc; ok := ok acc + 1 |}
  else acc.

(** The [reduce] that computes the severity counts. *)
Definition severity_counts (features : list Feature) : Counts :=
  foldl (fun acc f => bump acc (severityClass (default 0%Q (mag f))))
        {| critical := 0; warn := 0; ok := 0 |} features.

(** What a successful render reports. *)
Definition report (features : list Feature) : Detail :=
  {| source := "earthquakes"; counts := Some (severity_counts features);
     error := None |}.

Definition at_least (bound : Q) (f : Feature) : bool :=
  Qle_bool bound (default 0%Q (mag f)).

End EarthquakeFeed.

(** *** blocks/eonet-events/eonet-events.js *)

Module EonetEvents.
Import Js DashboardEvents JsObject.

(** An event as far as counting and grouping look at it:
    [ev.categories?.[0]?.title], absent when the event has no category. *)
Record Event : Type := mkEvent { event_id : string; category : option string }.

Fixpoint starts_with (prefix s : string) : bool :=
  match prefix, s with
  | EmptyString, _ => true
  | String a p, String b r => Ascii.eqb a b && starts_with p r
  | String _ _, EmptyString => false
  end.

(** [s.includes(sub)]. *)
Fixpoint includes (s sub : string) : bool :=
  starts_with sub s ||
  match s with
  | EmptyString => false
  | String _ rest => includes rest sub
  end.

Definition CRITICAL_CATS : list string :=
  ["wildfires"; "severe storms"; "volcanoes"; "floods"].

(** [CRITICAL_CATS.some((c) => cat.includes(c))] for
    [cat = ev.categories?.[0]?.title?.toLowerCase() ?? '']. *)
Definition is_critical (ev : Event) : bool :=
  let cat := match category ev with
             | Some title => ApiHealth.toLowerCase title
             | None => ""
             end in
  existsb (includes cat) CRITICAL_CATS.

Definition event_counts (events : list Event) : Counts :=
  let n := Z.of_nat (length events) in
  let c := foldl (fun acc ev => if is_critical ev then acc + 1 else acc) 0 events in
  {| critical := c; warn := n - c; ok := 0 |}.

Definition report (events : list Event) : Detail :=
  {| source := "eonet"; counts := Some (event_counts events); error := None |}.

(** Group events by their first category. A category named like a
    property every object inherits is found "present" although no list
    was stored for it, and the [push] on it throws: that is [None]. *)
Definition group_step (groups : option (gmap string (list Event))) (ev : Event)
    : option (gmap string (list Event)) :=
  match groups with
  | None => None
  | Some g =>
      let cat := default "Other" (category ev) in
      match g !! cat with
      | Some members => Some (<[cat := members ++ [ev]]> g)
      | None =>
          if inherited cat then None
          else Some (<[cat := [ev]]> g)
      end
  end.

Definition groupByCategory (events : list Event)
    : option (gmap string (list Event)) :=
  foldl group_step (Some ∅) events.

Definition in_category (cat : string) (ev : Event) : bool :=
  String.eqb (default "Other" (category ev)) cat.

End EonetEvents.

(** *** blocks/status-summary/status-summary.js *)

Module StatusSummary.
Import DashboardEvents JsObject.

(** The text of a pill: the loading line, or a line made of plain
    characters. *)
Inductive PillText : Type :=
| LoadingLine (label : string)
| Line (text : string).

Record Pill : Type := mkPill { classes : list string; text : PillText }.

(** [sources], as pairs of id and label. *)
Definition sources : list (string * string) :=
  [ ("earthquakes", "Earthquakes"); ("eonet", "EONET Events");
    ("firms", "Fire Hotspots") ].

(** [sources.find((s) => s.id === id)?.label ?? id]. *)
Definition label_of (id : string) : string :=
  match List.find (fun s => String.eqb (fst s) id) sources with
  | Some s => snd s
  | None => id
  end.

Definition loading_pill (id : string) : Pill :=
  {| classes := ["summary-pill"; "summary-pill--loading"];
     text := LoadingLine (label_of id) |}.

(** [pillMap] after the placeholder pills are built. *)
Definition initial_pills : gmap string Pill :=
  list_to_map ((fun s => (fst s, loading_pill (fst s))) <$> sources).

Definition clear_modifiers (cl : list string) : list string :=
  classList_remove "summary-pill--error"
    (classList_remove "summary-pill--critical"
       (classList_remove "summary-pill--warn"
          (classList_remove "summary-pill--ok"
             (classList_remove "summary-pill--loading" cl)))).

(** A string is truthy unless it is empty. *)
Definition truthy_text (e : option string) : bool :=
  match e with
  | None | Some EmptyString => false
  | Some _ => true
  end.

(** The listener of [dashboard:dataReady]; [detail = None] is an event
    without detail, the result [None] a [TypeError] thrown by the
    listener, which leaves every pill as it was. *)
Definition onDataReady (detail : option Detail) (pills : gmap string Pill)
    : option (gmap string Pill) :=
  match detail with
  | None => Some pills
  | Some d =>
      if String.eqb (source d) "" then Some pills
      else
        match pills !! source d with
        | None => if inherited (source d) then None else Some pills
        | Some pill =>
            let sourceLabel := label_of (source d) in
            let cleared := clear_modifiers (classes pill) in
            if truthy_text (error d) && negb (bool_decide (is_Some (counts d))) then
              Some (<[source d :=
                      {| classes := classList_add "summary-pill--error" cleared;
                         text := Line (sourceLabel +:+ ": error") |}]> pills)
            else
              let c := default {| critical := 0; warn := 0; ok := 0 |} (counts d) in
              let total := critical c + warn c + ok c in
              if 0 <? critical c then
                Some (<[source d :=
                        {| classes := classList_add "summary-pill--critical" cleared;
                           text := Line (sourceLabel +:+ ": " +:+ Js.Z_to_string (critical c)
                                         +:+ " critical") |}]> pills)
              else if 0 <? warn c then
                Some (<[source d :=
                        {| classes := classList_add "summary-pill--warn" cleared;
                           text := Line (sourceLabel +:+ ": " +:+ Js.Z_to_string (warn c)
                                         +:+ " events") |}]> pills)
              else
                Some (<[source d :=
                        {| classes := classList_add "summary-pill--ok" cleared;
                           text := Line (sourceLabel +:+ ": " +:+ Js.Z_to_string total
                                         +:+ " events") |}]> pills)
        end
  end.

(** The listener of [dashboard:refresh]. *)
Definition onRefresh (pills : gmap string Pill) : gmap string Pill :=
  map_imap (fun id _ => Some (loading_pill id)) pills.

Inductive Event : Type :=
| DataReady (detail : option Detail)
| Refresh.

(** One event delivered to the block; a listener that throws changes
    nothing. *)
Definition deliver (pills : gmap string Pill) (e : Event) : gmap string Pill :=
  match e with
  | DataReady detail => default pills (onDataReady detail pills)
  | Refresh => onRefresh pills
  end.

Definition modifiers : list string :=
  [ "summary-pill--loading"; "summary-pill--ok"; "summary-pill--warn";
    "summary-pill--critical"; "summary-pill--error" ].

(** A pill carries the base class and exactly one modifier. *)
Definition well_formed (pill : Pill) : Prop :=
  exists m, m ∈ modifiers /\ classes pill = ["summary-pill"; m].

(** A pill with one modifier and a line of text. *)
Definition pill_showing (modifier text : string) : Pill :=
  {| classes := ["summary-pill"; "summary-pill--" +:+ modifier]; text := Line text |}.

Definition count_where {A} (p : A -> bool) (l : list A) : Z :=
  Z.of_nat (length (List.filter p l)).

(** What a report with counts makes of a pill. *)
Definition pill_for (label : string) (c : Counts) : Pill :=
  if 0 <? critical c
  then pill_showing "critical"
         (label +:+ ": " +:+ Js.Z_to_string (critical c) +:+ " critical")
  else if 0 <? warn c
  then pill_showing "warn" (label +:+ ": " +:+ Js.Z_to_string (warn c) +:+ " events")
  else pill_showing "ok"
         (label +:+ ": " +:+ Js.Z_to_string (critical c + warn c + ok c) +:+ " events").

(** The three pills are there and each is well formed. *)
Definition in_order (pills : gmap string Pill) : Prop :=
  (forall id, is_Some (pills !! id) <-> id ∈ (fst <$> sources)) /\
  (forall id pill, pills !! id = Some pill -> well_formed pill).

End StatusSummary.

(** *** blocks/dashboard-hero/dashboard-hero.js *)

Module DashboardHero.
Import JsObject.

Definition TOTAL_SOURCES : Z := 3.

(** The text under the title: the two fixed lines, or the time of the
    last report as [toUTCString] prints it. *)
Inductive HeroLine : Type :=
| LoadingData
| Refreshing
| LastUpdated (at_time : Z).

Record Hero : Type := mkHero {
  readyCount : Z;
  statusDot : list string;
  lastUpdated : HeroLine
}.

(** The block as [decorate] leaves it. *)
Definition decorated : Hero :=
  {| readyCount := 0; statusDot := ["hero-status-dot"; "loading"];
     lastUpdated := LoadingData |}.

Definition onDataReady (now : Z) (h : Hero) : Hero :=
  let count := readyCount h + 1 in
  {| readyCount := count;
     statusDot := if TOTAL_SOURCES <=? count
                  then classList_add "ok" (classList_remove "loading" (statusDot h))
                  else statusDot h;
     lastUpdated := LastUpdated now |}.

Definition onRefresh (h : Hero) : Hero :=
  {| readyCount := 0; statusDot := ["hero-status-dot"; "loading"];
     lastUpdated := Refreshing |}.

(** The classes the dot should carry after [count] reports. *)
Definition dot_for (count : Z) : list string :=
  if TOTAL_SOURCES <=? count
  then ["hero-status-dot"; "ok"] else ["hero-status-dot"; "loading"].

Inductive Event : Type :=
| DataReady (now : Z)
| Refresh.

Definition deliver (h : Hero) (e : Event) : Hero :=
  match e with
  | DataReady now => onDataReady now h
  | Refresh => onRefresh h
  end.

(** The reports that came in after the last refresh. *)
Definition reports_since_refresh (events : list Event) : Z :=
  foldl (fun n e => match e with DataReady _ => n + 1 | Refresh => 0 end) 0 events.

End DashboardHero.

(** *** Relative times on the service cards *)

Module RelativeTime.
Import Js.

(** The label [fmtRelative] returns: a dash for a missing date, or a line
    of plain characters. *)
Inductive Label : Type :=
| Dash
| Words (text : string).

(** [Math.round(n / d)] for integers [n] and a positive integer [d]:
    ties go up. *)
Definition round_div (n d : Z) : Z := (2 * n + d) / (2 * d).

Definition plural (n : Z) : string := if n =? 1 then "" else "s".

Definition fmtRelative (now : Z) (date : option Z) : Label :=
  match date with
  | None => Dash
  | Some t =>
      let secs := round_div (now - t) 1000 in
      if secs <? 10 then Words "just now"
      else if secs <? 60 then Words (Z_to_string secs +:+ "s ago")
      else
        let mins := round_div secs 60 in
        if mins <? 60
        then Words (Z_to_string mins +:+ " minute" +:+ plural mins +:+ " ago")
        else
          let hrs := round_div mins 60 in
          Words (Z_to_string hrs +:+ " hour" +:+ plural hrs +:+ " ago")
  end.

End RelativeTime.

(** *** Sample feeds *)

Module Feeds.

(** Four features: magnitudes 6.1, 3, none given, and 5. *)
Definition quakes : list EarthquakeFeed.Feature :=
  [ EarthquakeFeed.mkFeature (Some (61 # 10)%Q); EarthquakeFeed.mkFeature (Some (3 # 1)%Q);
    EarthquakeFeed.mkFeature None; EarthquakeFeed.mkFeature (Some (5 # 1)%Q) ].

(** Three events: a wildfire, sea ice, and one without a category. *)
Definition open_events : list EonetEvents.Event :=
  [ EonetEvents.mkEvent "EONET_1" (Some "Wildfires");
    EonetEvents.mkEvent "EONET_2" (Some "Sea and Lake Ice");
    EonetEvents.mkEvent "EONET_3" None ].

End Feeds.

(** * Properties *)

(** ** Strings *)

Module JsFacts.
Import Js.

Lemma append_empty_l s : "" +:+ s = s.
Proof. reflexivity. Qed.

Lemma append_String c s t : String c s +:+ t = String c (s +:+ t).
Proof. reflexivity. Qed.

Lemma append_assoc s t u : (s +:+ t) +:+ u = s +:+ (t +:+ u).
Proof.
  induction s as [|c s IH]; [reflexivity|].
  rewrite !append_String, IH. reflexivity.
Qed.

End JsFacts.

(** ** The API client *)

Module ApiClientFacts.
Import Js ApiClient JsFacts.

Section Facts.

Variable env : Platform.

(** *** The cache store *)

Lemma readCache_lookup key w :
  readCache env key w = (Normal (cache_lookup env w key), w).
Proof.
  unfold readCache, cache_lookup, try_catch, bind, getItem, JSON_parse_m.
  destruct (getItem_error env); [reflexivity|].
  destruct (sessionStorage w !! _) as [[|c s]|]; try reflexivity.
  destruct (JSON_parse env _); reflexivity.
Qed.

Lemma writeCache_effect key d t w :
  writeCache env key d t w =
    (Normal tt,
     {| sessionStorage :=
          persisted env (sessionStorage w) key
            {| data := d; cachedAt := now w; ttl := t |};
        now := now w; fetches := fetches w;
        timeline := timeline w; console := console w |}).
Proof.
  unfold writeCache, try_catch, bind, Date_now, setItem, persisted, ret.
  destruct (setItem_error env _ _ _); [|reflexivity].
  destruct w; reflexivity.
Qed.

(** *** One pass through [attempt] *)

Lemma backoff_effect opts remaining w :
  backoff opts remaining w =
    (Normal tt,
     if 0 <? remaining
     then {| sessionStorage := sessionStorage w;
             now := now w + 500 * 2 ^ (maxRetries opts - remaining);
             fetches := fetches w;
             timeline := timeline w ++ [ESleep (500 * 2 ^ (maxRetries opts - remaining))];
             console := console w |}
     else w).
Proof. unfold backoff. destruct (0 <? remaining); reflexivity. Qed.

Lemma attempt_body_fails url opts remaining w m :
  verdict_at env url opts w 0 = Fails m ->
  attempt_body env url opts remaining w =
    (Normal (Retry m), snd (backoff opts remaining (after_fetch env url opts w))).
Proof.
  unfold verdict_at, verdict. rewrite Nat.add_0_r.
  unfold attempt_body, try_catch, bind, fetch_with_deadline, after_fetch.
  destruct (timeoutMs opts <=? latency _) eqn:Hdl.
  - intros [= <-]. cbn. rewrite backoff_effect. reflexivity.
  - destruct (settle _) as [r|e]; cbn.
    + destruct (ok r); cbn.
      * unfold read_body, decode.
        destruct (String.eqb (parse opts) "json").
        { destruct (json r); cbn; [discriminate|].
          intros [= <-]. rewrite backoff_effect. reflexivity. }
        destruct (_ || _).
        { destruct (text r); cbn; [discriminate|].
          intros [= <-]. rewrite backoff_effect. reflexivity. }
        discriminate.
      * intros [= <-]. rewrite backoff_effect. reflexivity.
    + intros [= <-]. rewrite backoff_effect. reflexivity.
Qed.

Lemma attempt_body_succeeds url opts remaining w d resp :
  verdict_at env url opts w 0 = Succeeds d resp ->
  attempt_body env url opts remaining w =
    (Normal (Done {| res_data := d; res_error := None; res_stale := false |}),
     snd (writeCache env url d (effective_ttl opts resp) (after_fetch env url opts w))).
Proof.
  unfold verdict_at, verdict. rewrite Nat.add_0_r.
  unfold attempt_body, try_catch, bind, fetch_with_deadline, after_fetch.
  destruct (timeoutMs opts <=? latency _) eqn:Hdl; [discriminate|].
  destruct (settle _) as [r|e]; cbn; [|discriminate].
  destruct (ok r); cbn; [|discriminate].
  unfold read_body, decode.
  destruct (String.eqb (parse opts) "json").
  { destruct (json r); cbn; [|discriminate].
    intros [= <- <-]. rewrite !writeCache_effect. reflexivity. }
  destruct (_ || _).
  { destruct (text r); cbn; [|discriminate].
    intros [= <- <-]. rewrite !writeCache_effect. reflexivity. }
  intros [= <- <-]. cbn. rewrite !writeCache_effect. reflexivity.
Qed.

(** A body that does not decode is one more failure: the pass ends in
    the tail call, after the same back-off as any other failure, carrying
    the message of the error the decoder raised. *)
Lemma decode_failure_retries url opts remaining w r e :
  (timeoutMs opts <=? latency (network env (fetches w) url)) = false ->
  settle (network env (fetches w) url) = Fulfilled r ->
  ok r = true ->
  decode opts r = Rejected e ->
  attempt_body env url opts remaining w =
    (Normal (Retry (error_text e)), next_start env url opts remaining w).
Proof.
  intros Hdl Hr Hok Hdec. apply attempt_body_fails.
  unfold verdict_at, verdict. rewrite Nat.add_0_r, Hdl, Hr, Hok, Hdec.
  reflexivity.
Qed.

Lemma next_start_storage url opts remaining w :
  sessionStorage (next_start env url opts remaining w) = sessionStorage w.
Proof.
  unfold next_start. rewrite backoff_effect.
  destruct (0 <? remaining); reflexivity.
Qed.

Lemma next_start_fetches url opts remaining w :
  fetches (next_start env url opts remaining w) = S (fetches w).
Proof.
  unfold next_start. rewrite backoff_effect.
  destruct (0 <? remaining); reflexivity.
Qed.

Lemma next_start_timeline url opts remaining w :
  timeline (next_start env url opts remaining w) =
    timeline w ++ EFetch url ::
      (if 0 <? remaining
       then [ESleep (500 * 2 ^ (maxRetries opts - remaining))] else []).
Proof.
  unfold next_start. rewrite backoff_effect.
  destruct (0 <? remaining); cbn; [|reflexivity].
  rewrite <- app_assoc. reflexivity.
Qed.

Lemma verdict_at_shift url opts w w1 j :
  fetches w1 = S (fetches w) ->
  verdict_at env url opts w1 j = verdict_at env url opts w (S j).
Proof.
  unfold verdict_at. intros ->. do 2 f_equal. lia.
Qed.

Lemma fall_back_effect url cached last w :
  exists w',
    fall_back url cached last w = (Normal (fallback_result cached last), w') /\
    sessionStorage w' = sessionStorage w /\
    timeline w' = timeline w /\
    fetches w' = fetches w.
Proof.
  unfold fall_back, fallback_result.
  destruct cached as [c|]; eexists; (split; [reflexivity|]); cbn; auto.
Qed.

(** *** The retry loop *)

Lemma attempt_rec_run url opts cached passes :
  forall remaining last w,
    passes = 0%nat \/ remaining = Z.of_nat passes - 1 ->
    exists r w',
      attempt_rec env url opts cached passes remaining last w = (Normal r, w') /\
      Run env url opts cached passes (maxRetries opts - remaining) last w r w'.
Proof.
  induction passes as [|p IH]; intros remaining last w Hrem.
  - destruct (fall_back_effect url cached last w) as (w' & Hg & Hs & Ht & Hf).
    exists (fallback_result cached last), w'. split.
    + cbn. destruct (remaining <? 0); exact Hg.
    + apply RunExhausted; cbn; auto.
      * intros j Hj. lia.
      * rewrite app_nil_r. exact Ht.
      * lia.
  - destruct Hrem as [Hrem|Hrem]; [discriminate|].
    assert (Hneg : (remaining <? 0) = false) by lia.
    cbn [attempt_rec]. rewrite Hneg. unfold bind.
    destruct (verdict_at env url opts w 0) as [m|d resp] eqn:Hv.
    + rewrite (attempt_body_fails _ _ remaining _ _ Hv).
      fold (next_start env url opts remaining w).
      set (w1 := next_start env url opts remaining w).
      destruct (IH (remaining - 1) (Some m) w1) as (r & w' & Hrun & HR).
      { right. lia. }
      exists r, w'. split; [exact Hrun|].
      assert (Hf1 : fetches w1 = S (fetches w)) by apply next_start_fetches.
      assert (Hs1 : sessionStorage w1 = sessionStorage w) by apply next_start_storage.
      assert (Ht1 := next_start_timeline url opts remaining w). fold w1 in Ht1.
      replace (maxRetries opts - (remaining - 1))
        with (maxRetries opts - remaining + 1) in HR by lia.
      destruct HR as [Hall Hr Hs Ht Hf | k d resp Hk Hbefore Hok Hr Hs Ht Hf].
      * apply RunExhausted.
        -- intros [|j] Hj; [eauto|].
           rewrite <- (verdict_at_shift url opts w w1 j Hf1). apply Hall. lia.
        -- rewrite Hr. f_equal. destruct p as [|p']; cbn.
           ++ rewrite Hv. reflexivity.
           ++ rewrite (verdict_at_shift url opts w w1 p' Hf1). reflexivity.
        -- congruence.
        -- rewrite Ht, Ht1, <- app_assoc. f_equal.
           destruct p as [|p']; cbn.
           ++ replace (0 <? remaining) with false by lia. reflexivity.
           ++ replace (0 <? remaining) with true by lia. reflexivity.
        -- lia.
      * apply (RunSuccess env url opts cached (S p) _ last w r w' (S k) d resp).
        -- lia.
        -- intros [|j] Hj; [eauto|].
           rewrite <- (verdict_at_shift url opts w w1 j Hf1). apply Hbefore. lia.
        -- rewrite <- (verdict_at_shift url opts w w1 k Hf1). exact Hok.
        -- exact Hr.
        -- rewrite Hs, Hs1. reflexivity.
        -- rewrite Ht, Ht1, <- app_assoc. f_equal. cbn.
           replace (0 <? remaining) with true by lia. reflexivity.
        -- lia.
    + rewrite (attempt_body_succeeds _ _ remaining _ _ _ Hv).
      rewrite writeCache_effect. cbn [snd].
      eexists _, _. split; [reflexivity|].
      apply (RunSuccess env url opts cached (S p) _ last w _ _ 0%nat d resp); cbn; auto.
      * lia.
      * intros j Hj. lia.
      * lia.
Qed.

(** [attempt] satisfies the equation its source text reads as. *)
Lemma attempt_unfold url opts cached remaining last :
  attempt env url opts cached remaining last =
    if remaining <? 0 then fall_back url cached last
    else
      bind (attempt_body env url opts remaining)
        (fun step =>
           match step with
           | Done r => ret r
           | Retry err => attempt env url opts cached (remaining - 1) (Some err)
           end).
Proof.
  unfold attempt. destruct (remaining <? 0) eqn:Hneg.
  - destruct (Z.to_nat (remaining + 1)); cbn [attempt_rec]; rewrite Hneg; reflexivity.
  - replace (Z.to_nat (remaining + 1)) with (S (Z.to_nat (remaining - 1 + 1))) by lia.
    cbn [attempt_rec]. rewrite Hneg. reflexivity.
Qed.

Lemma attempt_run url opts cached w :
  exists r w',
    attempt env url opts cached (maxRetries opts) None w = (Normal r, w') /\
    Run env url opts cached (Z.to_nat (maxRetries opts + 1)) 0 None w r w'.
Proof.
  unfold attempt.
  destruct (attempt_rec_run url opts cached (Z.to_nat (maxRetries opts + 1))
              (maxRetries opts) None w) as (r & w' & Hrun & HR).
  { destruct (Z.to_nat (maxRetries opts + 1)) eqn:Hn; [left; reflexivity|right; lia]. }
  exists r, w'. split; [exact Hrun|].
  replace (maxRetries opts - maxRetries opts) with 0 in HR by lia. exact HR.
Qed.

(** *** The whole call *)

Lemma apiFetch_run url opts w :
  exists r w',
    apiFetch env url opts w = (Normal r, w') /\ Call env url opts w r w'.
Proof.
  unfold apiFetch, bind. rewrite readCache_lookup. cbn.
  destruct (cache_lookup env w url) as [c|] eqn:Hc.
  - destruct (is_fresh (now w) c) eqn:Hfresh.
    + eexists _, _. split; [reflexivity|].
      apply (CallFresh env url opts w _ _ c); auto.
      unfold fresh_entry. rewrite Hc, Hfresh. reflexivity.
    + destruct (attempt_run url opts (Some c) w) as (r & w' & Hrun & HR).
      exists r, w'. split; [exact Hrun|].
      apply CallAttempts.
      * unfold fresh_entry. rewrite Hc, Hfresh. reflexivity.
      * rewrite Hc. exact HR.
  - destruct (attempt_run url opts None w) as (r & w' & Hrun & HR).
    exists r, w'. split; [exact Hrun|].
    apply CallAttempts.
    + unfold fresh_entry. rewrite Hc. reflexivity.
    + rewrite Hc. exact HR.
Qed.

(** A run that saw only failures did not see a success, and the first
    success of a run is determined by the verdicts. *)
Lemma exhausted_no_success url opts w k d resp :
  exhausted env url opts w ->
  (k < Z.to_nat (maxRetries opts + 1))%nat ->
  verdict_at env url opts w k = Succeeds d resp ->
  False.
Proof.
  intros [_ Hall] Hk Hok.
  destruct (Hall k) as [m Hm]; [lia|]. congruence.
Qed.

Lemma first_success_unique url opts w k k' d d' resp resp' :
  (forall j, (j < k)%nat -> exists m, verdict_at env url opts w j = Fails m) ->
  verdict_at env url opts w k = Succeeds d resp ->
  (forall j, (j < k')%nat -> exists m, verdict_at env url opts w j = Fails m) ->
  verdict_at env url opts w k' = Succeeds d' resp' ->
  k = k' /\ d = d' /\ resp = resp'.
Proof.
  intros Hb Hs Hb' Hs'.
  assert (k = k') as <-.
  { destruct (Nat.lt_trichotomy k k') as [Hlt|[Heq|Hgt]]; [|exact Heq|].
    - destruct (Hb' k Hlt) as [m Hm]. congruence.
    - destruct (Hb k' Hgt) as [m Hm]. congruence. }
  split; [reflexivity|]. split; congruence.
Qed.

(** *** Statements of the design document *)

Lemma fresh_hit url opts w c :
  fresh_entry env w url = Some c ->
  apiFetch env url opts w =
    (Normal {| res_data := data c; res_error := None; res_stale := false |}, w).
Proof.
  intros Hfresh.
  destruct (apiFetch_run url opts w) as (r & w' & Hrun & Hcall).
  destruct Hcall as [c' Hc' Hr Hw | Hnone _]; [|congruence].
  rewrite Hrun, Hr, Hw. congruence.
Qed.

(** After a success whose write the store accepted, a later call in the
    same session and within the chosen TTL is served from the cache,
    provided the codec reads back what it wrote. *)
Lemma refetch_within_ttl url opts opts' w k d resp w2 :
  fresh_entry env w url = None ->
  Z.of_nat k <= maxRetries opts ->
  (forall j, (j < k)%nat -> exists m, verdict_at env url opts w j = Fails m) ->
  verdict_at env url opts w k = Succeeds d resp ->
  let w1 := snd (apiFetch env url opts w) in
  let entry := {| data := d; cachedAt := now w1; ttl := effective_ttl opts resp |} in
  getItem_error env = None ->
  setItem_error env (sessionStorage w) (CACHE_PREFIX +:+ url)
    (JSON_stringify env entry) = None ->
  JSON_stringify env entry <> "" ->
  JSON_parse env (JSON_stringify env entry) = ParsedEntry entry ->
  sessionStorage w2 = sessionStorage w1 ->
  now w2 - now w1 < effective_ttl opts resp ->
  apiFetch env url opts' w2 =
    (Normal {| res_data := d; res_error := None; res_stale := false |}, w2).
Proof.
  intros Hnone Hk Hbefore Hok w1 entry Hread Hwrite Hne Hback Hsame Hwithin.
  destruct (apiFetch_run url opts w) as (r & w' & Hrun & Hcall).
  assert (Hw1 : w1 = w') by (unfold w1; rewrite Hrun; reflexivity).
  destruct Hcall as [c Hfresh _ _ | _ HR]; [congruence|].
  destruct HR as [Hall _ _ _ _ | k' d' resp' Hk' Hbefore' Hok' _ Hs _ _].
  { destruct (Hall k) as [m Hm]; [lia|]. congruence. }
  destruct (first_success_unique url opts w k k' d d' resp resp'
              Hbefore Hok Hbefore' Hok') as (_ & <- & <-).
  rewrite <- Hw1 in Hs. fold entry in Hs.
  unfold persisted in Hs. rewrite Hwrite in Hs.
  apply (fresh_hit url opts' w2 entry).
  unfold fresh_entry, cache_lookup.
  rewrite Hread, Hsame, Hs, lookup_insert_eq.
  destruct (JSON_stringify env entry) eqn:Hraw; [contradiction|].
  rewrite Hback. unfold is_fresh. cbn [cachedAt ttl entry].
  replace (now w2 - now w1 <? effective_ttl opts resp) with true by lia.
  reflexivity.
Qed.

(** C2. When the cache holds an entry for the identity that is fresh at
    call time ([now - storedAt < ttl]), [apiFetch] returns
    [{data: payload, error: null, stale: false}] at once: the world is
    left as it was, so no network call is issued, nothing waits and
    nothing is written. *)
Theorem fresh_hit_returns_cached url opts w c :
  cache_lookup env w url = Some c ->
  now w - cachedAt c < ttl c ->
  apiFetch env url opts w =
    (Normal {| res_data := data c; res_error := None; res_stale := false |}, w).
Proof.
  intros Hc Hfresh.
  unfold apiFetch, bind. rewrite readCache_lookup. cbn. rewrite Hc.
  unfold is_fresh. replace (now w - cachedAt c <? ttl c) with true by lia.
  reflexivity.
Qed.

(** C1. With [maxRetries >= 0], no fresh entry and every one of the
    [maxRetries + 1] attempts failing, the call returns the cached payload
    with the last failure's message and [stale: true] if the cache holds
    an entry (necessarily an expired one), and
    [{data: null, error: last message, stale: false}] if it holds none. *)
Theorem all_attempts_failed_result url opts w :
  0 <= maxRetries opts ->
  exhausted env url opts w ->
  exists m w',
    verdict_at env url opts w (Z.to_nat (maxRetries opts)) = Fails m /\
    apiFetch env url opts w =
      (Normal
         match cache_lookup env w url with
         | Some c => {| res_data := data c; res_error := Some m; res_stale := true |}
         | None => {| res_data := VNull; res_error := Some m; res_stale := false |}
         end, w').
Proof.
  intros Hmax Hex.
  destruct (apiFetch_run url opts w) as (r & w' & Hrun & Hcall).
  destruct (proj2 Hex (Z.to_nat (maxRetries opts))) as [m Hm]; [lia|].
  exists m, w'. split; [exact Hm|]. rewrite Hrun. f_equal.
  destruct Hcall as [c Hfresh _ _ | _ HR].
  - destruct Hex as [Hnone _]. congruence.
  - destruct HR as [_ Hr _ _ _ | k d resp Hk _ Hok _ _ _ _].
    + rewrite Hr. unfold fallback_result, final_error.
      replace (Z.to_nat (maxRetries opts + 1)) with (S (Z.to_nat (maxRetries opts))) by lia.
      rewrite Hm. reflexivity.
    + destruct (exhausted_no_success _ _ _ _ _ _ Hex Hk Hok).
Qed.

(** C8. The cache is written only when an attempt succeeds: a call that
    ends on a fresh hit, or whose attempts all fail, leaves the store as
    it found it, for every key. *)
Theorem cache_written_only_on_success url opts w :
  is_Some (fresh_entry env w url) \/ exhausted env url opts w ->
  sessionStorage (snd (apiFetch env url opts w)) = sessionStorage w.
Proof.
  intros Hcase.
  destruct (apiFetch_run url opts w) as (r & w' & Hrun & Hcall).
  rewrite Hrun. cbn.
  destruct Hcall as [c Hfresh _ Hw | Hnone HR].
  - rewrite Hw. reflexivity.
  - destruct HR as [_ _ Hs _ _ | k d resp Hk _ Hok _ _ _ _]; [exact Hs|].
    destruct Hcase as [[c Hc]|Hex]; [congruence|].
    destruct (exhausted_no_success _ _ _ _ _ _ Hex Hk Hok).
Qed.

(** Over a store that holds records of the declared type, no outcome of
    the network makes [apiFetch] throw: every call completes normally with
    a [FetchResult]. [readCache] always completes normally and leaves the
    world alone; it answers [null] when storage cannot be read or the
    stored text does not parse. [writeCache] always completes normally,
    and a write that the store refuses changes nothing. *)
Theorem never_throws :
  (forall url opts w, exists r w', apiFetch env url opts w = (Normal r, w')) /\
  (forall key w, exists c, readCache env key w = (Normal c, w)) /\
  (forall key w e, getItem_error env = Some e ->
     readCache env key w = (Normal None, w)) /\
  (forall key w raw e,
     sessionStorage w !! (CACHE_PREFIX +:+ key) = Some raw ->
     JSON_parse env raw = ParseError e ->
     readCache env key w = (Normal None, w)) /\
  (forall key d t w, exists w', writeCache env key d t w = (Normal tt, w')) /\
  (forall key d t w e,
     setItem_error env (sessionStorage w) (CACHE_PREFIX +:+ key)
       (JSON_stringify env {| data := d; cachedAt := now w; ttl := t |}) = Some e ->
     writeCache env key d t w = (Normal tt, w)).
Proof.
  repeat split.
  - intros url opts w.
    destruct (apiFetch_run url opts w) as (r & w' & Hrun & _). eauto.
  - intros key w. rewrite readCache_lookup. eauto.
  - intros key w e He. rewrite readCache_lookup. unfold cache_lookup.
    rewrite He. reflexivity.
  - intros key w raw e Hraw He. rewrite readCache_lookup. unfold cache_lookup.
    rewrite Hraw, He. destruct (getItem_error env); destruct raw; reflexivity.
  - intros key d t w. rewrite writeCache_effect. eauto.
  - intros key d t w e He. rewrite writeCache_effect. unfold persisted.
    rewrite He. destruct w; reflexivity.
Qed.

(** *** The shape of the timeline *)

Lemma waits_schedule url n :
  forall i,
    waits (schedule url i n) =
      (fun j : nat => 500 * 2 ^ (i + Z.of_nat j)) <$> seq 0 (n - 1).
Proof.
  induction n as [|n IH]; intros i; [reflexivity|].
  destruct n as [|n]; [reflexivity|].
  change (waits (schedule url i (S (S n))))
    with (500 * 2 ^ i :: waits (schedule url (i + 1) (S n))).
  rewrite IH.
  replace (S (S n) - 1)%nat with (S (S n - 1)) by lia.
  cbn [seq fmap list_fmap]. f_equal.
  - do 2 f_equal. lia.
  - rewrite <- fmap_S_seq, <- list_fmap_compose.
    apply list_fmap_ext. intros _ j _. cbn. do 2 f_equal. lia.
Qed.

Lemma calls_schedule url n :
  forall i, calls (schedule url i n) = replicate n url.
Proof.
  induction n as [|n IH]; intros i; [reflexivity|].
  destruct n as [|n]; [reflexivity|].
  change (calls (schedule url i (S (S n))))
    with (url :: calls (schedule url (i + 1) (S n))).
  rewrite IH. reflexivity.
Qed.

Lemma schedule_ends_with_call url n :
  forall i ms, last (schedule url i n) <> Some (ESleep ms).
Proof.
  induction n as [|n IH]; intros i ms; [discriminate|].
  destruct n as [|n]; [discriminate|].
  change (schedule url i (S (S n)))
    with (EFetch url :: ESleep (500 * 2 ^ i) :: schedule url (i + 1) (S n)).
  specialize (IH (i + 1) ms).
  destruct (schedule url (i + 1) (S n)) as [|e l] eqn:Hs; [discriminate|].
  exact IH.
Qed.

Lemma waits_lookup url n j :
  waits (schedule url 0 n) !! j =
    if decide (j < n - 1)%nat then Some (500 * 2 ^ Z.of_nat j) else None.
Proof.
  rewrite waits_schedule, list_lookup_fmap.
  destruct (decide (j < n - 1)%nat) as [Hlt|Hge].
  - rewrite lookup_seq_lt by exact Hlt. reflexivity.
  - rewrite lookup_seq_ge by lia. reflexivity.
Qed.

Lemma waits_nondecreasing url n j k a b :
  (j <= k)%nat ->
  waits (schedule url 0 n) !! j = Some a ->
  waits (schedule url 0 n) !! k = Some b ->
  a <= b.
Proof.
  rewrite !waits_lookup. intros Hjk.
  destruct (decide _); [|discriminate]. destruct (decide _); [|discriminate].
  intros [= <-] [= <-].
  apply Z.mul_le_mono_nonneg_l; [lia|].
  apply Z.pow_le_mono_r; lia.
Qed.

(** The number of network calls of a call, with its timeline. *)
Lemma apiFetch_timeline url opts w :
  exists r w' n,
    apiFetch env url opts w = (Normal r, w') /\
    (n <= Z.to_nat (maxRetries opts + 1))%nat /\
    timeline w' = timeline w ++ schedule url 0 n /\
    (exhausted env url opts w ->
     n = Z.to_nat (maxRetries opts + 1) /\
     res_error r =
       final_error env url opts w (Z.to_nat (maxRetries opts + 1)) None).
Proof.
  destruct (apiFetch_run url opts w) as (r & w' & Hrun & Hcall).
  destruct Hcall as [c Hfresh _ Hw | Hnone HR].
  - exists r, w', 0%nat.
    split; [exact Hrun|]. split; [lia|]. split.
    + rewrite Hw, app_nil_r. reflexivity.
    + intros [Hex _]. congruence.
  - destruct HR as [_ Hr _ Ht _ | k d resp Hk _ Hok _ _ Ht _].
    + exists r, w', (Z.to_nat (maxRetries opts + 1)).
      split; [exact Hrun|]. split; [lia|]. split; [exact Ht|].
      intros _. split; [reflexivity|].
      rewrite Hr. unfold fallback_result.
      destruct (cache_lookup env w url); reflexivity.
    + exists r, w', (S k).
      split; [exact Hrun|]. split; [lia|]. split; [exact Ht|].
      intros Hex. destruct (exhausted_no_success _ _ _ _ _ _ Hex Hk Hok).
Qed.

Lemma timeouts_exhaust url opts w :
  fresh_entry env w url = None ->
  (forall i : nat, timeoutMs opts <= latency (network env (fetches w + i) url)) ->
  exhausted env url opts w /\
  forall i, verdict_at env url opts w i = Fails "Request timed out".
Proof.
  intros Hnone Hslow.
  assert (Hv : forall i, verdict_at env url opts w i = Fails "Request timed out").
  { intros i. unfold verdict_at, verdict.
    replace (timeoutMs opts <=? _) with true; [reflexivity|].
    symmetry. apply Z.leb_le. apply Hslow. }
  split; [|exact Hv]. split; [exact Hnone|]. intros i _. eauto.
Qed.

(** C3. With [maxRetries >= 0] a call issues at most [maxRetries + 1]
    network calls, all [maxRetries + 1] of them when every attempt fails,
    and the timeline it adds is those calls with one wait between each two
    successive ones and none after the last: the wait after attempt [i] is
    [500 * 2 ^ i] ms, so the waits never decrease. With [maxRetries = 2]
    and every attempt timing out the timeline is call, 500 ms, call,
    1000 ms, call. *)
Theorem backoff_delays url opts w :
  0 <= maxRetries opts ->
  exists r w' n,
    apiFetch env url opts w = (Normal r, w') /\
    Z.of_nat n <= maxRetries opts + 1 /\
    timeline w' = timeline w ++ schedule url 0 n /\
    calls (schedule url 0 n) = replicate n url /\
    waits (schedule url 0 n) =
      (fun i : nat => 500 * 2 ^ Z.of_nat i) <$> seq 0 (n - 1) /\
    (forall j k a b, (j <= k)%nat ->
       waits (schedule url 0 n) !! j = Some a ->
       waits (schedule url 0 n) !! k = Some b -> a <= b) /\
    (forall ms, last (schedule url 0 n) <> Some (ESleep ms)) /\
    (exhausted env url opts w -> Z.of_nat n = maxRetries opts + 1) /\
    (maxRetries opts = 2 ->
     fresh_entry env w url = None ->
     (forall i : nat, timeoutMs opts <= latency (network env (fetches w + i) url)) ->
     res_error r = Some "Request timed out" /\
     timeline w' =
       timeline w ++ [EFetch url; ESleep 500; EFetch url; ESleep 1000; EFetch url]).
Proof.
  intros Hmax.
  destruct (apiFetch_timeline url opts w) as (r & w' & n & Hrun & Hn & Ht & Hex).
  exists r, w', n.
  split; [exact Hrun|]. split; [lia|]. split; [exact Ht|].
  split; [apply calls_schedule|].
  split; [rewrite waits_schedule; reflexivity|].
  split; [intros j k a b; apply waits_nondecreasing|].
  split; [intros ms; apply schedule_ends_with_call|].
  split.
  - intros H. destruct (Hex H) as [-> _]. lia.
  - intros H2 Hnone Hslow.
    destruct (timeouts_exhaust url opts w Hnone Hslow) as [Hexh Hv].
    destruct (Hex Hexh) as [Hn3 He]. rewrite H2 in Hn3, He.
    change (Z.to_nat (2 + 1)) with 3%nat in Hn3, He.
    split.
    + rewrite He. cbn. rewrite Hv. reflexivity.
    + rewrite Ht, Hn3. reflexivity.
Qed.

(** *** The invariant of the result *)

Lemma one_of_three r :
  exactly_one (data_present r /\ res_stale r = false)
              (data_present r /\ res_stale r = true)
              (data_absent r).
Proof.
  unfold exactly_one, data_present, data_absent.
  destruct (res_data r), (res_stale r); intuition discriminate.
Qed.

(** C6, as the code has it. After every call exactly one of "data
    present, not stale", "data present, stale" and "data absent" holds.
    With [maxRetries >= 0], [error] is set exactly when no fresh entry was
    served and every attempt failed, hence whenever the result is stale
    and whenever data is absent for want of both a live response and a
    cached entry. On a fresh hit or a successful attempt [error] is null,
    also when the payload delivered there is itself null or undefined:
    data is absent with an empty error only in that way. *)
Theorem result_invariant url opts w :
  exists r w',
    apiFetch env url opts w = (Normal r, w') /\
    exactly_one (data_present r /\ res_stale r = false)
                (data_present r /\ res_stale r = true)
                (data_absent r) /\
    (0 <= maxRetries opts ->
     (is_Some (res_error r) <-> exhausted env url opts w) /\
     (res_stale r = true -> is_Some (res_error r)) /\
     (exhausted env url opts w -> cache_lookup env w url = None ->
      data_absent r /\ is_Some (res_error r)) /\
     (data_absent r ->
      is_Some (res_error r) \/
      (exists c, fresh_entry env w url = Some c /\ data c = res_data r) \/
      (exists k d resp,
         Z.of_nat k <= maxRetries opts /\
         verdict_at env url opts w k = Succeeds d resp /\ d = res_data r))).
Proof.
  destruct (apiFetch_run url opts w) as (r & w' & Hrun & Hcall).
  exists r, w'. split; [exact Hrun|]. split; [apply one_of_three|].
  intros Hmax.
  assert (Hpasses : Z.to_nat (maxRetries opts + 1) = S (Z.to_nat (maxRetries opts)))
    by lia.
  destruct Hcall as [c Hfresh Hr _ | Hnone HR].
  - assert (Hnot : ~ exhausted env url opts w).
    { intros [Hex _]. congruence. }
    rewrite Hr. cbn. split; [split|split; [|split]].
    + intros [m Hm]. discriminate.
    + intros Hex. destruct (Hnot Hex).
    + discriminate.
    + intros Hex. destruct (Hnot Hex).
    + intros _. right. left. exists c. split; [exact Hfresh|reflexivity].
  - destruct HR as [Hall Hr _ _ _ | k d resp Hk _ Hok Hr _ _ _].
    + assert (Hexh : exhausted env url opts w).
      { split; [exact Hnone|]. intros i Hi. apply Hall. lia. }
      assert (Herr : is_Some (res_error r)).
      { rewrite Hr. unfold final_error. rewrite Hpasses.
        destruct (Hall (Z.to_nat (maxRetries opts))) as [m Hm]; [lia|].
        rewrite Hm. destruct (cache_lookup env w url); cbn; eauto. }
      split; [split; auto|]. split; [auto|]. split; [|auto].
      intros _ Hc. split; [|exact Herr].
      rewrite Hr, Hc. left. reflexivity.
    + assert (Hnot : ~ exhausted env url opts w).
      { intros Hex. exact (exhausted_no_success _ _ _ _ _ _ Hex Hk Hok). }
      rewrite Hr. cbn. split; [split|split; [|split]].
      * intros [m Hm]. discriminate.
      * intros Hex. destruct (Hnot Hex).
      * discriminate.
      * intros Hex. destruct (Hnot Hex).
      * intros _. right. right. exists k, d, resp.
        split; [lia|]. split; [exact Hok|reflexivity].
Qed.

End Facts.

(** *** The max-age directive *)

Lemma digit_not_space c : is_digit c = true -> is_space c = false.
Proof.
  unfold is_digit, is_space. intros H.
  apply andb_true_iff in H as [H1 H2].
  apply Nat.leb_le in H1. apply Nat.leb_le in H2.
  apply orb_false_iff. split; [apply orb_false_iff; split|].
  - apply andb_false_iff. right. apply Nat.leb_gt. lia.
  - apply Nat.eqb_neq. lia.
  - apply Nat.eqb_neq. lia.
Qed.

Lemma take_digits_app ds rest :
  all_digits ds = true ->
  starts_with_digit rest = false ->
  take_digits (ds +:+ rest) = ds.
Proof.
  intros Hds Hrest. induction ds as [|c ds IH].
  - rewrite append_empty_l. destruct rest as [|c r]; [reflexivity|].
    cbn [starts_with_digit] in Hrest. cbn [take_digits]. rewrite Hrest. reflexivity.
  - cbn [all_digits] in Hds. apply andb_true_iff in Hds as [Hc Hds].
    rewrite append_String. cbn [take_digits]. rewrite Hc, (IH Hds). reflexivity.
Qed.

Lemma take_digits_all ds : all_digits ds = true -> take_digits ds = ds.
Proof.
  intros Hds. induction ds as [|c ds IH]; [reflexivity|].
  cbn [all_digits] in Hds. apply andb_true_iff in Hds as [Hc Hds].
  cbn [take_digits]. rewrite Hc, (IH Hds). reflexivity.
Qed.

Lemma strip_prefix_app p s : strip_prefix p (p +:+ s) = Some s.
Proof.
  induction p as [|c p IH]; [destruct s; reflexivity|].
  rewrite append_String. cbn [strip_prefix].
  rewrite Ascii.eqb_refl. exact IH.
Qed.

Lemma match_here_directive ds rest :
  all_digits ds = true ->
  ds <> "" ->
  starts_with_digit rest = false ->
  match_here ("max-age=" +:+ ds +:+ rest) = Some ds.
Proof.
  intros Hds Hne Hrest. unfold match_here.
  rewrite strip_prefix_app, (take_digits_app _ _ Hds Hrest).
  destruct ds; [contradiction|reflexivity].
Qed.

(** The leftmost position at which the pattern matches decides. *)
Lemma match_max_age_leftmost pre suf ds :
  match_here suf = Some ds ->
  (forall a b, pre = a +:+ b -> b <> "" -> match_here (b +:+ suf) = None) ->
  match_max_age (pre +:+ suf) = Some ds.
Proof.
  intros Hhere. induction pre as [|c pre IH]; intros Hearlier.
  - rewrite append_empty_l. destruct suf as [|c suf]; [discriminate|].
    cbn [match_max_age]. rewrite Hhere. reflexivity.
  - rewrite append_String. cbn [match_max_age]. rewrite <- append_String.
    rewrite (Hearlier "" (String c pre)); [|reflexivity|discriminate].
    apply IH. intros a b -> Hb.
    apply (Hearlier (String c a) b); [reflexivity|exact Hb].
Qed.

Lemma match_max_age_nowhere cc :
  (forall a b, cc = a +:+ b -> match_here b = None) ->
  match_max_age cc = None.
Proof.
  induction cc as [|c cc IH]; intros Hnone; [reflexivity|].
  cbn [match_max_age]. rewrite (Hnone "" (String c cc) eq_refl).
  apply IH. intros a b ->. apply (Hnone (String c a) b). reflexivity.
Qed.

Lemma parseInt10_digits ds :
  all_digits ds = true ->
  ds <> "" ->
  parseInt10 ds = Some (digits_value_from 0 ds).
Proof.
  intros Hds Hne. destruct ds as [|c ds]; [contradiction|].
  pose proof Hds as Hall. cbn [all_digits] in Hds.
  apply andb_true_iff in Hds as [Hc Hds].
  unfold parseInt10. cbn [skip_spaces]. rewrite (digit_not_space c Hc).
  assert (Hsign :
    match String c ds with
    | String "-"%char rest => (-1, rest)
    | String "+"%char rest => (1, rest)
    | _ => (1, String c ds)
    end = (1, String c ds)).
  { destruct c as [[] [] [] [] [] [] [] []]; try reflexivity; discriminate Hc. }
  rewrite Hsign, (take_digits_all _ Hall).
  rewrite Z.mul_1_l. reflexivity.
Qed.

Lemma max_age_found (resp : Response) pre ds rest :
  cache_control resp = Some (pre +:+ "max-age=" +:+ ds +:+ rest) ->
  all_digits ds = true ->
  ds <> "" ->
  starts_with_digit rest = false ->
  (forall a b, pre = a +:+ b -> b <> "" ->
     match_here (b +:+ "max-age=" +:+ ds +:+ rest) = None) ->
  parseCacheControlMaxAge resp = Some (digits_value_from 0 ds * 1000).
Proof.
  intros Hcc Hds Hne Hrest Hearlier. unfold parseCacheControlMaxAge.
  rewrite Hcc. cbn [from_option]. unfold id.
  rewrite (match_max_age_leftmost pre _ ds
             (match_here_directive ds rest Hds Hne Hrest) Hearlier).
  rewrite (parseInt10_digits ds Hds Hne). reflexivity.
Qed.

Lemma max_age_missing (resp : Response) :
  (cache_control resp = None \/
   exists cc, cache_control resp = Some cc /\
              forall a b, cc = a +:+ b -> match_here b = None) ->
  parseCacheControlMaxAge resp = None.
Proof.
  unfold parseCacheControlMaxAge.
  intros [->|(cc & -> & Hnone)]; cbn [from_option]; unfold id; [reflexivity|].
  rewrite (match_max_age_nowhere cc Hnone). reflexivity.
Qed.

Section Ttl.

Variable env : Platform.

(** C4. When attempt [k] is the first to succeed, with payload [d] and
    response [resp], the call returns [d] and the record it hands to the
    store is [{data: d, cachedAt: time of the write, ttl}], where [ttl] is
    1000 times the number of the leftmost [max-age=<digits>] in the
    response's cache-control header and [options.ttlMs] when the header is
    missing or has no such directive. In particular [max-age=900] gives
    900000 ms whatever the caller asked for. The directive's number is
    taken to be one whose product with 1000 a double holds exactly: at
    most 9007199254740 seconds. *)
Theorem success_stores_effective_ttl url opts w k d resp :
  fresh_entry env w url = None ->
  Z.of_nat k <= maxRetries opts ->
  (forall j, (j < k)%nat -> exists m, verdict_at env url opts w j = Fails m) ->
  verdict_at env url opts w k = Succeeds d resp ->
  exact_max_age resp = true ->
  exists w',
    apiFetch env url opts w =
      (Normal {| res_data := d; res_error := None; res_stale := false |}, w') /\
    sessionStorage w' =
      persisted env (sessionStorage w) url
        {| data := d; cachedAt := now w'; ttl := effective_ttl opts resp |} /\
    (forall pre ds rest,
       cache_control resp = Some (pre +:+ "max-age=" +:+ ds +:+ rest) ->
       all_digits ds = true -> ds <> "" -> starts_with_digit rest = false ->
       (forall a b, pre = a +:+ b -> b <> "" ->
          match_here (b +:+ "max-age=" +:+ ds +:+ rest) = None) ->
       effective_ttl opts resp = digits_value_from 0 ds * 1000 /\
       digits_value_from 0 ds <= 9007199254740) /\
    ((cache_control resp = None \/
      exists cc, cache_control resp = Some cc /\
                 forall a b, cc = a +:+ b -> match_here b = None) ->
     effective_ttl opts resp = ttlMs opts) /\
    (cache_control resp = Some "max-age=900" ->
     effective_ttl opts resp = 900000).
Proof.
  intros Hnone Hk Hbefore Hok Hexact.
  destruct (apiFetch_run env url opts w) as (r & w' & Hrun & Hcall).
  exists w'.
  destruct Hcall as [c Hfresh _ _ | _ HR]; [congruence|].
  destruct HR as [Hall _ _ _ _ | k' d' resp' Hk' Hbefore' Hok' Hr Hs _ _].
  - destruct (Hall k) as [m Hm]; [lia|]. congruence.
  - destruct (first_success_unique env url opts w k k' d d' resp resp'
                Hbefore Hok Hbefore' Hok') as (_ & <- & <-).
    split; [rewrite Hrun, Hr; reflexivity|]. split; [exact Hs|].
    split; [|split].
    + intros pre ds rest Hcc Hds Hne Hrest Hearlier. unfold effective_ttl.
      unfold exact_max_age in Hexact.
      rewrite (max_age_found resp pre ds rest Hcc Hds Hne Hrest Hearlier) in *.
      split; [reflexivity|]. unfold MAX_SAFE_INTEGER in Hexact. lia.
    + intros Hmissing. unfold effective_ttl.
      rewrite (max_age_missing resp Hmissing). reflexivity.
    + intros Hcc. unfold effective_ttl, parseCacheControlMaxAge.
      rewrite Hcc. reflexivity.
Qed.

End Ttl.

(** *** The scenarios *)

Import Scenario.

Ltac all_verdicts_fail :=
  split; [vm_compute; reflexivity | intros i _; eexists; reflexivity].

Example max_age_examples :
  match_max_age "public, max-age=900" = Some "900" /\
  match_max_age "s-maxage=60, max-age=0" = Some "0" /\
  match_max_age "no-store" = None /\
  match_max_age "max-age=, max-age=30x" = Some "30" /\
  match_max_age "Max-Age=900" = None.
Proof. repeat split. Qed.

(** Identity [A] is fetched at time 0 with [ttlMs = 5000] and answered
    after 20 ms; the store then holds the payload until 5020. *)
Example first_fetch_of_A :
  let opts := {| ttlMs := 5000; timeoutMs := 10000; maxRetries := 2; parse := "text" |} in
  let env := platform_with (net_always (ok_response None (Fulfilled (VStr "x=1")))) in
  apiFetch env "A" opts empty_world =
    (Normal {| res_data := VStr "x=1"; res_error := None; res_stale := false |},
     {| sessionStorage := {[ "dashboard_cache_A" := "20,5000,x=1" ]};
        now := 20; fetches := 1; timeline := [EFetch "A"]; console := [] |}).
Proof. vm_compute. reflexivity. Qed.

(** Asked again at time 2000 in the same session, the client answers
    from the store and the network is not called. *)
Example second_fetch_of_A :
  let opts := {| ttlMs := 5000; timeoutMs := 10000; maxRetries := 2; parse := "text" |} in
  let env := platform_with (net_always (ok_response None (Fulfilled (VStr "x=1")))) in
  let later := {| sessionStorage := sessionStorage (snd (apiFetch env "A" opts empty_world));
                  now := 2000; fetches := 1; timeline := [EFetch "A"]; console := [] |} in
  apiFetch env "A" opts later =
    (Normal {| res_data := VStr "x=1"; res_error := None; res_stale := false |}, later).
Proof. vm_compute. reflexivity. Qed.

Lemma fresh_hit_at_2000 :
  cache_lookup env_down (world_with_B 2000) "B" = Some stale_B /\
  apiFetch env_down "B" default_options (world_with_B 2000) =
    (Normal {| res_data := VStr "y=2"; res_error := None; res_stale := false |},
     world_with_B 2000).
Proof.
  split; [vm_compute; reflexivity|].
  apply (fresh_hit_returns_cached env_down "B" default_options
           (world_with_B 2000) stale_B).
  - vm_compute. reflexivity.
  - vm_compute. first [reflexivity | discriminate].
Defined.

Lemma stale_fallback_at_9000 :
  exists m w',
    verdict_at env_down "B" default_options (world_with_B 9000) 2 = Fails m /\
    apiFetch env_down "B" default_options (world_with_B 9000) =
      (Normal {| res_data := VStr "y=2"; res_error := Some m; res_stale := true |}, w').
Proof.
  apply (all_attempts_failed_result env_down "B" default_options (world_with_B 9000)).
  - vm_compute. first [reflexivity | discriminate].
  - all_verdicts_fail.
Defined.

Lemma three_timeouts :
  exists r w',
    apiFetch env_hanging "C" default_options empty_world = (Normal r, w') /\
    res_error r = Some "Request timed out" /\
    timeline w' = [EFetch "C"; ESleep 500; EFetch "C"; ESleep 1000; EFetch "C"].
Proof.
  destruct (backoff_delays env_hanging "C" default_options empty_world)
    as (r & w' & n & Hrun & _ & _ & _ & _ & _ & _ & _ & Hscenario).
  { vm_compute. discriminate. }
  destruct Hscenario as [Herr Ht].
  - reflexivity.
  - vm_compute. reflexivity.
  - intros i. apply Z.leb_le. reflexivity.
  - exists r, w'. split; [exact Hrun|]. split; [exact Herr|exact Ht].
Defined.

Lemma max_age_900_stored :
  exists w',
    apiFetch env_900 "A" default_options empty_world =
      (Normal {| res_data := VStr "hi"; res_error := None; res_stale := false |}, w') /\
    sessionStorage w' =
      persisted env_900 (sessionStorage empty_world) "A"
        {| data := VStr "hi"; cachedAt := now w'; ttl := 900000 |}.
Proof.
  destruct (success_stores_effective_ttl env_900 "A" default_options empty_world
              0%nat (VStr "hi") resp_900)
    as (w' & Hrun & Hs & Hfound & _ & _).
  - vm_compute. reflexivity.
  - vm_compute. first [reflexivity | discriminate].
  - intros j Hj. lia.
  - reflexivity.
  - reflexivity.
  - assert (Httl : effective_ttl default_options resp_900 =
                     digits_value_from 0 "900" * 1000).
    { apply (Hfound "public, " "900" "").
      + reflexivity.
      + reflexivity.
      + discriminate.
      + reflexivity.
      + intros a b Hab Hb.
        repeat (destruct a as [|? a];
                [rewrite append_empty_l in Hab; subst b; reflexivity
                |rewrite append_String in Hab;
                 injection Hab as Hc Hab; clear Hc]).
        destruct a; [|rewrite append_String in Hab; discriminate Hab].
        rewrite append_empty_l in Hab. subst b. contradiction. }
    exists w'. split; [exact Hrun|]. rewrite Hs, Httl. reflexivity.
Defined.

Lemma stale_result_invariant :
  exists r w',
    apiFetch env_down "B" default_options (world_with_B 9000) = (Normal r, w') /\
    is_Some (res_error r).
Proof.
  destruct (result_invariant env_down "B" default_options (world_with_B 9000))
    as (r & w' & Hrun & _ & Hset).
  destruct Hset as (Herr & _).
  { vm_compute. discriminate. }
  exists r, w'. split; [exact Hrun|].
  apply Herr. all_verdicts_fail.
Defined.

Lemma corrupt_record_and_full_store :
  readCache env_down "B" world_corrupt_B = (Normal None, world_corrupt_B) /\
  writeCache env_full "A" (VStr "hi") 900000 empty_world = (Normal tt, empty_world).
Proof.
  destruct (never_throws env_down) as (_ & _ & _ & Hcorrupt & _).
  destruct (never_throws env_full) as (_ & _ & _ & _ & _ & Hfull).
  split.
  - apply (Hcorrupt "B" world_corrupt_B "0,50" (SyntaxError "Unexpected end of input")).
    + vm_compute. reflexivity.
    + reflexivity.
  - eapply Hfull. reflexivity.
Defined.

Lemma failed_call_keeps_store :
  sessionStorage (snd (apiFetch env_down "B" default_options (world_with_B 9000))) =
  sessionStorage (world_with_B 9000).
Proof.
  apply (cache_written_only_on_success env_down "B" default_options (world_with_B 9000)).
  right. all_verdicts_fail.
Defined.

(** C6, as stated, fails: a 200 response whose body is the JSON text
    [null] is a success, so the call returns
    [{data: null, error: null, stale: false}]: data is absent and error
    is empty. *)
Lemma null_payload_without_error :
  exists w',
    apiFetch env_null "A" default_options empty_world =
      (Normal {| res_data := VNull; res_error := None; res_stale := false |}, w') /\
    ~ (data_absent {| res_data := VNull; res_error := None; res_stale := false |} ->
       is_Some (res_error {| res_data := VNull; res_error := None; res_stale := false |})).
Proof.
  eexists. split; [vm_compute; reflexivity|].
  intros H. destruct H as [m Hm]; [left; reflexivity|discriminate].
Qed.

(** C5, at a response with status 200 whose body is not JSON: every
    attempt is counted as a failure and followed by the usual back-off,
    and the call returns normally, but the message it reports is the one
    the decoder raised, not "Failed to parse response". *)
Theorem decode_failure_reports_decoder_message :
  exists w',
    apiFetch env_garbled "A" default_options empty_world =
      (Normal {| res_data := VNull;
                 res_error := Some "Unexpected token < in JSON at position 0";
                 res_stale := false |}, w') /\
    timeline w' = [EFetch "A"; ESleep 500; EFetch "A"; ESleep 1000; EFetch "A"] /\
    verdict_at env_garbled "A" default_options empty_world 0 <>
      Fails "Failed to parse response".
Proof.
  eexists. split; [vm_compute; reflexivity|].
  split; [reflexivity|]. vm_compute. discriminate.
Qed.

End ApiClientFacts.

(** ** The API client over a store that may hold anything *)

Module AnyRecordFacts.
Import Js ApiClient AnyRecord ApiClientFacts.

Section AnyStore.

Variable env : Platform.
Variable JSON_parse_any : string -> ParsedValue.

Lemma readCache_stored key w :
  AnyRecord.readCache env JSON_parse_any key w =
    (Normal (stored env JSON_parse_any w key), w).
Proof.
  unfold AnyRecord.readCache, stored, try_catch, bind, getItem.
  destruct (getItem_error env); [reflexivity|].
  destruct (sessionStorage w !! (CACHE_PREFIX +:+ key)) as [[|c raw]|]; try reflexivity.
  destruct (JSON_parse_any (String c raw)); reflexivity.
Qed.

(** [attempt] reads of the cached record only its payload. *)
Lemma fall_back_reads_data url (c1 c2 : option CacheEntry) last w :
  data <$> c1 = data <$> c2 ->
  fall_back url c1 last w = fall_back url c2 last w.
Proof.
  destruct c1 as [c1|], c2 as [c2|]; cbn; intros H; try discriminate H; [|reflexivity].
  injection H as H. unfold fall_back. rewrite H. reflexivity.
Qed.

Lemma attempt_rec_reads_data url opts (c1 c2 : option CacheEntry) :
  data <$> c1 = data <$> c2 ->
  forall passes remaining last w,
    attempt_rec env url opts c1 passes remaining last w =
    attempt_rec env url opts c2 passes remaining last w.
Proof.
  intros H. induction passes as [|passes IH]; intros remaining last w;
    cbn [attempt_rec]; destruct (remaining <? 0);
    try (apply fall_back_reads_data; exact H).
  unfold bind. destruct (attempt_body env url opts remaining w) as [[[r|err]|e] w1];
    [reflexivity|apply IH|reflexivity].
Qed.

Lemma attempt_reads_data url opts (c1 c2 : option CacheEntry) remaining last w :
  data <$> c1 = data <$> c2 ->
  attempt env url opts c1 remaining last w = attempt env url opts c2 remaining last w.
Proof. intros H. unfold attempt. apply attempt_rec_reads_data. exact H. Qed.

(** How a call ends, by what the store holds. *)
Lemma apiFetch_cases url opts w :
  match stored env JSON_parse_any w url with
  | Some v =>
      match age_test v (now w) with
      | Throw e => AnyRecord.apiFetch env JSON_parse_any url opts w = (Throw e, w)
      | Normal true =>
          AnyRecord.apiFetch env JSON_parse_any url opts w =
            (Normal {| res_data := cached_data v; res_error := None;
                       res_stale := false |}, w)
      | Normal false =>
          AnyRecord.apiFetch env JSON_parse_any url opts w =
            attempt env url opts (Some (as_entry v)) (maxRetries opts) None w
      end
  | None =>
      AnyRecord.apiFetch env JSON_parse_any url opts w =
        attempt env url opts None (maxRetries opts) None w
  end.
Proof.
  unfold AnyRecord.apiFetch, bind. rewrite readCache_stored.
  destruct (stored env JSON_parse_any w url) as [v|]; [|reflexivity].
  unfold Date_now. destruct (age_test v (now w)) as [[|]|e]; reflexivity.
Qed.

(** On a store that holds nothing but records of the declared type the
    two embeddings of [apiFetch] agree. *)
Lemma agrees_on_declared_records :
  (forall raw, JSON_parse_any raw = of_typed (JSON_parse env raw)) ->
  forall url opts w,
    AnyRecord.apiFetch env JSON_parse_any url opts w = ApiClient.apiFetch env url opts w.
Proof.
  intros Hparse url opts w.
  pose proof (apiFetch_cases url opts w) as Hany.
  assert (Hstored : stored env JSON_parse_any w url =
                    declared <$> cache_lookup env w url).
  { unfold stored, cache_lookup.
    destruct (getItem_error env); [reflexivity|].
    destruct (sessionStorage w !! (CACHE_PREFIX +:+ url)) as [[|c raw]|]; try reflexivity.
    rewrite Hparse. destruct (JSON_parse env (String c raw)); reflexivity. }
  rewrite Hstored in Hany.
  unfold ApiClient.apiFetch, bind. rewrite readCache_lookup. unfold Date_now.
  destruct (cache_lookup env w url) as [c|]; cbn in Hany; [|exact Hany].
  destruct (is_fresh (now w) c); [exact Hany|].
  rewrite Hany. apply attempt_reads_data. reflexivity.
Qed.


End AnyStore.

(** *** The scenarios *)

Import Scenario StoreScenario.



End AnyRecordFacts.

(** ** The FIRMS proxy *)

Module FirmsProxyFacts.
Import Js FirmsProxy JsFacts.

Lemma daysInt_range days : 1 <= daysInt days <= 10.
Proof. unfold daysInt. lia. Qed.

Lemma daysInt_nan days : parseInt10 days = None -> daysInt days = 1.
Proof. unfold daysInt. intros ->. reflexivity. Qed.

Lemma daysInt_number days n :
  parseInt10 days = Some n ->
  (n < 1 -> daysInt days = 1) /\
  (10 < n -> daysInt days = 10) /\
  (1 <= n <= 10 -> daysInt days = n).
Proof.
  unfold daysInt. intros ->.
  destruct n as [|n|n]; repeat split; intros; lia.
Qed.

Lemma or_default_some (s fallback : string) :
  s <> "" -> or_default (Some s) fallback = s.
Proof. destruct s; [contradiction|reflexivity]. Qed.

Lemma configured_key request apiKey :
  FIRMS_API_KEY request = Some apiKey ->
  apiKey <> "" ->
  forall fetch_upstream,
    onRequestGet fetch_upstream request =
      match fetch_upstream (firmsUrl apiKey request) with
      | Rejected err => proxy_error err
      | Fulfilled upstream =>
          if negb (up_ok upstream) then
            if Response_accepts (up_status upstream) then
              {| status := up_status upstream; headers := error_headers;
                 body := ErrorBody ("FIRMS upstream error: HTTP "
                                    +:+ Z_to_string (up_status upstream)) |}
            else
              {| status := 500; headers := error_headers;
                 body := RelayErrorBody (up_status upstream) |}
          else
            match up_text upstream with
            | Rejected err => proxy_error err
            | Fulfilled csv =>
                {| status := 200; headers := success_headers;
                   body := ArrayBody (parseCsv csv) |}
            end
      end.
Proof.
  intros Hkey Hne fetch_upstream. unfold onRequestGet. rewrite Hkey.
  destruct apiKey; [contradiction|reflexivity].
Qed.

(** C10. Whatever the query string says about [days], the last segment
    of the URL the handler requests upstream is the decimal form of an
    integer between 1 and 10: 1 when the parameter is missing, empty or
    not a number, 1 when the number is below 1, 10 when it is above 10,
    and the number itself otherwise. The handler asks the network about
    that URL only. *)
Theorem days_segment_clamped apiKey request :
  exists d prefix,
    firmsUrl apiKey request = prefix +:+ "/" +:+ Z_to_string d /\
    1 <= d <= 10 /\
    (query_days request = None -> d = 1) /\
    (forall s, query_days request = Some s -> parseInt10 s = None -> d = 1) /\
    (forall s n, query_days request = Some s -> parseInt10 s = Some n ->
       (n < 1 -> d = 1) /\ (10 < n -> d = 10) /\ (1 <= n <= 10 -> d = n)) /\
    (forall f g,
       FIRMS_API_KEY request = Some apiKey -> apiKey <> "" ->
       f (firmsUrl apiKey request) = g (firmsUrl apiKey request) ->
       onRequestGet f request = onRequestGet g request).
Proof.
  exists (daysInt (or_default (query_days request) DEFAULT_DAYS)).
  exists (FIRMS_BASE +:+ "/" +:+ apiKey +:+ "/"
          +:+ or_default (query_source request) DEFAULT_SOURCE +:+ "/"
          +:+ or_default (query_bbox request) "world").
  split; [|split; [|split; [|split; [|split]]]].
  - unfold firmsUrl. cbv zeta.
    rewrite !append_assoc. reflexivity.
  - apply daysInt_range.
  - intros ->. reflexivity.
  - intros s -> Hnan. destruct s as [|c s]; [reflexivity|].
    rewrite or_default_some by discriminate. apply daysInt_nan. exact Hnan.
  - intros s n -> Hn. destruct s as [|c s]; [discriminate Hn|].
    rewrite or_default_some by discriminate. apply daysInt_number. exact Hn.
  - intros f g Hkey Hne Hfg.
    rewrite !(configured_key request apiKey Hkey Hne), Hfg. reflexivity.
Qed.

(** *** The scenarios *)

Import ProxyScenario.

Example hotspots_decoded :
  parseCsv hotspots_csv =
    [ {[ "latitude" := "41.9"; "longitude" := "21.4"; "frp" := "12.5" ]} ].
Proof. vm_compute. reflexivity. Qed.

Example ragged_rows_decoded :
  parseCsv (" a , b" +:+ LF +:+ "1" +:+ LF +:+ "2, 3 ,4") =
    [ {[ "a" := "1"; "b" := "" ]}; {[ "a" := "2"; "b" := "3" ]} ].
Proof. vm_compute. reflexivity. Qed.

Example header_only_is_empty : parseCsv ("a,b" +:+ LF) = [].
Proof. reflexivity. Qed.

Example days_examples :
  daysInt "7" = 7 /\ daysInt "0" = 1 /\ daysInt "-3" = 1 /\
  daysInt "12abc" = 10 /\ daysInt "abc" = 1 /\ daysInt " 3.9" = 3.
Proof. repeat split. Qed.

Lemma days_99_becomes_10 :
  exists d prefix,
    firmsUrl "KEY" (request_for (Some "KEY") (Some "99")) =
      prefix +:+ "/" +:+ Z_to_string d /\ d = 10.
Proof.
  destruct (days_segment_clamped "KEY" (request_for (Some "KEY") (Some "99")))
    as (d & prefix & Hurl & _ & _ & _ & Hnum & _).
  exists d, prefix. split; [exact Hurl|].
  destruct (Hnum "99" 99) as (_ & Hhigh & _); [reflexivity|reflexivity|].
  apply Hhigh. vm_compute. reflexivity.
Defined.

End FirmsProxyFacts.

(** ** More about the API client *)

Module ApiClientMore.
Import Js ApiClient JsFacts ApiClientFacts Scenario MoreScenarios.

Section More.

Variable env : Platform.

Lemma append_inj_l p s t : p +:+ s = p +:+ t -> s = t.
Proof.
  induction p as [|c p IH]; [intros H; exact H|].
  rewrite !append_String. intros [= H]. exact (IH H).
Qed.

Lemma cache_key_inj key key' :
  key <> key' -> CACHE_PREFIX +:+ key <> CACHE_PREFIX +:+ key'.
Proof. intros Hne Heq. apply Hne. exact (append_inj_l _ _ _ Heq). Qed.

Lemma cache_lookup_storage w1 w2 key :
  sessionStorage w1 !! (CACHE_PREFIX +:+ key) = sessionStorage w2 !! (CACHE_PREFIX +:+ key) ->
  cache_lookup env w1 key = cache_lookup env w2 key.
Proof. unfold cache_lookup. intros ->. reflexivity. Qed.

Lemma persisted_other store key key' entry :
  key <> key' ->
  persisted env store key entry !! (CACHE_PREFIX +:+ key') = store !! (CACHE_PREFIX +:+ key').
Proof.
  intros Hne. unfold persisted.
  destruct (setItem_error env _ _ _); [reflexivity|].
  apply lookup_insert_ne. apply cache_key_inj. exact Hne.
Qed.

Lemma exhausted_result url opts w :
  0 <= maxRetries opts ->
  exhausted env url opts w ->
  exists m w',
    verdict_at env url opts w (Z.to_nat (maxRetries opts)) = Fails m /\
    apiFetch env url opts w =
      (Normal (fallback_result (cache_lookup env w url) (Some m)), w').
Proof.
  intros Hmax Hex.
  destruct (apiFetch_run env url opts w) as (r & w' & Hrun & Hcall).
  destruct (proj2 Hex (Z.to_nat (maxRetries opts))) as [m Hm]; [lia|].
  exists m, w'. split; [exact Hm|]. rewrite Hrun. f_equal.
  destruct Hcall as [c Hfresh _ _ | _ HR].
  - destruct Hex as [Hnone _]. congruence.
  - destruct HR as [_ Hr _ _ _ | k d resp Hk _ Hok _ _ _ _].
    + rewrite Hr. unfold final_error.
      replace (Z.to_nat (maxRetries opts + 1)) with (S (Z.to_nat (maxRetries opts))) by lia.
      rewrite Hm. reflexivity.
    + destruct (exhausted_no_success env _ _ _ _ _ _ Hex Hk Hok).
Qed.

(** X1. With [maxRetries >= 0] the network is left alone exactly when a
    fresh entry is served. An entry whose age has reached its TTL
    ([now - cachedAt = ttl] included) always costs at least one network
    call. *)
Theorem network_spared_iff_fresh url opts w :
  0 <= maxRetries opts ->
  (fetches (snd (apiFetch env url opts w)) = fetches w <->
   is_Some (fresh_entry env w url)) /\
  (forall c, cache_lookup env w url = Some c ->
     ttl c <= now w - cachedAt c ->
     (fetches w < fetches (snd (apiFetch env url opts w)))%nat).
Proof.
  intros Hmax.
  destruct (apiFetch_run env url opts w) as (r & w' & Hrun & Hcall).
  rewrite Hrun. cbn [snd].
  assert (Hgrow : fresh_entry env w url = None -> (fetches w < fetches w')%nat).
  { intros Hnone. destruct Hcall as [c Hfresh _ _ | _ HR]; [congruence|].
    destruct HR as [_ _ _ _ Hf | k d resp _ _ _ _ _ _ Hf]; lia. }
  split; [split|].
  - intros Hsame. destruct (fresh_entry env w url) eqn:Hf; [eauto|].
    specialize (Hgrow eq_refl). lia.
  - intros [c Hc]. destruct Hcall as [c' _ _ Hw | Hnone _]; [|congruence].
    rewrite Hw. reflexivity.
  - intros c Hc Hold. apply Hgrow. unfold fresh_entry, is_fresh. rewrite Hc.
    replace (now w - cachedAt c <? ttl c) with false by lia. reflexivity.
Qed.

(** X2. With a negative [maxRetries] and no fresh entry the call makes
    no attempt at all: it returns at once with [error: null], the cached
    payload marked stale if there is one and [data: null] otherwise, and
    the network, the timeline and the store are untouched. *)
Theorem negative_retries_make_no_attempt url opts w :
  maxRetries opts < 0 ->
  fresh_entry env w url = None ->
  exists w',
    apiFetch env url opts w =
      (Normal (fallback_result (cache_lookup env w url) None), w') /\
    fetches w' = fetches w /\
    timeline w' = timeline w /\
    sessionStorage w' = sessionStorage w.
Proof.
  intros Hneg Hnone.
  destruct (apiFetch_run env url opts w) as (r & w' & Hrun & Hcall).
  exists w'.
  destruct Hcall as [c Hfresh _ _ | _ HR]; [congruence|].
  replace (Z.to_nat (maxRetries opts + 1)) with 0%nat in HR by lia.
  destruct HR as [_ Hr Hs Ht Hf | k d resp Hk _ _ _ _ _ _]; [|lia].
  rewrite Hrun, Hr. cbn [final_error schedule] in *.
  rewrite app_nil_r in Ht. rewrite Nat.add_0_r in Hf. auto.
Qed.

(** X3. The only key of the store a call may write is
    [dashboard_cache_<url>]: every other key, with or without the prefix,
    holds after the call the very text it held before, so what the cache
    holds for another identity is unchanged. *)
Theorem other_identities_untouched url opts w :
  let w' := snd (apiFetch env url opts w) in
  (forall k, k <> CACHE_PREFIX +:+ url ->
     sessionStorage w' !! k = sessionStorage w !! k) /\
  (forall url', url <> url' ->
     sessionStorage w' !! (CACHE_PREFIX +:+ url') =
       sessionStorage w !! (CACHE_PREFIX +:+ url') /\
     cache_lookup env w' url' = cache_lookup env w url').
Proof.
  destruct (apiFetch_run env url opts w) as (r & w' & Hrun & Hcall).
  rewrite Hrun. cbn [snd].
  assert (Hkeys : forall k, k <> CACHE_PREFIX +:+ url ->
                    sessionStorage w' !! k = sessionStorage w !! k).
  { intros k Hk.
    destruct Hcall as [c _ _ Hw | _ HR]; [rewrite Hw; reflexivity|].
    destruct HR as [_ _ Hs _ _ | j d resp _ _ _ _ Hs _ _]; rewrite Hs; [reflexivity|].
    unfold persisted. destruct (setItem_error env _ _ _); [reflexivity|].
    apply lookup_insert_ne. intros Heq. apply Hk. symmetry. exact Heq. }
  split; [exact Hkeys|].
  intros url' Hne.
  assert (Hsame : sessionStorage w' !! (CACHE_PREFIX +:+ url') =
                  sessionStorage w !! (CACHE_PREFIX +:+ url')).
  { apply Hkeys. intros Heq. apply (cache_key_inj url url' Hne). symmetry. exact Heq. }
  split; [exact Hsame|]. apply cache_lookup_storage. exact Hsame.
Qed.

(** X4. What [writeCache] stored, [readCache] returns: after a write the
    store accepted, with a codec that reads back what it wrote, the entry
    read under the same key is the payload with the time of the write and
    the TTL given, whatever the store held under that key before. *)
Theorem write_then_read key d t w :
  let entry := {| data := d; cachedAt := now w; ttl := t |} in
  getItem_error env = None ->
  setItem_error env (sessionStorage w) (CACHE_PREFIX +:+ key)
    (JSON_stringify env entry) = None ->
  JSON_stringify env entry <> "" ->
  JSON_parse env (JSON_stringify env entry) = ParsedEntry entry ->
  fst (readCache env key (snd (writeCache env key d t w))) = Normal (Some entry).
Proof.
  intros entry Hread Hwrite Hne Hback.
  rewrite writeCache_effect, readCache_lookup. cbn [fst snd]. f_equal.
  unfold cache_lookup, persisted. cbn [sessionStorage]. fold entry.
  rewrite Hread, Hwrite, lookup_insert_eq.
  destruct (JSON_stringify env entry) eqn:Hraw; [contradiction|].
  rewrite Hback. reflexivity.
Qed.

(** *** Response formats *)

Lemma read_body_csv_text opts response w :
  parse opts = "csv" ->
  read_body opts response w = read_body (with_format opts "text") response w.
Proof. unfold read_body. cbn [parse with_format]. intros ->. reflexivity. Qed.

Lemma attempt_body_csv_text url opts remaining w :
  parse opts = "csv" ->
  attempt_body env url opts remaining w =
  attempt_body env url (with_format opts "text") remaining w.
Proof.
  intros Hcsv. unfold attempt_body, try_catch, bind, backoff.
  cbn [timeoutMs ttlMs maxRetries with_format].
  destruct (fetch_with_deadline env url (timeoutMs opts) w) as [[r|e] w1]; [|reflexivity].
  destruct (negb (ok r)); [reflexivity|].
  rewrite (read_body_csv_text opts r w1 Hcsv). reflexivity.
Qed.

Lemma attempt_rec_csv_text url opts cached passes :
  parse opts = "csv" ->
  forall remaining last w,
    attempt_rec env url opts cached passes remaining last w =
    attempt_rec env url (with_format opts "text") cached passes remaining last w.
Proof.
  intros Hcsv. induction passes as [|p IH]; intros remaining last w; [reflexivity|].
  cbn [attempt_rec]. destruct (remaining <? 0); [reflexivity|].
  unfold bind. rewrite (attempt_body_csv_text url opts remaining w Hcsv).
  destruct (attempt_body env url (with_format opts "text") remaining w) as [[[r|err]|e] w1];
    [reflexivity|apply IH|reflexivity].
Qed.

(** X5. The format [csv] is the format [text]: the body is handed back
    as one string, not split into records, and the two calls agree in
    result and in every effect. *)
Theorem csv_is_text url opts w :
  parse opts = "csv" ->
  apiFetch env url opts w = apiFetch env url (with_format opts "text") w.
Proof.
  intros Hcsv. unfold apiFetch, bind, attempt. cbn [maxRetries with_format].
  destruct (readCache env url w) as [[cached|e] w1]; [|reflexivity].
  destruct (Date_now w1) as [[t|e] w2]; [|reflexivity].
  destruct cached as [c|]; [destruct (is_fresh t c); [reflexivity|]|];
    apply attempt_rec_csv_text; exact Hcsv.
Qed.

(** X6. With a format other than [json], [text] and [csv] the body is
    never read: a response that arrives in time with a success status
    makes the first attempt succeed with [data: undefined] and
    [error: null], even when its body could not be decoded at all, and
    the entry offered to the store has no payload. *)
Theorem unknown_format_yields_undefined url opts w r :
  String.eqb (parse opts) "json" = false ->
  String.eqb (parse opts) "text" = false ->
  String.eqb (parse opts) "csv" = false ->
  fresh_entry env w url = None ->
  0 <= maxRetries opts ->
  (timeoutMs opts <=? latency (network env (fetches w) url)) = false ->
  settle (network env (fetches w) url) = Fulfilled r ->
  ok r = true ->
  exists w',
    apiFetch env url opts w =
      (Normal {| res_data := VUndefined; res_error := None; res_stale := false |}, w') /\
    fetches w' = S (fetches w) /\
    sessionStorage w' =
      persisted env (sessionStorage w) url
        {| data := VUndefined; cachedAt := now w'; ttl := effective_ttl opts r |}.
Proof.
  intros Hj Ht Hc Hnone Hmax Hdl Hr Hok.
  assert (Hv : verdict_at env url opts w 0 = Succeeds VUndefined r).
  { unfold verdict_at, verdict, decode.
    rewrite Nat.add_0_r, Hdl, Hr, Hok, Hj, Ht, Hc. reflexivity. }
  destruct (apiFetch_run env url opts w) as (res & w' & Hrun & Hcall).
  exists w'.
  destruct Hcall as [c Hfresh _ _ | _ HR]; [congruence|].
  destruct HR as [Hall _ _ _ _ | k d resp Hk Hbefore Hok' Hres Hs _ Hf].
  - destruct (Hall 0%nat) as [m Hm]; [lia|]. congruence.
  - destruct (first_success_unique env url opts w 0 k VUndefined d r resp)
      as (<- & <- & <-); [intros j Hj0; lia|exact Hv|exact Hbefore|exact Hok'|].
    rewrite Hrun, Hres. split; [reflexivity|]. split; [lia|exact Hs].
Qed.

(** *** The TTL taken from the server *)

Lemma take_digits_are_digits s : all_digits (take_digits s) = true.
Proof.
  induction s as [|c s IH]; [reflexivity|].
  cbn [take_digits]. destruct (is_digit c) eqn:Hc; [|reflexivity].
  cbn [all_digits]. rewrite Hc, IH. reflexivity.
Qed.

Lemma match_here_digits s ds :
  match_here s = Some ds -> all_digits ds = true /\ ds <> "".
Proof.
  unfold match_here. destruct (strip_prefix "max-age=" s) as [tl|]; [|discriminate].
  pose proof (take_digits_are_digits tl) as Hd.
  destruct (take_digits tl) as [|c ds'] eqn:Htd; [discriminate|].
  intros [= <-]. split; [exact Hd|discriminate].
Qed.

Lemma match_max_age_digits cc ds :
  match_max_age cc = Some ds -> all_digits ds = true /\ ds <> "".
Proof.
  induction cc as [|c cc IH]; [discriminate|].
  cbn [match_max_age].
  destruct (match_here (String c cc)) as [ds'|] eqn:Hh; [|exact IH].
  intros [= <-]. exact (match_here_digits _ _ Hh).
Qed.

Lemma digit_value_nonneg c : is_digit c = true -> 0 <= digit_value c.
Proof.
  unfold is_digit, digit_value. intros H.
  apply andb_true_iff in H as [H1 _]. apply Nat.leb_le in H1. lia.
Qed.

Lemma digits_value_nonneg ds :
  all_digits ds = true -> forall acc, 0 <= acc -> 0 <= digits_value_from acc ds.
Proof.
  induction ds as [|c ds IH]; intros Hds acc Hacc; [exact Hacc|].
  cbn [all_digits] in Hds. apply andb_true_iff in Hds as [Hc Hds].
  cbn [digits_value_from]. apply (IH Hds).
  pose proof (digit_value_nonneg c Hc). lia.
Qed.

(** X7. A TTL read off the response, as long as it is a number that a
    double holds exactly, is a whole number of seconds times 1000 and is
    never negative; so the TTL an entry is stored with is negative only
    if the caller's own [ttlMs] is. *)
Theorem server_ttl_is_whole_seconds (r : Response) opts :
  exact_max_age r = true ->
  (forall t, parseCacheControlMaxAge r = Some t ->
     exists secs, 0 <= secs <= 9007199254740 /\ t = secs * 1000) /\
  (0 <= ttlMs opts -> 0 <= effective_ttl opts r <= Z.max (ttlMs opts) MAX_SAFE_INTEGER).
Proof.
  intros Hexact. unfold exact_max_age in Hexact.
  assert (Hsecs : forall t, parseCacheControlMaxAge r = Some t ->
                    exists secs, 0 <= secs <= 9007199254740 /\ t = secs * 1000).
  { intros t Ht. rewrite Ht in Hexact. revert Ht. unfold parseCacheControlMaxAge.
    destruct (match_max_age _) as [ds|] eqn:Hm; [|discriminate].
    destruct (match_max_age_digits _ _ Hm) as [Hds Hne].
    rewrite (parseInt10_digits ds Hds Hne). cbn. intros [= <-].
    exists (digits_value_from 0 ds). split; [|reflexivity].
    pose proof (digits_value_nonneg ds Hds 0 (Z.le_refl 0)) as Hpos.
    unfold MAX_SAFE_INTEGER in Hexact. lia. }
  split; [exact Hsecs|].
  intros Hcaller. unfold effective_ttl.
  destruct (parseCacheControlMaxAge r) as [t|] eqn:Hp; cbn [from_option]; unfold id.
  - destruct (Hsecs t eq_refl) as (secs & Hs & ->). unfold MAX_SAFE_INTEGER. lia.
  - lia.
Qed.

(** *** One call after another *)

(** X8. After a call that succeeded and whose write the store accepted,
    a later call for the same identity in the same session, made before
    the effective TTL has run out, returns the same payload without any
    network call, provided the codec reads back what it wrote. The later
    call's own options play no part. *)
Theorem served_again_within_ttl url opts opts' w k d resp w2 :
  fresh_entry env w url = None ->
  Z.of_nat k <= maxRetries opts ->
  (forall j, (j < k)%nat -> exists m, verdict_at env url opts w j = Fails m) ->
  verdict_at env url opts w k = Succeeds d resp ->
  let w1 := snd (apiFetch env url opts w) in
  let entry := {| data := d; cachedAt := now w1; ttl := effective_ttl opts resp |} in
  getItem_error env = None ->
  setItem_error env (sessionStorage w) (CACHE_PREFIX +:+ url)
    (JSON_stringify env entry) = None ->
  JSON_stringify env entry <> "" ->
  JSON_parse env (JSON_stringify env entry) = ParsedEntry entry ->
  sessionStorage w2 = sessionStorage w1 ->
  now w2 - now w1 < effective_ttl opts resp ->
  apiFetch env url opts' w2 =
    (Normal {| res_data := d; res_error := None; res_stale := false |}, w2).
Proof. exact (refetch_within_ttl env url opts opts' w k d resp w2). Qed.

(** X9. After a call that succeeded and whose write the store accepted,
    a later call in the same session, made once the effective TTL has run
    out and finding the network failing on every attempt, returns the
    earlier payload with [stale: true] and the last failure's message,
    however long ago the payload was stored. *)
Theorem stale_payload_after_expiry url opts opts' w k d resp w2 :
  fresh_entry env w url = None ->
  Z.of_nat k <= maxRetries opts ->
  (forall j, (j < k)%nat -> exists m, verdict_at env url opts w j = Fails m) ->
  verdict_at env url opts w k = Succeeds d resp ->
  let w1 := snd (apiFetch env url opts w) in
  let entry := {| data := d; cachedAt := now w1; ttl := effective_ttl opts resp |} in
  getItem_error env = None ->
  setItem_error env (sessionStorage w) (CACHE_PREFIX +:+ url)
    (JSON_stringify env entry) = None ->
  JSON_stringify env entry <> "" ->
  JSON_parse env (JSON_stringify env entry) = ParsedEntry entry ->
  sessionStorage w2 = sessionStorage w1 ->
  effective_ttl opts resp <= now w2 - now w1 ->
  0 <= maxRetries opts' ->
  (forall i : nat, Z.of_nat i <= maxRetries opts' ->
     exists m, verdict_at env url opts' w2 i = Fails m) ->
  exists m w3,
    verdict_at env url opts' w2 (Z.to_nat (maxRetries opts')) = Fails m /\
    apiFetch env url opts' w2 =
      (Normal {| res_data := d; res_error := Some m; res_stale := true |}, w3).
Proof.
  intros Hnone Hk Hbefore Hok w1 entry Hread Hwrite Hne Hback Hsame Hold Hmax Hall.
  destruct (apiFetch_run env url opts w) as (r & w' & Hrun & Hcall).
  assert (Hw1 : w1 = w') by (unfold w1; rewrite Hrun; reflexivity).
  destruct Hcall as [c Hfresh _ _ | _ HR]; [congruence|].
  destruct HR as [Hall1 _ _ _ _ | k' d' resp' Hk' Hbefore' Hok' _ Hs _ _].
  { destruct (Hall1 k) as [m Hm]; [lia|]. congruence. }
  destruct (first_success_unique env url opts w k k' d d' resp resp'
              Hbefore Hok Hbefore' Hok') as (_ & <- & <-).
  rewrite <- Hw1 in Hs. fold entry in Hs.
  unfold persisted in Hs. rewrite Hwrite in Hs.
  assert (Hlookup : cache_lookup env w2 url = Some entry).
  { unfold cache_lookup. rewrite Hread, Hsame, Hs, lookup_insert_eq.
    destruct (JSON_stringify env entry) eqn:Hraw; [contradiction|].
    rewrite Hback. reflexivity. }
  assert (Hex : exhausted env url opts' w2).
  { split; [|exact Hall]. unfold fresh_entry, is_fresh. rewrite Hlookup.
    cbn [cachedAt ttl entry].
    replace (now w2 - now w1 <? effective_ttl opts resp) with false by lia.
    reflexivity. }
  destruct (exhausted_result url opts' w2 Hmax Hex) as (m & w3 & Hm & Hrun2).
  exists m, w3. split; [exact Hm|]. rewrite Hrun2, Hlookup. reflexivity.
Qed.

End More.

(** *** The scenarios *)

Ltac by_evaluation := vm_compute; first [reflexivity | discriminate].

Lemma expired_entry_costs_a_call :
  (fetches (world_with_B 5000) <
   fetches (snd (apiFetch env_down "B" default_options (world_with_B 5000))))%nat.
Proof.
  destruct (network_spared_iff_fresh env_down "B" default_options (world_with_B 5000))
    as [_ Hold].
  - by_evaluation.
  - apply (Hold stale_B); by_evaluation.
Defined.

Lemma no_retry_at_all_on_B :
  exists w',
    apiFetch env_down "B" no_retry_at_all (world_with_B 9000) =
      (Normal {| res_data := VStr "y=2"; res_error := None; res_stale := true |}, w') /\
    fetches w' = 0%nat.
Proof.
  destruct (negative_retries_make_no_attempt env_down "B" no_retry_at_all
              (world_with_B 9000)) as (w' & Hrun & Hf & _).
  - by_evaluation.
  - by_evaluation.
  - exists w'. split; [exact Hrun|exact Hf].
Defined.

Lemma fetching_A_keeps_B :
  sessionStorage (snd (apiFetch env_900 "A" default_options (world_with_B 9000)))
    !! "dashboard_cache_B" = Some "0,5000,y=2" /\
  sessionStorage (snd (apiFetch env_900 "A" default_options (world_with_B 9000)))
    !! "theme" = None /\
  cache_lookup env_900 (snd (apiFetch env_900 "A" default_options (world_with_B 9000))) "B" =
    Some stale_B.
Proof.
  destruct (other_identities_untouched env_900 "A" default_options (world_with_B 9000))
    as [Hkeys Hids].
  split; [|split].
  - rewrite (Hkeys "dashboard_cache_B"); [reflexivity|discriminate].
  - rewrite (Hkeys "theme"); [reflexivity|discriminate].
  - destruct (Hids "B") as [_ Hb]; [discriminate|]. rewrite Hb. reflexivity.
Defined.

Lemma written_then_read :
  fst (readCache env_down "A"
         (snd (writeCache env_down "A" (VStr "x=1") 5000 (world_with_B 40)))) =
  Normal (Some {| data := VStr "x=1"; cachedAt := 40; ttl := 5000 |}).
Proof.
  apply (write_then_read env_down "A" (VStr "x=1") 5000 (world_with_B 40));
    by_evaluation.
Defined.

Lemma csv_fetch_is_text_fetch :
  apiFetch env_900 "A" csv_options empty_world =
  apiFetch env_900 "A" text_options empty_world.
Proof.
  apply (csv_is_text env_900 "A" csv_options empty_world). reflexivity.
Defined.

Lemma xml_fetch_of_unreadable_body :
  exists w',
    apiFetch (platform_with (net_always resp_unreadable)) "A" xml_options empty_world =
      (Normal {| res_data := VUndefined; res_error := None; res_stale := false |}, w') /\
    fetches w' = 1%nat.
Proof.
  destruct (unknown_format_yields_undefined
              (platform_with (net_always resp_unreadable)) "A" xml_options
              empty_world resp_unreadable)
    as (w' & Hrun & Hf & _); try by_evaluation.
  exists w'. split; [exact Hrun|exact Hf].
Defined.

Lemma ttl_of_resp_900 :
  exists secs, 0 <= secs <= 9007199254740 /\ 900000 = secs * 1000.
Proof.
  destruct (server_ttl_is_whole_seconds resp_900 default_options) as [Hsecs _].
  - reflexivity.
  - apply Hsecs. by_evaluation.
Defined.

Lemma A_again_at_5000 :
  let w1 := snd (apiFetch env_900 "A" default_options empty_world) in
  apiFetch env_900 "A" text_options (later_on w1 5000) =
    (Normal {| res_data := VStr "hi"; res_error := None; res_stale := false |},
     later_on w1 5000).
Proof.
  intros w1.
  apply (served_again_within_ttl env_900 "A" default_options text_options
           empty_world 0 (VStr "hi") resp_900 (later_on w1 5000)).
  - by_evaluation.
  - by_evaluation.
  - intros j Hj. lia.
  - by_evaluation.
  - by_evaluation.
  - by_evaluation.
  - by_evaluation.
  - by_evaluation.
  - by_evaluation.
  - by_evaluation.
Defined.

Lemma A_stale_after_an_hour :
  let w1 := snd (apiFetch env_once_900 "A" default_options empty_world) in
  exists m w3,
    verdict_at env_once_900 "A" default_options (later_on w1 3600000) 2 = Fails m /\
    apiFetch env_once_900 "A" default_options (later_on w1 3600000) =
      (Normal {| res_data := VStr "hi"; res_error := Some m; res_stale := true |}, w3).
Proof.
  intros w1.
  apply (stale_payload_after_expiry env_once_900 "A" default_options default_options
           empty_world 0 (VStr "hi") resp_900 (later_on w1 3600000)).
  - by_evaluation.
  - by_evaluation.
  - intros j Hj. lia.
  - by_evaluation.
  - by_evaluation.
  - by_evaluation.
  - by_evaluation.
  - by_evaluation.
  - by_evaluation.
  - by_evaluation.
  - by_evaluation.
  - intros i _. eexists. reflexivity.
Defined.

End ApiClientMore.

(** ** The CSV decoder *)

Module CsvFacts.
Import Js FirmsProxy JsFacts CsvVocabulary.

Lemma split_on_length sep s : length (split_on sep s) = S (count_char sep s).
Proof.
  induction s as [|c s IH]; [reflexivity|].
  cbn [split_on count_char]. destruct (Ascii.eqb c sep).
  - cbn [length]. rewrite IH. reflexivity.
  - destruct (split_on sep s) as [|cur more]; [discriminate IH|].
    cbn [length] in *. exact IH.
Qed.

Lemma parseCsv_lines csv first second others :
  split_on LF (trim csv) = first :: second :: others ->
  parseCsv csv =
    (fun line =>
       Object_fromEntries
         (imap (fun i h => (h, default "" (trim <$> cells line !! i)))
               (header_names first)))
    <$> (second :: others).
Proof. unfold parseCsv. fold LF. intros ->. reflexivity. Qed.

(** X10. The decoder returns one record per line break of the trimmed
    text: none for an empty text or a lone header line, and one for every
    further line, blank ones included. White space and line breaks around
    the text do not count. *)
Theorem parseCsv_one_record_per_line csv :
  length (parseCsv csv) = count_char LF (trim csv) /\
  (parseCsv csv = [] <-> count_char LF (trim csv) = 0%nat).
Proof.
  assert (Hlen : length (parseCsv csv) = count_char LF (trim csv)).
  { pose proof (split_on_length LF (trim csv)) as Hsplit.
    destruct (split_on LF (trim csv)) as [|first [|second others]] eqn:Hlines.
    - discriminate Hsplit.
    - unfold parseCsv. fold LF. rewrite Hlines. cbn in *. lia.
    - rewrite (parseCsv_lines csv first second others Hlines), length_fmap.
      cbn [length] in *. lia. }
  split; [exact Hlen|]. rewrite <- Hlen.
  destruct (parseCsv csv); cbn; split; intros H; try reflexivity; discriminate H.
Qed.

(** *** Records *)

Lemma fromEntries_fold_is_Some entries :
  forall (m : gmap string string) k,
    is_Some (foldl (fun obj kv => <[kv.1 := kv.2]> obj) m entries !! k) <->
    is_Some (m !! k) \/ k ∈ entries.*1.
Proof.
  induction entries as [|[k' v'] l IH]; intros m k; cbn [foldl fmap list_fmap].
  - rewrite elem_of_nil. tauto.
  - rewrite IH, elem_of_cons, lookup_insert_is_Some. cbn.
    destruct (decide (k' = k)) as [->|Hne]; [tauto|].
    assert (Hne' : k <> k') by (intros ->; exact (Hne eq_refl)). tauto.
Qed.

Lemma fromEntries_fold_notin entries :
  forall (m : gmap string string) k,
    k ∉ entries.*1 ->
    foldl (fun obj kv => <[kv.1 := kv.2]> obj) m entries !! k = m !! k.
Proof.
  induction entries as [|[k' v'] l IH]; intros m k Hk; [reflexivity|].
  cbn [foldl fmap list_fmap] in *. rewrite not_elem_of_cons in Hk.
  destruct Hk as [Hne Hk]. rewrite (IH _ _ Hk). cbn.
  apply lookup_insert_ne. intros ->. exact (Hne eq_refl).
Qed.

Lemma fromEntries_last entries i k v :
  entries !! i = Some (k, v) ->
  (forall j kv, (i < j)%nat -> entries !! j = Some kv -> kv.1 <> k) ->
  Object_fromEntries entries !! k = Some v.
Proof.
  intros Hi Hlater. unfold Object_fromEntries.
  rewrite <- (take_drop_middle entries i (k, v) Hi), foldl_app.
  cbn [foldl]. rewrite fromEntries_fold_notin; [apply lookup_insert_eq|].
  intros Hin. apply list_elem_of_fmap in Hin as (kv & Hk & Hkv).
  apply list_elem_of_lookup in Hkv as (j & Hj).
  rewrite lookup_drop in Hj.
  apply (Hlater (S i + j)%nat kv); [lia|exact Hj|auto].
Qed.

Lemma entries_keys (f : nat -> string) (hs : list string) :
  (imap (fun i h => (h, f i)) hs).*1 = hs.
Proof.
  rewrite fmap_imap. rewrite <- (list_fmap_id hs) at 2.
  rewrite <- imap_const. apply imap_ext. reflexivity.
Qed.

(** X11. Every record has exactly the header names as its fields, each
    trimmed of surrounding white space: cells beyond the last header are
    dropped and a short line still yields every field. *)
Theorem parseCsv_fields_are_headers csv first others r row k :
  split_on LF (trim csv) = first :: others ->
  parseCsv csv !! r = Some row ->
  (is_Some (row !! k) <-> k ∈ header_names first).
Proof.
  intros Hlines Hrow.
  destruct others as [|second others].
  { unfold parseCsv in Hrow. fold LF in Hrow. rewrite Hlines in Hrow. discriminate Hrow. }
  rewrite (parseCsv_lines csv first second others Hlines), list_lookup_fmap in Hrow.
  destruct ((second :: others) !! r) as [line|]; [|discriminate Hrow].
  cbn in Hrow. injection Hrow as <-.
  unfold Object_fromEntries. rewrite fromEntries_fold_is_Some, entries_keys.
  rewrite lookup_empty. split; [intros [[? H]|H]; [discriminate H|exact H]|auto].
Qed.

(** X12. In the record made of line [r], the field named by header [i]
    holds cell [i] of that line, trimmed, and the empty string when the
    line has no cell [i]; when a name occurs in several headers the last
    of them decides. *)
Theorem parseCsv_field_is_cell csv first others r line i h :
  split_on LF (trim csv) = first :: others ->
  others !! r = Some line ->
  header_names first !! i = Some h ->
  (forall j, (i < j)%nat -> header_names first !! j <> Some h) ->
  exists row,
    parseCsv csv !! r = Some row /\
    row !! h = Some (default "" (trim <$> cells line !! i)) /\
    ((length (cells line) <= i)%nat -> row !! h = Some "").
Proof.
  intros Hlines Hline Hh Hlast.
  destruct others as [|second others]; [discriminate Hline|].
  rewrite (parseCsv_lines csv first second others Hlines), list_lookup_fmap, Hline.
  eexists. split; [reflexivity|].
  assert (Hcell :
    Object_fromEntries
      (imap (fun i h => (h, default "" (trim <$> cells line !! i))) (header_names first))
      !! h = Some (default "" (trim <$> cells line !! i))).
  { apply (fromEntries_last _ i).
    - rewrite list_lookup_imap, Hh. reflexivity.
    - intros j kv Hj Hkv. rewrite list_lookup_imap in Hkv.
      destruct (header_names first !! j) as [h'|] eqn:Hj'; [|discriminate Hkv].
      cbn in Hkv. injection Hkv as <-. cbn. intros ->. exact (Hlast j Hj Hj'). }
  split; [exact Hcell|].
  intros Hshort. rewrite Hcell, (lookup_ge_None_2 _ _ Hshort). reflexivity.
Qed.

Lemma fromEntries_fold_const entries v0 :
  (forall kv, kv ∈ entries -> kv.2 = v0) ->
  forall (m : gmap string string) k,
    k ∈ entries.*1 ->
    foldl (fun obj kv => <[kv.1 := kv.2]> obj) m entries !! k = Some v0.
Proof.
  induction entries as [|[k' v'] l IH]; intros Hall m k Hk.
  - apply elem_of_nil in Hk. contradiction.
  - cbn [foldl fmap list_fmap] in *.
    destruct (decide (k ∈ l.*1)) as [Hin|Hnotin].
    + apply IH; [|exact Hin]. intros kv Hkv. apply Hall. right. exact Hkv.
    + rewrite (fromEntries_fold_notin l _ k Hnotin).
      apply elem_of_cons in Hk as [->|Hk]; [|contradiction].
      cbn. rewrite lookup_insert_eq. f_equal.
      apply (Hall (k', v')). left.
Qed.

(** X13. A blank line between the header and the last line is not
    skipped: it yields a record in which every field is the empty
    string. *)
Theorem parseCsv_blank_line_is_a_record csv first others r :
  split_on LF (trim csv) = first :: others ->
  others !! r = Some "" ->
  exists row,
    parseCsv csv !! r = Some row /\
    forall h, h ∈ header_names first -> row !! h = Some "".
Proof.
  intros Hlines Hline.
  destruct others as [|second others]; [discriminate Hline|].
  rewrite (parseCsv_lines csv first second others Hlines), list_lookup_fmap, Hline.
  eexists. split; [reflexivity|].
  intros h Hh. unfold Object_fromEntries.
  apply fromEntries_fold_const; [|rewrite entries_keys; exact Hh].
  intros kv Hkv. apply elem_of_lookup_imap in Hkv as (i & h' & -> & _).
  cbn. destruct i; reflexivity.
Qed.

(** *** The scenarios *)

Lemma ragged_fields :
  exists row,
    parseCsv ragged_csv !! 2%nat = Some row /\
    (is_Some (row !! "frp") <-> "frp" ∈ header_names "lat , frp") /\
    (is_Some (row !! "4") <-> "4" ∈ header_names "lat , frp").
Proof.
  destruct (parseCsv ragged_csv !! 2%nat) as [row|] eqn:Hrow;
    [|vm_compute in Hrow; discriminate Hrow].
  exists row. split; [reflexivity|].
  split;
    apply (parseCsv_fields_are_headers ragged_csv "lat , frp"
             ["41.9"; ""; "2, 3 ,4"] 2 row); first [exact Hrow | vm_compute; reflexivity].
Defined.

Lemma ragged_short_line :
  exists row,
    parseCsv ragged_csv !! 0%nat = Some row /\
    row !! "frp" = Some "".
Proof.
  destruct (parseCsv_field_is_cell ragged_csv "lat , frp"
              ["41.9"; ""; "2, 3 ,4"] 0 "41.9" 1 "frp")
    as (row & Hrow & _ & Hshort).
  - vm_compute. reflexivity.
  - reflexivity.
  - vm_compute. reflexivity.
  - intros [|[|j]] Hj; [lia|lia|discriminate].
  - exists row. split; [exact Hrow|]. apply Hshort. vm_compute. lia.
Defined.

Lemma ragged_blank_line :
  exists row,
    parseCsv ragged_csv !! 1%nat = Some row /\
    forall h, h ∈ header_names "lat , frp" -> row !! h = Some "".
Proof.
  apply (parseCsv_blank_line_is_a_record ragged_csv "lat , frp"
           ["41.9"; ""; "2, 3 ,4"] 1).
  - vm_compute. reflexivity.
  - reflexivity.
Defined.

End CsvFacts.

(** ** The answers of the proxy *)

Module ProxyAnswers.
Import Js FirmsProxy JsFacts CsvVocabulary FirmsProxyFacts CsvFacts.

Lemma accepts_iff s :
  Response_accepts s = true <->
  200 <= s <= 599 /\ s <> 204 /\ s <> 205 /\ s <> 304.
Proof. unfold Response_accepts, null_body_status. lia. Qed.

Lemma rows_count csv : length (parseCsv csv) = count_char LF (trim csv).
Proof.
  pose proof (split_on_length LF (trim csv)) as Hsplit.
  destruct (split_on LF (trim csv)) as [|first [|second others]] eqn:Hlines.
  - discriminate Hsplit.
  - unfold parseCsv. fold LF. rewrite Hlines. cbn in *. lia.
  - rewrite (parseCsv_lines csv first second others Hlines), length_fmap.
    cbn [length] in *. lia.
Qed.

Lemma rows_fields csv first others r row k :
  split_on LF (trim csv) = first :: others ->
  parseCsv csv !! r = Some row ->
  (is_Some (row !! k) <-> k ∈ header_names first).
Proof.
  intros Hlines Hrow.
  destruct others as [|second others].
  { unfold parseCsv in Hrow. fold LF in Hrow. rewrite Hlines in Hrow. discriminate Hrow. }
  rewrite (parseCsv_lines csv first second others Hlines), list_lookup_fmap in Hrow.
  destruct ((second :: others) !! r) as [line|]; [|discriminate Hrow].
  cbn in Hrow. injection Hrow as <-.
  unfold Object_fromEntries. rewrite fromEntries_fold_is_Some, entries_keys.
  rewrite lookup_empty. split; [intros [[? H]|H]; [discriminate H|exact H]|auto].
Qed.

Lemma rows_cell csv first others r line i h :
  split_on LF (trim csv) = first :: others ->
  others !! r = Some line ->
  header_names first !! i = Some h ->
  (forall j, (i < j)%nat -> header_names first !! j <> Some h) ->
  exists row,
    parseCsv csv !! r = Some row /\
    row !! h = Some (default "" (trim <$> cells line !! i)).
Proof.
  intros Hlines Hline Hh Hlast.
  destruct others as [|second others]; [discriminate Hline|].
  rewrite (parseCsv_lines csv first second others Hlines), list_lookup_fmap, Hline.
  eexists. split; [reflexivity|].
  apply (fromEntries_last _ i).
  - rewrite list_lookup_imap, Hh. reflexivity.
  - intros j kv Hj Hkv. rewrite list_lookup_imap in Hkv.
    destruct (header_names first !! j) as [h'|] eqn:Hj'; [|discriminate Hkv].
    cbn in Hkv. injection Hkv as <-. cbn. intros ->. exact (Hlast j Hj Hj').
Qed.

(** C9. The handler answers 503 with an error body when the secret is
    not configured. When the upstream answers with a non-success status
    it answers with that status and an error body, provided a response
    with a body can carry the status (200 to 599, other than 204, 205 and
    304); for any other status the response cannot be built, and the
    answer is 500 with an error body. On success it answers 200 with an
    array that has one record per line after the header of the trimmed
    upstream text, each record having the header names as its fields and
    under each name the trimmed cell of its column, or the empty string
    where the line is short. It answers 500 with an error body when the
    upstream call or the reading of its body throws. *)
Theorem proxy_status_codes fetch_upstream request :
  let response := onRequestGet fetch_upstream request in
  (FIRMS_API_KEY request = None \/ FIRMS_API_KEY request = Some "" ->
   status response = 503 /\
   body response =
     ErrorBody "FIRMS_API_KEY environment variable is not configured.") /\
  (forall apiKey upstream,
     FIRMS_API_KEY request = Some apiKey -> apiKey <> "" ->
     fetch_upstream (firmsUrl apiKey request) = Fulfilled upstream ->
     up_ok upstream = false ->
     let s := up_status upstream in
     (200 <= s <= 599 -> s <> 204 -> s <> 205 -> s <> 304 ->
      status response = s /\
      body response = ErrorBody ("FIRMS upstream error: HTTP " +:+ Z_to_string s)) /\
     (s < 200 \/ 599 < s \/ s = 204 \/ s = 205 \/ s = 304 ->
      status response = 500 /\ body response = RelayErrorBody s)) /\
  (forall apiKey upstream csv,
     FIRMS_API_KEY request = Some apiKey -> apiKey <> "" ->
     fetch_upstream (firmsUrl apiKey request) = Fulfilled upstream ->
     up_ok upstream = true ->
     up_text upstream = Fulfilled csv ->
     status response = 200 /\
     exists rows,
       body response = ArrayBody rows /\
       length rows = count_char LF (trim csv) /\
       (forall first others r row k,
          split_on LF (trim csv) = first :: others ->
          rows !! r = Some row ->
          (is_Some (row !! k) <-> k ∈ header_names first)) /\
       (forall first others r line i h,
          split_on LF (trim csv) = first :: others ->
          others !! r = Some line ->
          header_names first !! i = Some h ->
          (forall j, (i < j)%nat -> header_names first !! j <> Some h) ->
          exists row,
            rows !! r = Some row /\
            row !! h = Some (default "" (trim <$> cells line !! i)))) /\
  (forall apiKey err,
     FIRMS_API_KEY request = Some apiKey -> apiKey <> "" ->
     (fetch_upstream (firmsUrl apiKey request) = Rejected err \/
      exists upstream,
        fetch_upstream (firmsUrl apiKey request) = Fulfilled upstream /\
        up_ok upstream = true /\ up_text upstream = Rejected err) ->
     status response = 500 /\
     body response = ErrorBody ("Proxy error: " +:+ message err)).
Proof.
  cbv zeta. split; [|split; [|split]].
  - unfold onRequestGet. intros [Hkey|Hkey]; rewrite Hkey; split; reflexivity.
  - intros apiKey upstream Hkey Hne Hup Hok.
    rewrite (configured_key request apiKey Hkey Hne), Hup, Hok. cbn [negb].
    split.
    + intros Hrange H204 H205 H304.
      replace (Response_accepts (up_status upstream)) with true
        by (symmetry; apply accepts_iff; tauto).
      split; reflexivity.
    + intros Hout.
      replace (Response_accepts (up_status upstream)) with false.
      * split; reflexivity.
      * symmetry. apply not_true_is_false. rewrite accepts_iff. lia.
  - intros apiKey upstream csv Hkey Hne Hup Hok Htext.
    rewrite (configured_key request apiKey Hkey Hne), Hup, Hok, Htext. cbn [negb].
    split; [reflexivity|]. exists (parseCsv csv).
    split; [reflexivity|]. split; [apply rows_count|]. split.
    + intros first others r row k. apply rows_fields.
    + intros first others r line i h. apply rows_cell.
  - intros apiKey err Hkey Hne [Hup|(upstream & Hup & Hok & Htext)];
      rewrite (configured_key request apiKey Hkey Hne), Hup.
    + split; reflexivity.
    + rewrite Hok, Htext. split; reflexivity.
Qed.

(** *** The scenarios *)

Import ProxyScenario.

Lemma proxy_answers :
  status (onRequestGet upstream_ok (request_for None None)) = 503 /\
  status (onRequestGet upstream_forbidden (request_for (Some "KEY") None)) = 403 /\
  status (onRequestGet upstream_ok (request_for (Some "KEY") None)) = 200 /\
  (exists rows row,
     body (onRequestGet upstream_ok (request_for (Some "KEY") None)) = ArrayBody rows /\
     length rows = 1%nat /\
     rows !! 0%nat = Some row /\ row !! "frp" = Some "12.5") /\
  status (onRequestGet upstream_unreachable (request_for (Some "KEY") None)) = 500.
Proof.
  destruct (proxy_status_codes upstream_ok (request_for None None))
    as (Hmissing & _).
  destruct (proxy_status_codes upstream_forbidden (request_for (Some "KEY") None))
    as (_ & Hrelay & _).
  destruct (proxy_status_codes upstream_ok (request_for (Some "KEY") None))
    as (_ & _ & Hsuccess & _).
  destruct (proxy_status_codes upstream_unreachable (request_for (Some "KEY") None))
    as (_ & _ & _ & Hthrown).
  assert (Hkey : "KEY" <> "") by discriminate.
  split; [|split; [|split; [|split]]].
  - apply Hmissing. left. reflexivity.
  - destruct (Hrelay "KEY" _ eq_refl Hkey eq_refl eq_refl) as [Hin _].
    apply Hin; cbn; lia.
  - apply (Hsuccess "KEY" _ hotspots_csv eq_refl Hkey eq_refl eq_refl eq_refl).
  - destruct (Hsuccess "KEY" _ hotspots_csv eq_refl Hkey eq_refl eq_refl eq_refl)
      as (_ & rows & Hbody & Hlen & _ & Hcell).
    destruct (Hcell "latitude,longitude,frp" ["41.9,21.4,12.5"] 0%nat
                "41.9,21.4,12.5" 2%nat "frp") as (row & Hrow & Hfrp).
    + vm_compute. reflexivity.
    + reflexivity.
    + reflexivity.
    + intros [|[|[|j]]] Hj; first [lia | discriminate].
    + exists rows, row. split; [exact Hbody|]. split; [rewrite Hlen; reflexivity|].
      split; [exact Hrow|]. rewrite Hfrp. reflexivity.
  - apply (Hthrown "KEY" _ eq_refl Hkey (or_introl eq_refl)).
Defined.

(** An upstream that answers [304 Not Modified] gets its status replaced:
    the handler answers 500. *)
Lemma not_modified_is_not_relayed :
  exists upstream,
    upstream_not_modified (firmsUrl "KEY" (request_for (Some "KEY") None)) =
      Fulfilled upstream /\
    up_ok upstream = false /\
    up_status upstream = 304 /\
    status (onRequestGet upstream_not_modified (request_for (Some "KEY") None)) = 500 /\
    status (onRequestGet upstream_not_modified (request_for (Some "KEY") None))
      <> up_status upstream.
Proof.
  eexists. split; [reflexivity|]. cbn. repeat split. discriminate.
Qed.

End ProxyAnswers.

(** ** The health probes *)

Module ApiHealthFacts.
Import Js ApiClient ApiHealth.

Section Probes.

Variable env : Platform.

Lemma probe_body_decode api res w :
  probe_body api res w = (Normal (probe_decode api res), w).
Proof.
  unfold probe_body, probe_decode, try_catch, bind.
  destruct (String.eqb (api_parse api) "json").
  - destruct (json res); reflexivity.
  - destruct (text res); reflexivity.
Qed.

(** The result of a probe, case by case. *)
Lemma probeApi_cases api w :
  let reply := network env (fetches w) (api_url api) in
  exists r w',
    probeApi env api w = (Normal r, w') /\
    probe_id r = api_id api /\
    checkedAt r = now w /\
    match arrived reply with
    | None =>
        probe_status r = S_DOWN /\ statusCode r = None /\
        (latencyMs r = TIMEOUT_MS \/ latencyMs r = latency reply)
    | Some res =>
        statusCode r = Some (status res) /\
        latencyMs r = latency reply /\
        if ok res then
          match probe_decode api res with
          | None =>
              probe_status r = S_DOWN /\
              probe_message r = "Failed to parse response"
          | Some d =>
              if passes_validation api d
              then probe_status r = S_OK /\ probe_message r = "Operational"
              else probe_status r = S_WARN /\
                   probe_message r = "Unexpected response shape"
          end
        else
          probe_status r = S_DOWN /\
          probe_message r =
            "HTTP " +:+ Z_to_string (status res) +:+ " " +:+ statusText res
    end.
Proof.
  intros reply. unfold probeApi, arrived, bind, try_catch, Date_now, fetch_with_deadline.
  fold reply. cbn [now fst snd].
  destruct (TIMEOUT_MS <=? latency reply) eqn:Hdl.
  - eexists _, _. split; [reflexivity|]. cbn.
    repeat split. left. unfold TIMEOUT_MS. lia.
  - destruct (settle reply) as [res|e]; cbn.
    + destruct (ok res) eqn:Hok; cbn.
      * rewrite probe_body_decode. cbn.
        destruct (probe_decode api res) as [d|].
        -- unfold passes_validation.
           destruct (api_validate api) as [valid|].
           ++ destruct (valid d); cbn; eexists _, _;
                (split; [reflexivity|]); cbn; repeat split; lia.
           ++ eexists _, _. split; [reflexivity|]. cbn. repeat split; lia.
        -- eexists _, _. split; [reflexivity|]. cbn. repeat split; lia.
      * eexists _, _. split; [reflexivity|]. cbn. repeat split; lia.
    + eexists _, _. split; [reflexivity|]. cbn. repeat split. right. lia.
Qed.

Lemma probe_status_known api w :
  exists r w',
    probeApi env api w = (Normal r, w') /\
    (probe_status r = S_OK \/ probe_status r = S_WARN \/ probe_status r = S_DOWN).
Proof.
  destruct (probeApi_cases api w) as (r & w' & Hrun & _ & _ & Hcases).
  exists r, w'. split; [exact Hrun|].
  destruct (arrived _) as [res|]; [|tauto].
  destruct Hcases as (_ & _ & Hrest).
  destruct (ok res); [destruct (probe_decode api res) as [d|];
    [destruct (passes_validation api d)|]|]; tauto.
Qed.

(** X15. A probe never throws. It reports a status code exactly when a
    response arrived before the deadline, whatever that response says, and
    then its latency is the time the response took; without a response it
    reports the service as down. The status it reports is always one of
    the three the dashboard counts. *)
Theorem probe_reports_code_iff_response api w :
  let reply := network env (fetches w) (api_url api) in
  exists r w',
    probeApi env api w = (Normal r, w') /\
    (probe_status r = S_OK \/ probe_status r = S_WARN \/ probe_status r = S_DOWN) /\
    (statusCode r = None <-> arrived reply = None) /\
    (forall res, arrived reply = Some res ->
       statusCode r = Some (status res) /\ latencyMs r = latency reply) /\
    (statusCode r = None -> probe_status r = S_DOWN).
Proof.
  intros reply.
  destruct (probeApi_cases api w) as (r & w' & Hrun & _ & _ & Hcases).
  fold reply in Hcases. exists r, w'. split; [exact Hrun|].
  destruct (arrived reply) as [res|].
  - destruct Hcases as (Hcode & Hlat & Hrest).
    split; [|split; [|split]].
    + destruct (ok res); [destruct (probe_decode api res) as [d|];
        [destruct (passes_validation api d)|]|]; tauto.
    + rewrite Hcode. split; discriminate.
    + intros res' [= <-]. auto.
    + rewrite Hcode. discriminate.
  - destruct Hcases as (Hdown & Hcode & _).
    split; [auto|]. split; [tauto|]. split; [discriminate|auto].
Qed.

(** X16. A probe calls a service operational exactly when a response
    arrived in time with a success status, its body decoded and the
    decoded value has the expected shape; degraded exactly when all of
    that holds but the shape. A body that does not decode makes the
    service down with the message "Failed to parse response", whatever
    error the decoder raised. *)
Theorem probe_verdicts api w :
  let reply := network env (fetches w) (api_url api) in
  exists r w',
    probeApi env api w = (Normal r, w') /\
    (probe_status r = S_OK <->
     exists res d, arrived reply = Some res /\ ok res = true /\
                   probe_decode api res = Some d /\
                   passes_validation api d = true) /\
    (probe_status r = S_WARN <->
     exists res d, arrived reply = Some res /\ ok res = true /\
                   probe_decode api res = Some d /\
                   passes_validation api d = false) /\
    (forall res, arrived reply = Some res -> ok res = true ->
       probe_decode api res = None ->
       probe_status r = S_DOWN /\
       probe_message r = "Failed to parse response").
Proof.
  intros reply.
  destruct (probeApi_cases api w) as (r & w' & Hrun & _ & _ & Hcases).
  fold reply in Hcases. exists r, w'. split; [exact Hrun|].
  destruct (arrived reply) as [res|].
  - destruct Hcases as (_ & _ & Hrest).
    destruct (ok res) eqn:Hok.
    + destruct (probe_decode api res) as [d|] eqn:Hdec.
      * destruct (passes_validation api d) eqn:Hval; destruct Hrest as [Hst Hmsg];
          rewrite Hst; (split; [|split]).
        -- split; [intros _; exists res, d; auto|reflexivity].
        -- split; [discriminate|].
           intros (res' & d' & [= <-] & _ & Hd & Hv).
           rewrite Hdec in Hd. injection Hd as <-. congruence.
        -- intros res' [= <-] _ Hnone. congruence.
        -- split; [discriminate|].
           intros (res' & d' & [= <-] & _ & Hd & Hv).
           rewrite Hdec in Hd. injection Hd as <-. congruence.
        -- split; [intros _; exists res, d; auto|reflexivity].
        -- intros res' [= <-] _ Hnone. congruence.
      * destruct Hrest as [Hst Hmsg]. rewrite Hst. split; [|split].
        -- split; [discriminate|].
           intros (res' & d' & [= <-] & _ & Hd & _). congruence.
        -- split; [discriminate|].
           intros (res' & d' & [= <-] & _ & Hd & _). congruence.
        -- intros res' [= <-] _ _. rewrite Hmsg. auto.
    + destruct Hrest as [Hst Hmsg]. rewrite Hst. split; [|split].
      * split; [discriminate|].
        intros (res' & d' & [= <-] & Hok' & _). congruence.
      * split; [discriminate|].
        intros (res' & d' & [= <-] & Hok' & _). congruence.
      * intros res' [= <-] Hok'. congruence.
  - destruct Hcases as (Hst & _). rewrite Hst. split; [|split].
    + split; [discriminate|]. intros (res' & d' & Hres & _). discriminate Hres.
    + split; [discriminate|]. intros (res' & d' & Hres & _). discriminate Hres.
    + intros res' Hres. discriminate Hres.
Qed.

(** *** A round of probes *)

Lemma probe_all_known apis :
  forall w i,
    exists results,
      probe_all env apis w i = Some results /\
      length results = length apis /\
      Forall known_status results.
Proof.
  induction apis as [|api apis IH]; intros w i.
  - exists []. repeat split. constructor.
  - destruct (probe_status_known api (probe_start w i))
      as (r & w' & Hrun & Hknown).
    destruct (IH w (S i)) as (rs & Hrs & Hlen & Hall).
    exists (r :: rs). cbn [probe_all]. rewrite Hrun, Hrs. cbn.
    repeat split; [lia|]. constructor; assumption.
Qed.

Lemma stat_initial s : stat {[ S_OK := 0; S_WARN := 0; S_DOWN := 0 ]} s = 0.
Proof.
  unfold stat. rewrite !lookup_insert. repeat case_decide; try reflexivity.
  rewrite lookup_singleton. case_decide; reflexivity.
Qed.

Lemma tally_fold results s :
  forall counts : gmap string Z,
    stat (foldl (fun counts r =>
                   <[probe_status r := default 0 (counts !! probe_status r) + 1]> counts)
                counts results) s =
    stat counts s + Z.of_nat (length (List.filter (has_status s) results)).
Proof.
  induction results as [|r rs IH]; intros counts; cbn [foldl List.filter length].
  - lia.
  - rewrite IH. unfold has_status at 2.
    destruct (String.eqb_spec (probe_status r) s) as [->|Hne].
    + unfold stat. rewrite lookup_insert_eq. cbn [from_option length]. unfold id.
      rewrite Nat2Z.inj_succ. lia.
    + unfold stat. rewrite lookup_insert_ne by exact Hne. cbn [from_option length]. lia.
Qed.

Lemma tally_stat results s :
  stat (tally results) s = Z.of_nat (length (List.filter (has_status s) results)).
Proof. unfold tally. rewrite tally_fold, stat_initial. lia. Qed.

Lemma shown_by_status f s apis :
  statusForFilter f = Some s ->
  forall results,
    length results = length apis ->
    count_shown f (cards_after apis results) =
      Z.of_nat (length (List.filter (has_status s) results)).
Proof.
  intros Hf. unfold count_shown, cards_after.
  induction apis as [|api apis IH]; intros [|r rs] Hlen; try discriminate Hlen;
    [reflexivity|].
  cbn [zip_with List.filter]. injection Hlen as Hlen. specialize (IH rs Hlen).
  assert (Hshown : shown f (card_of api r) = has_status s r).
  { unfold shown. destruct f; try discriminate Hf; rewrite Hf; reflexivity. }
  rewrite Hshown. destruct (has_status s r); cbn [length]; lia.
Qed.

Lemma shown_by_all apis :
  forall results,
    length results = length apis ->
    count_shown All (cards_after apis results) = Z.of_nat (length apis).
Proof.
  unfold count_shown, cards_after.
  induction apis as [|api apis IH]; intros [|r rs] Hlen; try discriminate Hlen;
    [reflexivity|].
  injection Hlen as Hlen. specialize (IH rs Hlen).
  cbn [zip_with List.filter shown statusForFilter length]. lia.
Qed.

Lemma known_statuses_add_up results :
  Forall known_status results ->
  (length (List.filter (has_status S_OK) results)
   + length (List.filter (has_status S_WARN) results)
   + length (List.filter (has_status S_DOWN) results))%nat = length results.
Proof.
  induction 1 as [|r rs Hr _ IH]; [reflexivity|].
  cbn [List.filter].
  assert (Hflags :
    (has_status S_OK r, has_status S_WARN r, has_status S_DOWN r) = (true, false, false) \/
    (has_status S_OK r, has_status S_WARN r, has_status S_DOWN r) = (false, true, false) \/
    (has_status S_OK r, has_status S_WARN r, has_status S_DOWN r) = (false, false, true)).
  { unfold has_status. destruct Hr as [Hs | [Hs | Hs]]; rewrite Hs; auto. }
  destruct Hflags as [[= -> -> ->] | [[= -> -> ->] | [= -> -> ->]]];
    cbn [length]; lia.
Qed.

(** X17. After a round of probes over services with distinct ids, the
    number on each stat card is the number of service cards its filter
    shows, the three numbers add up to the number of services, and the
    filter All shows every card. No probe makes the round fail. *)
Theorem stat_cards_agree_with_filters apis w :
  NoDup (api_id <$> apis) ->
  exists results,
    probe_all env apis w 0 = Some results /\
    length results = length apis /\
    let counts := tally results in
    let cards := cards_after apis results in
    stat counts S_OK = count_shown Operational cards /\
    stat counts S_WARN = count_shown Degraded cards /\
    stat counts S_DOWN = count_shown Down cards /\
    stat counts S_OK + stat counts S_WARN + stat counts S_DOWN = Z.of_nat (length apis) /\
    count_shown All cards = Z.of_nat (length apis).
Proof.
  intros _.
  destruct (probe_all_known apis w 0) as (results & Hrun & Hlen & Hknown).
  exists results. split; [exact Hrun|]. split; [exact Hlen|]. cbv zeta.
  rewrite !tally_stat.
  rewrite (shown_by_status Operational S_OK apis eq_refl results Hlen).
  rewrite (shown_by_status Degraded S_WARN apis eq_refl results Hlen).
  rewrite (shown_by_status Down S_DOWN apis eq_refl results Hlen).
  rewrite (shown_by_all apis results Hlen).
  pose proof (known_statuses_add_up results Hknown). repeat split; lia.
Qed.

End Probes.

(** *** The scenarios *)

Import Scenario.

Lemma probe_of_a_hanging_service :
  APIS !! 0%nat = Some usgs /\
  exists r w',
    probeApi env_hanging usgs empty_world = (Normal r, w') /\
    statusCode r = None /\ probe_status r = S_DOWN.
Proof.
  split; [reflexivity|].
  destruct (probe_reports_code_iff_response env_hanging usgs empty_world)
    as (r & w' & Hrun & _ & Hcode & _ & Hdown).
  assert (Hnone : statusCode r = None) by (apply Hcode; vm_compute; reflexivity).
  exists r, w'. split; [exact Hrun|]. split; [exact Hnone|exact (Hdown Hnone)].
Defined.

Lemma probe_of_a_garbled_body :
  exists r w',
    probeApi env_garbled usgs empty_world = (Normal r, w') /\
    probe_status r = S_DOWN /\
    probe_message r = "Failed to parse response".
Proof.
  destruct (probe_verdicts env_garbled usgs empty_world)
    as (r & w' & Hrun & _ & _ & Hgarbled).
  exists r, w'. split; [exact Hrun|].
  eapply Hgarbled; vm_compute; reflexivity.
Defined.

Lemma round_over_the_registry :
  exists results,
    probe_all env_garbled APIS empty_world 0 = Some results /\
    stat (tally results) S_DOWN = count_shown Down (cards_after APIS results) /\
    stat (tally results) S_OK + stat (tally results) S_WARN
      + stat (tally results) S_DOWN = 3.
Proof.
  destruct (stat_cards_agree_with_filters env_garbled APIS empty_world)
    as (results & Hrun & _ & _ & _ & Hdown & Hsum & _).
  - apply (bool_decide_unpack _). vm_compute. exact I.
  - exists results. split; [exact Hrun|]. split; [exact Hdown|exact Hsum].
Defined.

End ApiHealthFacts.

(** ** The hero banner *)

Module DashboardHeroFacts.
Import JsObject DashboardHero.

Lemma deliver_keeps_dot h e :
  0 <= readyCount h ->
  statusDot h = dot_for (readyCount h) ->
  0 <= readyCount (deliver h e) /\
  statusDot (deliver h e) = dot_for (readyCount (deliver h e)) /\
  readyCount (deliver h e) =
    match e with DataReady _ => readyCount h + 1 | Refresh => 0 end.
Proof.
  intros Hpos Hdot. destruct e as [now|]; cbn [deliver onDataReady onRefresh readyCount statusDot].
  - split; [lia|]. split; [|reflexivity].
    rewrite Hdot. unfold dot_for, TOTAL_SOURCES.
    destruct (3 <=? readyCount h + 1) eqn:Hnext; [|
      replace (3 <=? readyCount h) with false by lia; reflexivity].
    destruct (3 <=? readyCount h); reflexivity.
  - split; [lia|]. split; reflexivity.
Qed.

Lemma run_keeps_dot events :
  forall h,
    0 <= readyCount h ->
    statusDot h = dot_for (readyCount h) ->
    let h' := foldl deliver h events in
    0 <= readyCount h' /\
    statusDot h' = dot_for (readyCount h') /\
    readyCount h' =
      foldl (fun n e => match e with DataReady _ => n + 1 | Refresh => 0 end)
            (readyCount h) events.
Proof.
  induction events as [|e events IH]; intros h Hpos Hdot; cbn [foldl].
  - auto.
  - destruct (deliver_keeps_dot h e Hpos Hdot) as (Hpos' & Hdot' & Hcount).
    destruct (IH (deliver h e) Hpos' Hdot') as (H1 & H2 & H3).
    cbv zeta in *. split; [exact H1|]. split; [exact H2|].
    rewrite H3, Hcount. reflexivity.
Qed.

(** X18. Whatever reports and refreshes the page delivers, and in
    whatever order, the status dot of the hero carries exactly the classes
    [hero-status-dot ok] when three or more reports have come in since the
    last refresh and exactly [hero-status-dot loading] otherwise. The
    reports are counted, not their sources: three reports of one block
    turn the dot green. *)
Theorem hero_dot_follows_report_count events :
  let h := foldl deliver decorated events in
  readyCount h = reports_since_refresh events /\
  (TOTAL_SOURCES <= reports_since_refresh events ->
   statusDot h = ["hero-status-dot"; "ok"]) /\
  (reports_since_refresh events < TOTAL_SOURCES ->
   statusDot h = ["hero-status-dot"; "loading"]).
Proof.
  destruct (run_keeps_dot events decorated) as (_ & Hdot & Hcount);
    [cbn; lia|reflexivity|].
  cbv zeta. change (readyCount decorated) with 0 in Hcount.
  fold (reports_since_refresh events) in Hcount.
  split; [exact Hcount|]. rewrite Hdot, Hcount. unfold dot_for.
  split; intros H.
  - replace (TOTAL_SOURCES <=? reports_since_refresh events) with true by lia.
    reflexivity.
  - replace (TOTAL_SOURCES <=? reports_since_refresh events) with false by lia.
    reflexivity.
Qed.

Lemma three_reports_of_one_block :
  statusDot (foldl deliver decorated [Refresh; DataReady 10; DataReady 20; DataReady 30]) =
  ["hero-status-dot"; "ok"].
Proof.
  apply (hero_dot_follows_report_count [Refresh; DataReady 10; DataReady 20; DataReady 30]).
  vm_compute. discriminate.
Defined.

End DashboardHeroFacts.

(** ** Relative times *)

Module RelativeTimeFacts.
Import Js RelativeTime.

Lemma round_div_1000 a n :
  round_div a 1000 = n <-> 1000 * n - 500 <= a < 1000 * n + 500.
Proof. unfold round_div. Z.div_mod_to_equations. lia. Qed.

Lemma round_div_60 a n :
  round_div a 60 = n <-> 60 * n - 30 <= a < 60 * n + 30.
Proof. unfold round_div. Z.div_mod_to_equations. lia. Qed.

Lemma label_in_seconds now t n :
  10 <= n <= 59 ->
  round_div (now - t) 1000 = n ->
  fmtRelative now (Some t) = Words (Z_to_string n +:+ "s ago").
Proof.
  intros Hn Hsecs. unfold fmtRelative. rewrite Hsecs.
  replace (n <? 10) with false by lia. replace (n <? 60) with true by lia.
  reflexivity.
Qed.

Lemma label_in_minutes now t secs n :
  1 <= n <= 59 -> 60 <= secs ->
  round_div (now - t) 1000 = secs ->
  round_div secs 60 = n ->
  fmtRelative now (Some t) =
    Words (Z_to_string n +:+ " minute" +:+ plural n +:+ " ago").
Proof.
  intros Hn H60 Hsecs Hmins. unfold fmtRelative. rewrite Hsecs.
  replace (secs <? 10) with false by lia. replace (secs <? 60) with false by lia.
  rewrite Hmins. replace (n <? 60) with true by lia. reflexivity.
Qed.

Lemma label_in_hours now t secs mins n :
  60 <= secs -> 60 <= mins ->
  round_div (now - t) 1000 = secs ->
  round_div secs 60 = mins ->
  round_div mins 60 = n ->
  fmtRelative now (Some t) =
    Words (Z_to_string n +:+ " hour" +:+ plural n +:+ " ago").
Proof.
  intros H60 Hm60 Hsecs Hmins Hhrs. unfold fmtRelative. rewrite Hsecs.
  replace (secs <? 10) with false by lia. replace (secs <? 60) with false by lia.
  rewrite Hmins. replace (mins <? 60) with false by lia.
  rewrite Hhrs. reflexivity.
Qed.

(** X19. For a date that is given, the age in milliseconds decides the
    label, and every age falls in exactly one of these ranges: below 9500
    (dates in the future included) it is "just now"; from 9500 up to
    59500 it is the age rounded to whole seconds, 10 to 59; from 59500 up
    to 89500 it is "1 minute ago"; then [n] minutes, 2 to 59, for ages
    from [60000 n - 30500] up to [60000 n + 29500]; from 3569500 up to
    5369500 it is "1 hour ago"; then [n] hours, 2 and more, for ages from
    [3600000 n - 1830500] up to [3600000 n + 1769500]. So the label never
    reads 0 minutes, 60 minutes or 0 hours, the unit is in the singular
    exactly for the number 1; minutes are rounded from rounded seconds and
    hours from rounded minutes, so "1 minute" gives way to "2 minutes" at
    89.5 s, not at 90 s. *)
Theorem fmtRelative_ranges now t :
  let age := now - t in
  let label := fmtRelative now (Some t) in
  (age < 9500 -> label = Words "just now") /\
  (forall n, 10 <= n <= 59 ->
     1000 * n - 500 <= age < 1000 * n + 500 ->
     label = Words (Z_to_string n +:+ "s ago")) /\
  (59500 <= age < 89500 -> label = Words "1 minute ago") /\
  (forall n, 2 <= n <= 59 ->
     60000 * n - 30500 <= age < 60000 * n + 29500 ->
     label = Words (Z_to_string n +:+ " minutes ago")) /\
  (3569500 <= age < 5369500 -> label = Words "1 hour ago") /\
  (forall n, 2 <= n ->
     3600000 * n - 1830500 <= age < 3600000 * n + 1769500 ->
     label = Words (Z_to_string n +:+ " hours ago")).
Proof.
  cbv zeta.
  split; [|split; [|split; [|split; [|split]]]].
  - intros Hage. unfold fmtRelative.
    replace (round_div (now - t) 1000 <? 10) with true; [reflexivity|].
    symmetry. apply Z.ltb_lt. unfold round_div. Z.div_mod_to_equations. lia.
  - intros n Hn Hage. apply label_in_seconds; [exact Hn|].
    apply round_div_1000. exact Hage.
  - intros Hage.
    rewrite (label_in_minutes now t (round_div (now - t) 1000) 1); try reflexivity.
    + lia.
    + unfold round_div. Z.div_mod_to_equations. lia.
    + apply round_div_60. unfold round_div. Z.div_mod_to_equations. lia.
  - intros n Hn Hage.
    rewrite (label_in_minutes now t (round_div (now - t) 1000) n); try reflexivity.
    + unfold plural. replace (n =? 1) with false by lia. reflexivity.
    + lia.
    + unfold round_div. Z.div_mod_to_equations. lia.
    + apply round_div_60. unfold round_div. Z.div_mod_to_equations. lia.
  - intros Hage.
    rewrite (label_in_hours now t (round_div (now - t) 1000)
               (round_div (round_div (now - t) 1000) 60) 1); try reflexivity.
    + unfold round_div. Z.div_mod_to_equations. lia.
    + unfold round_div. Z.div_mod_to_equations. lia.
    + apply round_div_60. unfold round_div. Z.div_mod_to_equations. lia.
  - intros n Hn Hage.
    rewrite (label_in_hours now t (round_div (now - t) 1000)
               (round_div (round_div (now - t) 1000) 60) n); try reflexivity.
    + unfold plural. replace (n =? 1) with false by lia. reflexivity.
    + unfold round_div. Z.div_mod_to_equations. lia.
    + unfold round_div. Z.div_mod_to_equations. lia.
    + apply round_div_60. unfold round_div. Z.div_mod_to_equations. lia.
Qed.

(** Checked 89.4 s, 89.5 s and 59 min 29.4 s after the date. *)
Lemma labels_around_the_minute :
  fmtRelative 89499 (Some 0) = Words "1 minute ago" /\
  fmtRelative 89500 (Some 0) = Words "2 minutes ago" /\
  fmtRelative 3569499 (Some 0) = Words "59 minutes ago" /\
  fmtRelative 3569500 (Some 0) = Words "1 hour ago".
Proof.
  destruct (fmtRelative_ranges 89499 0) as (_ & _ & Hone & _).
  destruct (fmtRelative_ranges 89500 0) as (_ & _ & _ & Htwo & _).
  destruct (fmtRelative_ranges 3569499 0) as (_ & _ & _ & Hlast & _).
  destruct (fmtRelative_ranges 3569500 0) as (_ & _ & _ & _ & Hhour & _).
  split; [|split; [|split]].
  - apply Hone. lia.
  - apply (Htwo 2); lia.
  - apply (Hlast 59); lia.
  - apply Hhour. lia.
Defined.

End RelativeTimeFacts.

(** ** The severity counts of the blocks *)

Module CountsFacts.
Import DashboardEvents.

Lemma at_least_weaker (f : EarthquakeFeed.Feature) :
  EarthquakeFeed.at_least 5 f = true -> EarthquakeFeed.at_least (5 # 2) f = true.
Proof.
  unfold EarthquakeFeed.at_least. intros H.
  apply Qle_bool_iff in H. apply Qle_bool_iff.
  eapply Qle_trans; [|exact H]. discriminate.
Qed.

Lemma severity_fold features :
  forall acc,
    let c := foldl (fun acc f =>
                      EarthquakeFeed.bump acc
                        (EarthquakeFeed.severityClass (default 0%Q (EarthquakeFeed.mag f))))
                   acc features in
    critical c = critical acc
                 + Z.of_nat (length (List.filter (EarthquakeFeed.at_least 5) features)) /\
    critical c + warn c = critical acc + warn acc
                 + Z.of_nat (length (List.filter (EarthquakeFeed.at_least (5 # 2)) features)) /\
    critical c + warn c + ok c = critical acc + warn acc + ok acc
                 + Z.of_nat (length features).
Proof.
  induction features as [|f fs IH]; intros acc; cbn [foldl List.filter length].
  - cbv zeta. lia.
  - set (acc' := EarthquakeFeed.bump acc
                   (EarthquakeFeed.severityClass (default 0%Q (EarthquakeFeed.mag f)))).
    specialize (IH acc'). cbv zeta in *.
    set (c := foldl _ acc' fs) in *. destruct IH as (H1 & H2 & H3).
    pose proof (at_least_weaker f) as Hweak.
    assert (Hacc :
      critical acc' = critical acc + (if EarthquakeFeed.at_least 5 f then 1 else 0) /\
      critical acc' + warn acc' =
        critical acc + warn acc + (if EarthquakeFeed.at_least (5 # 2) f then 1 else 0) /\
      critical acc' + warn acc' + ok acc' = critical acc + warn acc + ok acc + 1).
    { unfold acc', EarthquakeFeed.severityClass. unfold EarthquakeFeed.at_least in *.
      destruct (Qle_bool 5 (default 0%Q (EarthquakeFeed.mag f))) eqn:H5.
      - rewrite (Hweak eq_refl). cbn. lia.
      - destruct (Qle_bool (5 # 2) (default 0%Q (EarthquakeFeed.mag f))); cbn; lia. }
    destruct Hacc as (A1 & A2 & A3).
    destruct (EarthquakeFeed.at_least 5 f), (EarthquakeFeed.at_least (5 # 2) f);
      cbn [length]; lia.
Qed.

Lemma strong_are_fewer features :
  (length (List.filter (EarthquakeFeed.at_least 5) features)
   <= length (List.filter (EarthquakeFeed.at_least (5 # 2)) features))%nat.
Proof.
  induction features as [|f fs IH]; [reflexivity|]. cbn [List.filter].
  pose proof (at_least_weaker f) as Hweak.
  destruct (EarthquakeFeed.at_least 5 f).
  - rewrite (Hweak eq_refl). cbn [length]. lia.
  - destruct (EarthquakeFeed.at_least (5 # 2) f); cbn [length]; lia.
Qed.

(** X20. The counts the earthquake block reports split the features of
    the feed three ways without loss: [critical] is the number of features
    of magnitude 5 or more, [critical + warn] the number of those of
    magnitude 2.5 or more, and the three counts add up to the number of
    features, a feature without magnitude counting as one of magnitude
    0. *)
Theorem earthquake_counts_partition features :
  let c := EarthquakeFeed.severity_counts features in
  critical c = Z.of_nat (length (List.filter (EarthquakeFeed.at_least 5) features)) /\
  critical c + warn c =
    Z.of_nat (length (List.filter (EarthquakeFeed.at_least (5 # 2)) features)) /\
  critical c + warn c + ok c = Z.of_nat (length features) /\
  0 <= critical c /\ 0 <= warn c /\ 0 <= ok c.
Proof.
  destruct (severity_fold features {| critical := 0; warn := 0; ok := 0 |})
    as (H1 & H2 & H3).
  fold (EarthquakeFeed.severity_counts features) in H1, H2, H3.
  cbn [critical warn ok] in H1, H2, H3. cbv zeta.
  pose proof (strong_are_fewer features) as Hsub.
  pose proof (List.filter_length_le (EarthquakeFeed.at_least (5 # 2)) features).
  repeat split; lia.
Qed.

Lemma critical_fold events :
  forall acc,
    foldl (fun acc ev => if EonetEvents.is_critical ev then acc + 1 else acc) acc events =
    acc + Z.of_nat (length (List.filter EonetEvents.is_critical events)).
Proof.
  induction events as [|ev evs IH]; intros acc; cbn [foldl List.filter length].
  - lia.
  - rewrite IH. destruct (EonetEvents.is_critical ev); cbn [length]; lia.
Qed.

Lemma starts_with_prefix prefix s :
  EonetEvents.starts_with prefix s = true <-> exists rest, s = prefix +:+ rest.
Proof.
  revert s. induction prefix as [|a prefix IH]; intros s.
  - split; [intros _; exists s; rewrite JsFacts.append_empty_l; reflexivity|reflexivity].
  - destruct s as [|b s]; cbn [EonetEvents.starts_with].
    + split; [discriminate|]. intros [rest H].
      rewrite JsFacts.append_String in H. discriminate H.
    + rewrite andb_true_iff, Ascii.eqb_eq, IH. split.
      * intros [Hab [rest Hs]]. subst b s. exists rest.
        rewrite JsFacts.append_String. reflexivity.
      * intros [rest H]. rewrite JsFacts.append_String in H.
        injection H as Hb Hs. split; [symmetry; exact Hb|]. exists rest. exact Hs.
Qed.

Lemma includes_unfold s sub :
  EonetEvents.includes s sub =
    EonetEvents.starts_with sub s ||
    match s with
    | EmptyString => false
    | String _ rest => EonetEvents.includes rest sub
    end.
Proof. destruct s; reflexivity. Qed.

(** [s.includes(sub)] holds exactly when [sub] occurs somewhere in [s]. *)
Lemma includes_occurs s sub :
  EonetEvents.includes s sub = true <->
  exists before after, s = before +:+ sub +:+ after.
Proof.
  split.
  - induction s as [|c s IH]; rewrite includes_unfold, orb_true_iff.
    + intros [H|H]; [|discriminate H].
      apply starts_with_prefix in H as [rest H].
      exists "", rest. rewrite JsFacts.append_empty_l. exact H.
    + intros [H|H].
      * apply starts_with_prefix in H as [rest H].
        exists "", rest. rewrite JsFacts.append_empty_l. exact H.
      * destruct (IH H) as (before & after & ->).
        exists (String c before), after. rewrite JsFacts.append_String. reflexivity.
  - intros (before & after & ->).
    induction before as [|c before IH].
    + rewrite JsFacts.append_empty_l, includes_unfold.
      replace (EonetEvents.starts_with sub (sub +:+ after)) with true; [reflexivity|].
      symmetry. apply starts_with_prefix. exists after. reflexivity.
    + rewrite JsFacts.append_String, includes_unfold, IH. apply orb_true_r.
Qed.

(** Which events count as critical: those whose first category has a
    title that, put in lower case, contains one of the four words. *)
Lemma is_critical_iff ev :
  EonetEvents.is_critical ev = true <->
  exists title kind before after,
    EonetEvents.category ev = Some title /\
    (kind = "wildfires" \/ kind = "severe storms" \/
     kind = "volcanoes" \/ kind = "floods") /\
    ApiHealth.toLowerCase title = before +:+ kind +:+ after.
Proof.
  unfold EonetEvents.is_critical, EonetEvents.CRITICAL_CATS.
  cbn [existsb]. rewrite !orb_true_iff, !includes_occurs. split.
  - destruct (EonetEvents.category ev) as [title|].
    + intros H. exists title.
      destruct H as [(b & a & H)|[(b & a & H)|[(b & a & H)|[(b & a & H)|H]]]];
        [exists "wildfires", b, a | exists "severe storms", b, a
        | exists "volcanoes", b, a | exists "floods", b, a | discriminate H];
        split; try reflexivity; split; try exact H; tauto.
    + intros H.
      destruct H as [(b & a & H)|[(b & a & H)|[(b & a & H)|[(b & a & H)|H]]]];
        try discriminate H;
        destruct b; try discriminate H;
        rewrite JsFacts.append_empty_l, JsFacts.append_String in H; discriminate H.
  - intros (title & kind & b & a & -> & Hkind & H).
    destruct Hkind as [Hk|[Hk|[Hk|Hk]]]; subst kind; eauto 10.
Qed.

(** X21. The counts the EONET block reports never have an [ok] part.
    [critical] is the number of critical events, and an event is critical
    exactly when it has a first category whose title, put in lower case,
    contains "wildfires", "severe storms", "volcanoes" or "floods"
    somewhere; an event without category is not. [warn] is the number of
    all other events; neither count is negative. *)
Theorem eonet_counts_partition events :
  let c := EonetEvents.event_counts events in
  critical c = Z.of_nat (length (List.filter EonetEvents.is_critical events)) /\
  (forall ev,
     EonetEvents.is_critical ev = true <->
     exists title kind before after,
       EonetEvents.category ev = Some title /\
       (kind = "wildfires" \/ kind = "severe storms" \/
        kind = "volcanoes" \/ kind = "floods") /\
       ApiHealth.toLowerCase title = before +:+ kind +:+ after) /\
  warn c = Z.of_nat (length events) - critical c /\
  ok c = 0 /\
  0 <= critical c /\ 0 <= warn c.
Proof.
  unfold EonetEvents.event_counts. cbn [critical warn ok]. cbv zeta.
  rewrite critical_fold.
  pose proof (List.filter_length_le EonetEvents.is_critical events).
  split; [lia|]. split; [exact is_critical_iff|].
  repeat split; lia.
Qed.

(** Of a wildfire, sea ice and an event without category, one is
    critical and two are not; "Wildfires" counts whatever its case. *)
Lemma one_critical_of_three :
  critical (EonetEvents.event_counts Feeds.open_events) = 1 /\
  warn (EonetEvents.event_counts Feeds.open_events) = 2 /\
  ok (EonetEvents.event_counts Feeds.open_events) = 0 /\
  EonetEvents.is_critical (EonetEvents.mkEvent "EONET_9" (Some "Active WILDFIRES")) = true.
Proof.
  destruct (eonet_counts_partition Feeds.open_events) as (Hc & Hwhich & Hw & Ho & _).
  split; [|split; [|split]].
  - rewrite Hc. reflexivity.
  - rewrite Hw, Hc. reflexivity.
  - exact Ho.
  - apply Hwhich. exists "Active WILDFIRES", "wildfires", "active ", "".
    split; [reflexivity|]. split; [left; reflexivity|reflexivity].
Defined.

End CountsFacts.

(** ** The summary pills *)

Module StatusSummaryFacts.
Import Js JsObject DashboardEvents StatusSummary.

Lemma modifier_cases m :
  m ∈ modifiers ->
  m = "summary-pill--loading" \/ m = "summary-pill--ok" \/ m = "summary-pill--warn" \/
  m = "summary-pill--critical" \/ m = "summary-pill--error".
Proof.
  unfold modifiers. rewrite !elem_of_cons, elem_of_nil. tauto.
Qed.

Lemma clear_well_formed pill :
  well_formed pill -> clear_modifiers (classes pill) = ["summary-pill"].
Proof.
  intros (m & Hm & ->).
  destruct (modifier_cases m Hm) as [-> | [-> | [-> | [-> | ->]]]]; reflexivity.
Qed.

Lemma well_formed_showing modifier text :
  "summary-pill--" +:+ modifier ∈ modifiers -> well_formed (pill_showing modifier text).
Proof. intros Hm. eexists. split; [exact Hm|reflexivity]. Qed.

Lemma report_with_counts id c err pills pill :
  id <> "" ->
  pills !! id = Some pill ->
  well_formed pill ->
  onDataReady (Some {| source := id; counts := Some c; error := err |}) pills =
    Some (<[id := pill_for (label_of id) c]> pills).
Proof.
  intros Hid Hpill Hwf. unfold onDataReady. cbn [source counts error].
  destruct (String.eqb_spec id "") as [->|_]; [contradiction|].
  rewrite Hpill, (clear_well_formed pill Hwf), andb_false_r.
  unfold pill_for. cbn [default from_option Datatypes.id].
  destruct (0 <? critical c); [reflexivity|].
  destruct (0 <? warn c); reflexivity.
Qed.

Lemma modifier_listed m :
  m = "summary-pill--loading" \/ m = "summary-pill--ok" \/ m = "summary-pill--warn" \/
  m = "summary-pill--critical" \/ m = "summary-pill--error" ->
  m ∈ modifiers.
Proof.
  unfold modifiers. rewrite !elem_of_cons, elem_of_nil. tauto.
Qed.

Ltac one_modifier :=
  eexists; split; [apply modifier_listed|reflexivity]; tauto.

Lemma initial_pills_unfold :
  initial_pills =
    <["earthquakes" := loading_pill "earthquakes"]>
      (<["eonet" := loading_pill "eonet"]>
         (<["firms" := loading_pill "firms"]> ∅)).
Proof. reflexivity. Qed.

Lemma in_order_initial : in_order initial_pills.
Proof.
  rewrite initial_pills_unfold. split.
  - intros id.
    rewrite !lookup_insert_is_Some'.
    cbn [fmap list_fmap sources fst]. rewrite !elem_of_cons, elem_of_nil.
    pose proof (lookup_empty_is_Some (M := gmap string) (A := Pill) id) as Hempty.
    split; intros H; repeat destruct H as [H|H]; subst; auto; contradiction.
  - intros id pill.
    rewrite !lookup_insert. repeat case_decide; try (rewrite lookup_empty; discriminate);
      intros [= <-]; one_modifier.
Qed.

Lemma in_order_insert pills id pill :
  in_order pills ->
  is_Some (pills !! id) ->
  well_formed pill ->
  in_order (<[id := pill]> pills).
Proof.
  intros [Hdom Hwf] Hid Hpill. split.
  - intros id'. rewrite lookup_insert_is_Some', <- Hdom.
    split; [intros [<-|H]; auto|auto].
  - intros id' pill'. rewrite lookup_insert. case_decide.
    + intros [= <-]. exact Hpill.
    + apply Hwf.
Qed.

Lemma in_order_onDataReady detail pills pills' :
  in_order pills ->
  onDataReady detail pills = Some pills' ->
  in_order pills'.
Proof.
  intros Hin. unfold onDataReady.
  destruct detail as [d|]; [|intros [= <-]; exact Hin].
  destruct (String.eqb (source d) ""); [intros [= <-]; exact Hin|].
  destruct (pills !! source d) as [pill|] eqn:Hpill.
  - assert (Hwf : well_formed pill) by exact (proj2 Hin _ _ Hpill).
    assert (Hsome : is_Some (pills !! source d)) by (rewrite Hpill; eauto).
    rewrite (clear_well_formed pill Hwf).
    destruct (truthy_text (error d) && _);
      [|destruct (0 <? critical _); [|destruct (0 <? warn _)]];
      intros [= <-]; apply in_order_insert; auto; one_modifier.
  - destruct (inherited (source d)); [discriminate|]. intros [= <-]. exact Hin.
Qed.

Lemma in_order_onRefresh pills : in_order pills -> in_order (onRefresh pills).
Proof.
  intros [Hdom Hwf]. unfold onRefresh. split.
  - intros id. rewrite <- Hdom, map_lookup_imap.
    destruct (pills !! id); cbn; split; intros [? H]; eauto; discriminate H.
  - intros id pill. rewrite map_lookup_imap.
    destruct (pills !! id); cbn; [|discriminate]. intros [= <-]. one_modifier.
Qed.

Lemma in_order_deliver pills e : in_order pills -> in_order (deliver pills e).
Proof.
  intros Hin. destruct e as [detail|]; cbn [deliver].
  - destruct (onDataReady detail pills) as [pills'|] eqn:Hrun; cbn; [|exact Hin].
    exact (in_order_onDataReady detail pills pills' Hin Hrun).
  - apply in_order_onRefresh. exact Hin.
Qed.

(** X22. Whatever events reach the summary and in whatever order, also
    events without detail, from unknown sources or from a source named
    like a built-in property of objects (whose listener throws), the
    banner keeps its three pills and each of them carries the base class
    and exactly one of the five modifiers. *)
Theorem pills_stay_in_order events :
  let pills := foldl deliver initial_pills events in
  (forall id, is_Some (pills !! id) <->
     id = "earthquakes" \/ id = "eonet" \/ id = "firms") /\
  (forall id pill, pills !! id = Some pill ->
     exists m, m ∈ modifiers /\ classes pill = ["summary-pill"; m]).
Proof.
  assert (Hrun : forall pills, in_order pills -> in_order (foldl deliver pills events)).
  { induction events as [|e events IH]; intros pills Hin; [exact Hin|].
    cbn [foldl]. apply IH. apply in_order_deliver. exact Hin. }
  destruct (Hrun initial_pills in_order_initial) as [Hdom Hwf].
  cbv zeta. split; [|exact Hwf].
  intros id. rewrite Hdom. cbn. rewrite !elem_of_cons, elem_of_nil. tauto.
Qed.

End StatusSummaryFacts.

(** ** From a block's report to its pill *)

Module ReportFacts.
Import Js JsObject DashboardEvents StatusSummary StatusSummaryFacts CountsFacts.

(** X23. When the earthquake block reports, its pill turns
    critical if some feature has magnitude 5 or more, showing how many
    do; otherwise it turns to warn if some feature has magnitude 2.5 or
    more, and the number it shows with the word "events" counts those
    features only; it is ok only when no feature reaches 2.5, and then
    shows the number of all features. No other pill changes. *)
Theorem earthquake_report_sets_pill features pills pill :
  pills !! "earthquakes" = Some pill ->
  well_formed pill ->
  let n5 := count_where (EarthquakeFeed.at_least 5) features in
  let n25 := count_where (EarthquakeFeed.at_least (5 # 2)) features in
  exists pill',
    deliver pills (DataReady (Some (EarthquakeFeed.report features))) =
      <["earthquakes" := pill']> pills /\
    (0 < n5 ->
     pill' = pill_showing "critical"
               ("Earthquakes: " +:+ Z_to_string n5 +:+ " critical")) /\
    (n5 = 0 -> 0 < n25 ->
     pill' = pill_showing "warn"
               ("Earthquakes: " +:+ Z_to_string n25 +:+ " events")) /\
    (n25 = 0 ->
     pill' = pill_showing "ok"
               ("Earthquakes: " +:+ Z_to_string (Z.of_nat (length features))
                +:+ " events")).
Proof.
  intros Hpill Hwf n5 n25.
  exists (pill_for "Earthquakes" (EarthquakeFeed.severity_counts features)).
  split.
  { cbn [deliver]. unfold EarthquakeFeed.report.
    rewrite (report_with_counts "earthquakes" _ None pills pill); auto; discriminate. }
  destruct (severity_fold features {| critical := 0; warn := 0; ok := 0 |})
    as (H1 & H2 & H3).
  fold (EarthquakeFeed.severity_counts features) in H1, H2, H3.
  cbn [critical warn ok] in H1, H2, H3.
  pose proof (strong_are_fewer features) as Hsub.
  set (c := EarthquakeFeed.severity_counts features) in *.
  unfold count_where in n5, n25.
  assert (E5 : critical c = n5) by (unfold n5; lia).
  assert (E25 : critical c + warn c = n25) by (unfold n25; lia).
  assert (Hle : n5 <= n25) by (unfold n5, n25; lia).
  assert (Hpos : 0 <= n5) by (unfold n5; lia).
  unfold pill_for. split; [|split].
  - intros H. replace (0 <? critical c) with true by lia. rewrite E5. reflexivity.
  - intros H0 H. replace (0 <? critical c) with false by lia.
    replace (0 <? warn c) with true by lia.
    replace (warn c) with n25 by lia. reflexivity.
  - intros H0. replace (0 <? critical c) with false by lia.
    replace (0 <? warn c) with false by lia.
    replace (critical c + warn c + ok c) with (Z.of_nat (length features)) by lia.
    reflexivity.
Qed.

(** X24. When the EONET block reports, its pill turns critical if some
    event is of a critical kind, showing how many are; otherwise it turns
    to warn as soon as there is any event at all, showing their number;
    it is ok only when the list of events is empty. *)
Theorem eonet_report_sets_pill events pills pill :
  pills !! "eonet" = Some pill ->
  well_formed pill ->
  let nc := count_where EonetEvents.is_critical events in
  exists pill',
    deliver pills (DataReady (Some (EonetEvents.report events))) =
      <["eonet" := pill']> pills /\
    (0 < nc ->
     pill' = pill_showing "critical"
               ("EONET Events: " +:+ Z_to_string nc +:+ " critical")) /\
    (nc = 0 -> events <> [] ->
     pill' = pill_showing "warn"
               ("EONET Events: " +:+ Z_to_string (Z.of_nat (length events))
                +:+ " events")) /\
    (events = [] ->
     pill' = pill_showing "ok" ("EONET Events: " +:+ Z_to_string 0 +:+ " events")).
Proof.
  intros Hpill Hwf nc.
  exists (pill_for "EONET Events" (EonetEvents.event_counts events)).
  split.
  { cbn [deliver]. unfold EonetEvents.report.
    rewrite (report_with_counts "eonet" _ None pills pill); auto; discriminate. }
  unfold pill_for, EonetEvents.event_counts. cbn [critical warn ok].
  rewrite critical_fold. unfold count_where in nc. fold nc.
  pose proof (List.filter_length_le EonetEvents.is_critical events) as Hle.
  assert (Hpos : 0 <= nc <= Z.of_nat (length events)) by (unfold nc; lia).
  split; [|split].
  - intros H. replace (0 <? 0 + nc) with true by lia.
    replace (0 + nc) with nc by lia. reflexivity.
  - intros H0 Hne. replace (0 <? 0 + nc) with false by lia.
    assert (0 < Z.of_nat (length events)) by (destruct events; [contradiction|cbn; lia]).
    replace (0 <? Z.of_nat (length events) - (0 + nc)) with true by lia.
    replace (Z.of_nat (length events) - (0 + nc)) with (Z.of_nat (length events)) by lia.
    reflexivity.
  - intros ->. reflexivity.
Qed.

Lemma two_strong_quakes :
  exists pill',
    deliver initial_pills (DataReady (Some (EarthquakeFeed.report Feeds.quakes))) =
      <["earthquakes" := pill']> initial_pills /\
    pill' = pill_showing "critical" "Earthquakes: 2 critical".
Proof.
  destruct (earthquake_report_sets_pill Feeds.quakes initial_pills
              (loading_pill "earthquakes") eq_refl)
    as (pill' & Hrun & Hcritical & _).
  - exists "summary-pill--loading". split; [|reflexivity].
    apply elem_of_cons. left. reflexivity.
  - exists pill'. split; [exact Hrun|].
    rewrite Hcritical; [reflexivity|]. vm_compute. reflexivity.
Defined.

Lemma one_wildfire_among_three :
  exists pill',
    deliver initial_pills (DataReady (Some (EonetEvents.report Feeds.open_events))) =
      <["eonet" := pill']> initial_pills /\
    pill' = pill_showing "critical" "EONET Events: 1 critical".
Proof.
  destruct (eonet_report_sets_pill Feeds.open_events initial_pills
              (loading_pill "eonet") eq_refl)
    as (pill' & Hrun & Hcritical & _).
  - exists "summary-pill--loading". split; [|reflexivity].
    apply elem_of_cons. left. reflexivity.
  - exists pill'. split; [exact Hrun|].
    rewrite Hcritical; [reflexivity|]. vm_compute. reflexivity.
Defined.

End ReportFacts.

(** ** Grouping the EONET events *)

Module GroupFacts.
Import Js JsObject EonetEvents.

Lemma foldl_group_step_None events : foldl group_step None events = None.
Proof. induction events as [|ev evs IH]; [reflexivity|exact IH]. Qed.

Lemma in_category_iff cat ev :
  in_category cat ev = true <-> default "Other" (category ev) = cat.
Proof. unfold in_category. apply String.eqb_eq. Qed.

Lemma group_step_pushes g ev :
  let cat := default "Other" (category ev) in
  (forall c, inherited c = true -> g !! c = None) ->
  inherited cat = false ->
  group_step (Some g) ev = Some (<[cat := default [] (g !! cat) ++ [ev]]> g).
Proof.
  intros cat Hg Hcat. unfold group_step. fold cat.
  destruct (g !! cat) as [members|]; [reflexivity|].
  rewrite Hcat. reflexivity.
Qed.

Lemma group_step_throws g ev :
  (forall c, inherited c = true -> g !! c = None) ->
  inherited (default "Other" (category ev)) = true ->
  group_step (Some g) ev = None.
Proof.
  intros Hg Hcat. unfold group_step. rewrite (Hg _ Hcat), Hcat. reflexivity.
Qed.

Lemma group_fold events :
  forall g0,
    (forall c, inherited c = true -> g0 !! c = None) ->
    match foldl group_step (Some g0) events with
    | None =>
        exists ev, ev ∈ events /\ inherited (default "Other" (category ev)) = true
    | Some g =>
        (forall ev, ev ∈ events -> inherited (default "Other" (category ev)) = false) /\
        (forall cat,
           default [] (g !! cat) =
             default [] (g0 !! cat) ++ List.filter (in_category cat) events) /\
        (forall cat,
           is_Some (g !! cat) <->
           is_Some (g0 !! cat) \/
           exists ev, ev ∈ events /\ default "Other" (category ev) = cat)
    end.
Proof.
  induction events as [|ev evs IH]; intros g0 Hg0.
  - cbn [foldl List.filter]. split; [|split].
    + intros ev Hev. apply elem_of_nil in Hev. contradiction.
    + intros cat. rewrite app_nil_r. reflexivity.
    + intros cat. split; [left; assumption|].
      intros [H|(ev & Hev & _)]; [assumption|].
      apply elem_of_nil in Hev. contradiction.
  - cbn [foldl].
    destruct (inherited (default "Other" (category ev))) eqn:Hcat.
    + rewrite (group_step_throws g0 ev Hg0 Hcat), foldl_group_step_None.
      exists ev. split; [apply elem_of_cons; left; reflexivity|assumption].
    + rewrite (group_step_pushes g0 ev Hg0 Hcat).
      set (c := default "Other" (category ev)) in *.
      set (g1 := <[c := default [] (g0 !! c) ++ [ev]]> g0).
      assert (Hg1 : forall c', inherited c' = true -> g1 !! c' = None).
      { intros c' Hc'. unfold g1.
        rewrite lookup_insert_ne; [apply Hg0; assumption|].
        intros ->. rewrite Hcat in Hc'. discriminate. }
      specialize (IH g1 Hg1).
      destruct (foldl group_step (Some g1) evs) as [g|].
      * destruct IH as (Hnone & Hlist & Hdom). split; [|split].
        -- intros ev' Hev'. apply elem_of_cons in Hev' as [->|Hev'];
             [assumption|apply Hnone; assumption].
        -- intros cat. rewrite Hlist. cbn [List.filter].
           destruct (in_category cat ev) eqn:Hin.
           ++ apply in_category_iff in Hin. fold c in Hin. subst cat.
              unfold g1. rewrite lookup_insert_eq. cbn [from_option]. unfold id.
              rewrite <- app_assoc. reflexivity.
           ++ assert (c <> cat) as Hne.
              { intros Heq. apply in_category_iff in Heq. rewrite Heq in Hin.
                discriminate. }
              unfold g1. rewrite lookup_insert_ne by assumption. reflexivity.
        -- intros cat. rewrite Hdom. unfold g1.
           destruct (String.eqb_spec c cat) as [Heq|Hne].
           ++ subst cat. rewrite lookup_insert_eq. split.
              ** intros _. right. exists ev. split; [apply elem_of_cons; left|]; reflexivity.
              ** intros _. left. eexists. reflexivity.
           ++ rewrite lookup_insert_ne by assumption. split.
              ** intros [H|(ev' & Hev' & Hc')]; [left; assumption|].
                 right. exists ev'. split; [apply elem_of_cons; right|]; assumption.
              ** intros [H|(ev' & Hev' & Hc')]; [left; assumption|].
                 apply elem_of_cons in Hev' as [->|Hev'].
                 --- contradiction.
                 --- right. exists ev'. split; assumption.
      * destruct IH as (ev' & Hev' & Hc'). exists ev'.
        split; [apply elem_of_cons; right|]; assumption.
Qed.

(** X25. [groupByCategory] throws exactly when some event's first
    category (or "Other" when it has none) is the name of a property
    that every object inherits, such as "constructor". Otherwise the
    groups it returns are keyed by exactly the categories that occur,
    and each group lists the events of that category, all of them, in
    the order of the feed; no group is empty. *)
Theorem groupByCategory_groups events :
  (groupByCategory events = None <->
   exists ev, ev ∈ events /\ inherited (default "Other" (category ev)) = true) /\
  (forall groups, groupByCategory events = Some groups ->
     forall cat,
       default [] (groups !! cat) = List.filter (in_category cat) events /\
       (is_Some (groups !! cat) <->
        exists ev, ev ∈ events /\ default "Other" (category ev) = cat) /\
       groups !! cat <> Some []).
Proof.
  unfold groupByCategory.
  assert (Hempty : forall c, inherited c = true ->
                             (∅ : gmap string (list Event)) !! c = None)
    by (intros c _; apply lookup_empty).
  pose proof (group_fold events ∅ Hempty) as Hfold.
  destruct (foldl group_step (Some ∅) events) as [g|].
  - destruct Hfold as (Hnone & Hlist & Hdom). split.
    + split; [discriminate|]. intros (ev & Hev & Hc).
      rewrite (Hnone ev Hev) in Hc. discriminate.
    + intros groups [= <-] cat.
      assert (Hl : default [] (g !! cat) = List.filter (in_category cat) events).
      { rewrite Hlist, lookup_empty. reflexivity. }
      assert (Hd : is_Some (g !! cat) <->
                   exists ev, ev ∈ events /\ default "Other" (category ev) = cat).
      { rewrite Hdom. split; [|intros H; right; assumption].
        intros [H|H]; [|assumption].
        rewrite lookup_empty in H. destruct H as [x H]. discriminate. }
      split; [assumption|]. split; [assumption|].
      intros Hnil.
      assert (is_Some (g !! cat)) as Hsome by (rewrite Hnil; eexists; reflexivity).
      apply Hd in Hsome as (ev & Hev & Hc).
      rewrite Hnil in Hl. cbn [from_option] in Hl. unfold id in Hl.
      apply list_elem_of_In in Hev.
      assert (In ev (List.filter (in_category cat) events)) as Hin.
      { apply List.filter_In. split; [assumption|]. apply in_category_iff. assumption. }
      rewrite <- Hl in Hin. destruct Hin.
  - split; [|discriminate]. split; [intros _; assumption|reflexivity].
Qed.

End GroupFacts.

(** ** What every answer of the proxy carries *)

Module FirmsProxyMore.
Import Js FirmsProxy.

(** X14. Whatever the request and whatever the upstream does, the answer
    of [onRequestGet] allows every origin and declares a JSON body; it
    carries a [Cache-Control] header exactly when its body is the array
    of records, so no error answer is marked as cacheable. *)
Theorem proxy_headers_by_outcome fetch_upstream request :
  let response := onRequestGet fetch_upstream request in
  ("Access-Control-Allow-Origin", "*") ∈ headers response /\
  ("Content-Type", "application/json") ∈ headers response /\
  ((exists v, ("Cache-Control", v) ∈ headers response) <->
   exists rows, body response = ArrayBody rows).
Proof.
  assert (Herr : forall st b,
    (forall rows, b <> ArrayBody rows) ->
    let response := {| status := st; headers := error_headers; body := b |} in
    ("Access-Control-Allow-Origin", "*") ∈ headers response /\
    ("Content-Type", "application/json") ∈ headers response /\
    ((exists v, ("Cache-Control", v) ∈ headers response) <->
     exists rows, body response = ArrayBody rows)).
  { intros st b Hb. cbn. unfold error_headers. split; [|split].
    - apply elem_of_cons; right. apply elem_of_cons; left. reflexivity.
    - apply elem_of_cons; left. reflexivity.
    - split.
      + intros (v & Hv). apply elem_of_cons in Hv as [Hv|Hv]; [discriminate Hv|].
        apply elem_of_cons in Hv as [Hv|Hv]; [discriminate Hv|].
        apply elem_of_nil in Hv. contradiction.
      + intros (rows & Hrows). destruct (Hb rows Hrows). }
  unfold onRequestGet, proxy_error.
  destruct (FIRMS_API_KEY request) as [[|c key]|]; try (apply Herr; discriminate).
  destruct (fetch_upstream _) as [upstream|err]; try (apply Herr; discriminate).
  destruct (negb (up_ok upstream)).
  { destruct (Response_accepts (up_status upstream)); apply Herr; discriminate. }
  destruct (up_text upstream) as [csv|err]; try (apply Herr; discriminate).
  cbn. unfold success_headers. split; [|split].
  - apply elem_of_cons; right. apply elem_of_cons; right.
    apply elem_of_cons; left. reflexivity.
  - apply elem_of_cons; left. reflexivity.
  - split; intros _.
    + eexists. reflexivity.
    + eexists. apply elem_of_cons; right. apply elem_of_cons; left. reflexivity.
Qed.

End FirmsProxyMore.
